(** * Market-structure and options analytics of the SPY dashboard

    A shallow embedding of the analytic functions of the dashboard
    (the market-structure module and [src/utils/optionsCalculations.js])
    together with the properties their specification states.

    Number model.  A JavaScript number is an IEEE-754 double.  The
    embedding idealises it as an exact number: a rational [Q] wherever the
    code only adds, subtracts, multiplies, divides and compares, and a real
    [R] in the Pearson correlation and the Greeks, which call [Math.sqrt],
    [Math.exp] and [Math.log].  Rounding, [NaN] and the infinities are
    outside the model; every division the code performs on a possibly-zero
    divisor is either guarded in the embedding the way JavaScript's result
    would behave in the comparison that follows it, or excluded by a stated
    hypothesis.  Equality of rationals is [Qeq] ([==]).

    Since the code rounds, the properties are stated so as not to lean on
    exactness.  They speak of counts, order and membership, of comparisons
    between computed values, and of the terms a result is computed from; an
    equation between a result and an expression says which operations give
    it, on which operands.  Where the rounding decides an outcome, as
    whether a sum of squared deviations is exactly 0, the property is stated
    on the computed value itself and not on the data. *)

From Stdlib Require Import List Bool Arith ZArith Lia Permutation Sorted.
From Stdlib Require String Ascii.
Import String.StringSyntax Ascii.AsciiSyntax.
From Stdlib Require Import QArith Qabs Qround Qminmax.
From Stdlib Require Import Reals Qreals Psatz.
Import ListNotations.

(** ** Numbers *)

Module Num.

Local Open Scope Q_scope.

(** [a < b] on numbers, as a boolean. *)
Definition Qltb (a b : Q) : bool := negb (Qle_bool b a).

(** [a >= b] and [a > b] as the code writes them. *)
Definition Qgeb (a b : Q) : bool := Qle_bool b a.
Definition Qgtb (a b : Q) : bool := Qltb b a.

(** [x || d] on a possibly-absent number: [undefined], [null] and [0] are
    falsy. *)
Definition orElse (x : option Q) (d : Q) : Q :=
  match x with
  | Some q => if Qeq_bool q 0 then d else q
  | None => d
  end.

(** [ToNumber]: [null] compares as [0]. *)
Definition toNumber (x : option Q) : Q :=
  match x with
  | Some q => q
  | None => 0
  end.

(** [arr.reduce((a, b) => a + b, 0)]. *)
Definition Qsum (l : list Q) : Q := fold_left Qplus l 0.

(** [Math.min(...l)] and [Math.max(...l)] of a non-empty list (the head is
    passed apart). *)
Definition Qminl (x : Q) (l : list Q) : Q := fold_left Qmin l x.
Definition Qmaxl (x : Q) (l : list Q) : Q := fold_left Qmax l x.

(** [arr.sort(cmp)] for a comparator that orders by a key: JavaScript's sort
    is stable, so the result is the insertion of every element, from the
    right, before the first element that may not precede it.
    [before x y] says that [x] may stay in front of [y] ([cmp(x, y) <= 0]). *)
Fixpoint insertBy {A : Type} (before : A -> A -> bool) (x : A) (l : list A)
  : list A :=
  match l with
  | [] => [x]
  | y :: l' => if before x y then x :: l else y :: insertBy before x l'
  end.

Definition sortBy {A : Type} (before : A -> A -> bool) (l : list A) : list A :=
  fold_right (insertBy before) [] l.

(** An object used as a map from numeric keys: the entries in insertion
    order.  A numeric key is turned into its string, so two numbers are one
    key exactly when they are equal. *)
Definition JsObject (A : Type) : Type := list (Q * A).

Fixpoint lookup {A : Type} (k : Q) (o : JsObject A) : option A :=
  match o with
  | [] => None
  | (k', v) :: o' => if Qeq_bool k k' then Some v else lookup k o'
  end.

(** [o[k] = f(o[k])] on a key that is present. *)
Fixpoint update {A : Type} (k : Q) (f : A -> A) (o : JsObject A) : JsObject A :=
  match o with
  | [] => []
  | (k', v) :: o' =>
      if Qeq_bool k k' then (k', f v) :: o' else (k', v) :: update k f o'
  end.

(** A key that is the string of an integer in [0, 2^32 - 2] is an array
    index. *)
Definition isArrayIndex (k : Q) : bool :=
  let r := Qred k in
  (Qden r =? 1)%positive && (0 <=? Qnum r)%Z && (Qnum r <? 4294967295)%Z.

(** [Object.values(o)]: array-index keys first, in ascending order, then the
    other keys in insertion order. *)
Definition objectValues {A : Type} (o : JsObject A) : list A :=
  map snd
    (sortBy (fun a b => Qle_bool (fst a) (fst b))
       (filter (fun e => isArrayIndex (fst e)) o)
     ++ filter (fun e => negb (isArrayIndex (fst e))) o).

(** The keys of a list are pairwise different numbers. *)
Fixpoint distinctKeys (keys : list Q) : Prop :=
  match keys with
  | [] => True
  | k :: rest => (forall k', In k' rest -> ~ k == k') /\ distinctKeys rest
  end.

(** Every element of the list is followed by elements of keys that are not
    smaller. *)
Fixpoint sortedBy {A : Type} (key : A -> Q) (l : list A) : Prop :=
  match l with
  | [] => True
  | x :: rest => (forall y, In y rest -> key x <= key y) /\ sortedBy key rest
  end.

End Num.

(** ** Indicator engine: [calculateRSI] *)

Module Indicators.

Import Num.
Local Open Scope Q_scope.

(** One turn of the loop [for (i = data.length - period; i < data.length; i++)]:
    [change = data[i] - data[i - 1]], added to the gains when positive and
    subtracted from the losses otherwise. *)
Definition rsiStep (data : list Q) (acc : Q * Q) (i : nat) : Q * Q :=
  let '(gains, losses) := acc in
  let change := nth i data 0 - nth (i - 1) data 0 in
  if Qgtb change 0 then (gains + change, losses) else (gains, losses - change).

(** The pair [(gains, losses)] when the loop ends. *)
Definition rsiSums (data : list Q) (period : nat) : Q * Q :=
  fold_left (rsiStep data) (seq (length data - period) period) (0, 0).

Definition calculateRSI (data : list Q) (period : nat) : Q :=
  if (length data <? period + 1)%nat then 50
  else
    let '(gains, losses) := rsiSums data period in
    let avgGain := gains / inject_Z (Z.of_nat period) in
    let avgLoss := losses / inject_Z (Z.of_nat period) in
    if Qeq_bool avgLoss 0 then 100
    else
      let rs := avgGain / avgLoss in
      100 - 100 / (1 + rs).

(** The default [period = 14]. *)
Definition defaultPeriod : nat := 14.

(** The value the function computes from the two sums and the period. *)
Definition rsiValue (gains losses p : Q) : Q :=
  if Qeq_bool (losses / p) 0 then 100
  else 100 - 100 / (1 + (gains / p) / (losses / p)).

(** Fifteen closes that rise and fall by one in turn. *)
Definition alternating : list Q := [1; 2; 1; 2; 1; 2; 1; 2; 1; 2; 1; 2; 1; 2; 1].

End Indicators.

(** ** Volume profile: [calculateVolumeProfile] *)

Module PriceBar.

(** A processed price bar; [volume] may be absent. *)
Record t : Type := mk { close : Q; volume : option Q }.

End PriceBar.

Module VolumeProfile.

Import Num.
Local Open Scope Q_scope.

(** A bin of the profile. *)
Record Node : Type := mkNode {
  priceLevel : Q;
  volume : Q;
  priceLow : Q;
  priceHigh : Q
}.

(** The returned object.  [vah] and [val] are [None] when they are not a
    finite number: [null] on empty data, and the infinities [Math.max()] and
    [Math.min()] give on an empty value area. *)
Record Profile : Type := mkProfile {
  profile : list Node;
  poc : option Node;
  vah : option Q;
  val : option Q
}.

Definition numBins : nat := 50.

(** [d.close >= binLow && d.close < binHigh]. *)
Definition inBin (binLow binHigh : Q) (d : PriceBar.t) : bool :=
  Qgeb (PriceBar.close d) binLow && Qltb (PriceBar.close d) binHigh.

(** [data.reduce((sum, d, idx) => ..., 0)] for one bin. *)
Definition binVolume (data : list PriceBar.t) (volumes : list Q)
  (binLow binHigh : Q) : Q :=
  fold_left
    (fun sum (e : PriceBar.t * nat) =>
       let (d, idx) := e in
       if inBin binLow binHigh d
       then sum + orElse (nth_error volumes idx) 0
       else sum)
    (combine data (seq 0 (length data))) 0.

(** The body of [for (let i = 0; i < numBins; i++)]. *)
Definition makeBin (data : list PriceBar.t) (volumes : list Q)
  (minPrice binSize : Q) (i : nat) : Node :=
  let binLow := minPrice + inject_Z (Z.of_nat i) * binSize in
  let binHigh := binLow + binSize in
  {| priceLevel := (binLow + binHigh) / 2;
     volume := binVolume data volumes binLow binHigh;
     priceLow := binLow;
     priceHigh := binHigh |}.

(** [profile.reduce((max, curr) => curr.volume > max.volume ? curr : max,
    profile[0])]. *)
Definition pointOfControl (profile : list Node) : option Node :=
  match profile with
  | [] => None
  | first :: _ =>
      Some (fold_left
              (fun max curr => if Qgtb (volume curr) (volume max) then curr else max)
              profile first)
  end.

(** The loop over [sortedByVolume] with its [break]. *)
Fixpoint accumulateValueArea (sortedByVolume : list Node)
  (accumulatedVolume valueVolume : Q) : list Node :=
  match sortedByVolume with
  | [] => []
  | node :: rest =>
      if Qltb accumulatedVolume valueVolume
      then node :: accumulateValueArea rest (accumulatedVolume + volume node) valueVolume
      else []
  end.

Definition calculateVolumeProfile (data : list PriceBar.t) : Profile :=
  match map PriceBar.close data with
  | [] => {| profile := []; poc := None; vah := None; val := None |}
  | p :: ps =>
      let volumes := map (fun d => orElse (PriceBar.volume d) 1000000) data in
      let minPrice := Qminl p ps in
      let maxPrice := Qmaxl p ps in
      let binSize := (maxPrice - minPrice) / inject_Z (Z.of_nat numBins) in
      let profile := map (makeBin data volumes minPrice binSize) (seq 0 numBins) in
      let poc := pointOfControl profile in
      let totalVolume := fold_left (fun sum p => sum + volume p) profile 0 in
      let valueVolume := totalVolume * 0.7 in
      let sortedByVolume :=
        sortBy (fun a b => Qle_bool (volume b) (volume a)) profile in
      let valueArea := accumulateValueArea sortedByVolume 0 valueVolume in
      let levels := map priceLevel valueArea in
      {| profile := profile;
         poc := poc;
         vah := match levels with [] => None | l :: ls => Some (Qmaxl l ls) end;
         val := match levels with [] => None | l :: ls => Some (Qminl l ls) end |}
  end.

(** The volume the function counts for a bar: [d.volume || 1000000]. *)
Definition barVolume (d : PriceBar.t) : Q := orElse (PriceBar.volume d) 1000000.


(** The least and the greatest close of the bars [d :: ds]. *)
Definition minClose (d : PriceBar.t) (ds : list PriceBar.t) : Q :=
  Qminl (PriceBar.close d) (map PriceBar.close ds).

Definition maxClose (d : PriceBar.t) (ds : list PriceBar.t) : Q :=
  Qmaxl (PriceBar.close d) (map PriceBar.close ds).

(** The width of a bin. *)
Definition binWidth (d : PriceBar.t) (ds : list PriceBar.t) : Q :=
  (maxClose d ds - minClose d ds) / inject_Z (Z.of_nat numBins).


(** Two bars with the closes 1 and 2, and a single bar. *)
Definition twoBars : list PriceBar.t :=
  [PriceBar.mk 1 (Some 10); PriceBar.mk 2 (Some 20)].


(** The sum of the bin volumes. *)
Definition totalBinVolume (r : Profile) : Q :=
  Qsum (map volume (profile r)).

End VolumeProfile.

(** ** Level clustering: [calculateSupportResistance] *)

Module Swing.

(** A swing high or low, as [detectSwingPoints] pushes it. *)
Record t : Type := mk {
  index : nat;
  price : Q;
  timestamp : Q;
  strength : Q
}.

End Swing.

Module Point.

(** An element of [allPoints]. *)
Record t : Type := mk { price : Q; type : String.string; strength : Q }.

End Point.

Module Cluster.

(** An element of [clusters]; [touches] counts the merged points. *)
Record t : Type := mk {
  price : Q;
  type : String.string;
  touches : nat;
  strength : Q
}.

End Cluster.

Module Level.

(** A returned level: the cluster with its final strength and its distance
    to the current price. *)
Record t : Type := mk {
  price : Q;
  type : String.string;
  touches : nat;
  strength : Q;
  distance : Q
}.

End Level.

Module Levels.

Import Num.
Local Open Scope Q_scope.
Local Open Scope string_scope.

(** The object [detectSwingPoints] returns; [current] is the trend with its
    strength, which the clustering does not read. *)
Record Swings : Type := mkSwings {
  highs : list Swing.t;
  lows : list Swing.t;
  current : String.string * Q
}.

(** 0.5% clustering tolerance. *)
Definition tolerance : Q := 0.005.

Definition allPoints (swings : Swings) : list Point.t :=
  map (fun h => Point.mk (Swing.price h) "resistance" (Swing.strength h)) (highs swings)
  ++ map (fun l => Point.mk (Swing.price l) "support" (Swing.strength l)) (lows swings).

(** The predicate of [clusters.find]:
    [Math.abs(c.price - point.price) / c.price < tolerance].  On a cluster
    price of [0] the quotient is an infinity or [NaN] and the test is
    false. *)
Definition near (c : Cluster.t) (point : Point.t) : bool :=
  if Qeq_bool (Cluster.price c) 0 then false
  else Qltb (Qabs (Cluster.price c - Point.price point) / Cluster.price c) tolerance.

(** The update of [existingCluster]. *)
Definition merge (c : Cluster.t) (point : Point.t) : Cluster.t :=
  Cluster.mk ((Cluster.price c + Point.price point) / 2)
             (Cluster.type c)
             (S (Cluster.touches c))
             (Cluster.strength c + Point.strength point).

(** The cluster [clusters.push] adds. *)
Definition newCluster (point : Point.t) : Cluster.t :=
  Cluster.mk (Point.price point) (Point.type point) 1 (Point.strength point).

(** The body of [allPoints.forEach]: the first cluster that is near the
    point is updated in place; without one, a new cluster goes to the end. *)
Fixpoint addPoint (clusters : list Cluster.t) (point : Point.t) : list Cluster.t :=
  match clusters with
  | [] => [newCluster point]
  | c :: rest =>
      if near c point then merge c point :: rest
      else c :: addPoint rest point
  end.

(** [clusters] after the [forEach]. *)
Definition clusterPoints (points : list Point.t) : list Cluster.t :=
  fold_left addPoint points [].

(** The [map] that ends the function: [count] is [clusters.length]. *)
Definition toLevel (currentPrice : option Q) (count : nat) (c : Cluster.t) : Level.t :=
  Level.mk (Cluster.price c) (Cluster.type c) (Cluster.touches c)
    (inject_Z (Z.of_nat (Cluster.touches c)) * Cluster.strength c
       / inject_Z (Z.of_nat count))
    (match currentPrice with
     | Some cp =>
         if Qeq_bool cp 0 then 0
         else Qabs ((Cluster.price c - cp) / cp * 100)
     | None => 0
     end).

(** [currentPrice] is the component's property of that name; the parameter
    [data] is not read. *)
Definition calculateSupportResistance (currentPrice : option Q)
  (data : list PriceBar.t) (swings : Swings) : list Level.t :=
  let clusters := clusterPoints (allPoints swings) in
  firstn 8
    (sortBy (fun a b => Qle_bool (Level.strength b) (Level.strength a))
       (map (toLevel currentPrice (length clusters)) clusters)).

(** The position, in [clusters], of the cluster that takes the point: the
    first one that is near it, or the end of the list for a new cluster.
    Clusters are never removed or reordered, so that a position names a
    cluster for good. *)
Fixpoint placeOf (clusters : list Cluster.t) (point : Point.t) : nat :=
  match clusters with
  | [] => 0
  | c :: rest => if near c point then 0 else S (placeOf rest point)
  end.

(** The positions of the clusters that take the points, in the order of the
    points, starting from [clusters]. *)
Fixpoint places (clusters : list Cluster.t) (points : list Point.t) : list nat :=
  match points with
  | [] => []
  | point :: rest => placeOf clusters point :: places (addPoint clusters point) rest
  end.

(** The touches of the cluster at position [k], 0 without one. *)
Definition touchesAt (clusters : list Cluster.t) (k : nat) : nat :=
  match nth_error clusters k with
  | Some c => Cluster.touches c
  | None => 0
  end.

(** Three swing highs at 100, 100.4 and 100.8. *)
Definition threeHighs : Swings :=
  mkSwings [Swing.mk 2 100 0 1; Swing.mk 7 100.4 0 1; Swing.mk 12 100.8 0 1]
    [] ("neutral", 0).

(** Two prices within 0.5% of each other, relative to either of them. *)
Definition within_tolerance (p q : Q) : Prop :=
  Qabs (p - q) / p < tolerance /\ Qabs (p - q) / q < tolerance.

End Levels.

(** ** Options walls and max pain: [calculateOptionsWalls],
    [calculateMaxPain], [generateMockOptionsWalls] *)

Module Contract.

(** An option of the chain as [calculateOptionsWalls] reads it; every field
    but [strike] may be absent. *)
Record t : Type := mk {
  strike : Q;
  type : option String.string;
  openInterest : option Q;
  oi : option Q;
  volume : option Q;
  gamma : option Q
}.

End Contract.

Module StrikeData.

(** An entry of [strikeData], and a wall of the mock before its metrics. *)
Record t : Type := mk {
  strike : Q;
  callOI : Q;
  putOI : Q;
  callVolume : Q;
  putVolume : Q;
  callGamma : Q;
  putGamma : Q
}.

End StrikeData.

Module Wall.

(** A strike aggregate with its metrics. *)
Record t : Type := mk {
  strike : Q;
  callOI : Q;
  putOI : Q;
  callVolume : Q;
  putVolume : Q;
  callGamma : Q;
  putGamma : Q;
  netOI : Q;
  netGamma : Q;
  totalOI : Q;
  putCallRatio : Q
}.

End Wall.

Module OptionsWalls.

Import Num.
Local Open Scope Q_scope.
Local Open Scope string_scope.

(** The returned object. *)
Record Walls : Type := mkWalls {
  walls : list Wall.t;
  maxPain : option Q;
  significantWalls : list Wall.t;
  supportWalls : list Wall.t;
  resistanceWalls : list Wall.t
}.

(** [String.prototype.toLowerCase] on the letters A to Z. *)
Definition lowerAscii (c : Ascii.ascii) : Ascii.ascii :=
  let n := Ascii.nat_of_ascii c in
  if ((65 <=? n) && (n <=? 90))%nat then Ascii.ascii_of_nat (n + 32) else c.

Fixpoint toLowerCase (s : String.string) : String.string :=
  match s with
  | String.EmptyString => String.EmptyString
  | String.String c s' => String.String (lowerAscii c) (toLowerCase s')
  end.

(** *** Max pain *)

(** The inner [walls.forEach]: the pain of every wall at the candidate
    [strike], added to [totalPain]. *)
Definition painStep (strike : Q) (totalPain : Q) (w : Wall.t) : Q :=
  let totalPain :=
    if Qgtb strike (Wall.strike w)
    then totalPain + Wall.callOI w * (strike - Wall.strike w)
    else totalPain in
  if Qltb strike (Wall.strike w)
  then totalPain + Wall.putOI w * (Wall.strike w - strike)
  else totalPain.

Definition totalPainAt (walls : list Wall.t) (strike : Q) : Q :=
  fold_left (painStep strike) walls 0.

(** The outer [walls.forEach] on the pair [(maxPainStrike, minPain)];
    [minPain = None] is its initial [Infinity], below which every total
    lies. *)
Definition maxPainStep (walls : list Wall.t) (acc : option Q * option Q)
  (wall : Wall.t) : option Q * option Q :=
  let strike := Wall.strike wall in
  let totalPain := totalPainAt walls strike in
  match snd acc with
  | None => (Some strike, Some totalPain)
  | Some minPain =>
      if Qltb totalPain minPain then (Some strike, Some totalPain) else acc
  end.

Definition calculateMaxPain (walls : list Wall.t) : option Q :=
  fst (fold_left (maxPainStep walls) walls (None, None)).

(** *** Aggregation by strike *)

Definition emptyStrike (strike : Q) : StrikeData.t :=
  StrikeData.mk strike 0 0 0 0 0 0.

Definition addCall (openInterest volume gamma : Q) (s : StrikeData.t) : StrikeData.t :=
  StrikeData.mk (StrikeData.strike s)
    (StrikeData.callOI s + openInterest) (StrikeData.putOI s)
    (StrikeData.callVolume s + volume) (StrikeData.putVolume s)
    (StrikeData.callGamma s + gamma * openInterest) (StrikeData.putGamma s).

Definition addPut (openInterest volume gamma : Q) (s : StrikeData.t) : StrikeData.t :=
  StrikeData.mk (StrikeData.strike s)
    (StrikeData.callOI s) (StrikeData.putOI s + openInterest)
    (StrikeData.callVolume s) (StrikeData.putVolume s + volume)
    (StrikeData.callGamma s) (StrikeData.putGamma s + gamma * openInterest).

(** The body of [optionsData.forEach]. *)
Definition addContract (strikeData : JsObject StrikeData.t) (opt : Contract.t)
  : JsObject StrikeData.t :=
  let strike := Contract.strike opt in
  let strikeData :=
    match lookup strike strikeData with
    | Some _ => strikeData
    | None => strikeData ++ [(strike, emptyStrike strike)]
    end in
  let optType :=
    toLowerCase (match Contract.type opt with
                 | Some s => s
                 | None => String.EmptyString
                 end) in
  let openInterest := orElse (Contract.openInterest opt) (orElse (Contract.oi opt) 0) in
  let volume := orElse (Contract.volume opt) 0 in
  let gamma := orElse (Contract.gamma opt) 0 in
  if String.eqb optType "call" then update strike (addCall openInterest volume gamma) strikeData
  else if String.eqb optType "put" then update strike (addPut openInterest volume gamma) strikeData
  else strikeData.

(** The metrics both builders add to a strike. *)
Definition withMetrics (s : StrikeData.t) : Wall.t :=
  Wall.mk (StrikeData.strike s) (StrikeData.callOI s) (StrikeData.putOI s)
    (StrikeData.callVolume s) (StrikeData.putVolume s)
    (StrikeData.callGamma s) (StrikeData.putGamma s)
    (StrikeData.callOI s - StrikeData.putOI s)
    (StrikeData.callGamma s - StrikeData.putGamma s)
    (StrikeData.callOI s + StrikeData.putOI s)
    (if Qgtb (StrikeData.callOI s) 0
     then StrikeData.putOI s / StrikeData.callOI s else 0).

(** [sortedByOI[Math.floor(sortedByOI.length * fraction)]?.totalOI || 0]. *)
Definition oiThreshold (fraction : Q) (ws : list Wall.t) : Q :=
  let sortedByOI := sortBy (fun a b => Qle_bool (Wall.totalOI b) (Wall.totalOI a)) ws in
  let rank := Z.to_nat (Qfloor (inject_Z (Z.of_nat (length sortedByOI)) * fraction)) in
  orElse (option_map Wall.totalOI (nth_error sortedByOI rank)) 0.

Definition isSupport (price : Q) (w : Wall.t) : bool :=
  Qltb (Wall.strike w) price && Qgtb (Wall.putOI w) (Wall.callOI w).

Definition isResistance (price : Q) (w : Wall.t) : bool :=
  Qgtb (Wall.strike w) price && Qgtb (Wall.callOI w) (Wall.putOI w).

(** [Math.round]. *)
Definition round (x : Q) : Q := inject_Z (Qfloor (x + 0.5)).

Section Builtins.

(** [Math.exp], idealised as a function on the rationals. *)
Variable Math_exp : Q -> Q.

(** The pseudo-random source: [Math_random n] is what the [n]-th call of
    [Math.random()] returns in this run. *)
Variable Math_random : nat -> Q.

(** One turn of [for (let i = -10; i <= 10; i++)]; [n] counts the calls of
    [Math.random()] made so far. *)
Definition mockStep (basePrice : Q) (acc : list StrikeData.t * nat) (i : Z)
  : list StrikeData.t * nat :=
  let '(walls, n) := acc in
  let strike := round (basePrice + inject_Z i * 5) in
  let distanceFromPrice := Qabs (strike - basePrice) in
  let baseOI := 50000 * Math_exp (- distanceFromPrice / 15) in
  let callSkew := if Qgtb strike basePrice then 0.8 else 1.2 in
  let putSkew := if Qltb strike basePrice then 1.3 else 0.7 in
  (walls ++
   [StrikeData.mk strike
      (round (baseOI * callSkew * (0.8 + Math_random n * 0.4)))
      (round (baseOI * putSkew * (0.8 + Math_random (n + 1)%nat * 0.4)))
      (round (baseOI * 0.1 * Math_random (n + 2)%nat))
      (round (baseOI * 0.1 * Math_random (n + 3)%nat))
      (baseOI * 0.001 * callSkew)
      (baseOI * 0.001 * putSkew)],
   (n + 4)%nat).

(** The wall the turn number [k] (from 0, so that [i = k - 10]) pushes: it
    reads the draws [4k] to [4k + 3]. *)
Definition mockWall (basePrice : Q) (k : nat) : StrikeData.t :=
  hd (emptyStrike 0)
     (fst (mockStep basePrice ([], (4 * k)%nat) (Z.of_nat k - 10)%Z)).

Definition generateMockOptionsWalls (currentPrice : option Q) : Walls :=
  let basePrice := orElse currentPrice 595 in
  let walls :=
    fst (fold_left (mockStep basePrice)
           (map (fun k => (Z.of_nat k - 10)%Z) (seq 0 21)) ([], 0%nat)) in
  let wallsWithMetrics := map withMetrics walls in
  let maxPain := calculateMaxPain wallsWithMetrics in
  let threshold := oiThreshold 0.3 wallsWithMetrics in
  let significantWalls :=
    filter (fun w => Qgeb (Wall.totalOI w) threshold) wallsWithMetrics in
  {| walls := wallsWithMetrics;
     maxPain := maxPain;
     significantWalls := significantWalls;
     supportWalls := filter (isSupport basePrice) significantWalls;
     resistanceWalls := filter (isResistance basePrice) significantWalls |}.

(** [optionsData] that is [null] or [undefined] is the empty list here. *)
Definition calculateOptionsWalls (optionsData : list Contract.t)
  (currentPrice : option Q) : Walls :=
  match optionsData with
  | [] => generateMockOptionsWalls currentPrice
  | _ :: _ =>
      let strikeData := fold_left addContract optionsData [] in
      let walls := map withMetrics (objectValues strikeData) in
      let maxPain := calculateMaxPain walls in
      let threshold := oiThreshold 0.2 walls in
      let significantWalls := filter (fun w => Qgeb (Wall.totalOI w) threshold) walls in
      {| walls := sortBy (fun a b => Qle_bool (Wall.strike a) (Wall.strike b)) walls;
         maxPain := maxPain;
         significantWalls := significantWalls;
         supportWalls := filter (isSupport (toNumber currentPrice)) significantWalls;
         resistanceWalls := filter (isResistance (toNumber currentPrice)) significantWalls |}
  end.

End Builtins.

(** Random sources for examples: one that always draws [q], and one that
    draws [q] for the first [n] calls and [q'] afterwards. *)
Definition constantDraws (q : Q) : nat -> Q := fun _ => q.

Definition drawsThen (n : nat) (q q' : Q) : nat -> Q :=
  fun j => if (j <? n)%nat then q else q'.

(** A stand-in for [Math.exp] in examples where its values do not matter. *)
Definition unitExp : Q -> Q := fun _ => 1.

(** *** The specification's max pain *)

(** Total pain at a candidate [c] in the specification's words: the sum over
    the strikes [w < c] of [callOI(w) * (c - w)] plus the sum over the
    strikes [w > c] of [putOI(w) * (w - c)]. *)
Definition spec_totalPain (walls : list Wall.t) (c : Q) : Q :=
  Qsum (map (fun w => Wall.callOI w * (c - Wall.strike w))
          (filter (fun w => Qltb (Wall.strike w) c) walls))
  + Qsum (map (fun w => Wall.putOI w * (Wall.strike w - c))
            (filter (fun w => Qltb c (Wall.strike w)) walls)).

(** [c] is a candidate strike of least total pain. *)
Definition minimizes_pain (walls : list Wall.t) (c : Q) : Prop :=
  In c (map Wall.strike walls) /\
  forall c', In c' (map Wall.strike walls) ->
    spec_totalPain walls c <= spec_totalPain walls c'.

(** What the outer loop keeps: a strike it has seen, with its total pain,
    which no strike seen so far undercuts. *)
Definition best_so_far (walls seen : list Wall.t) (acc : option Q * option Q) : Prop :=
  match acc with
  | (Some c, Some m) =>
      m = totalPainAt walls c /\
      In c (map Wall.strike seen) /\
      forall w, In w seen -> m <= totalPainAt walls (Wall.strike w)
  | (None, None) => seen = []
  | _ => False
  end.

(** A wall that carries only a strike and its two open interests. *)
Definition oiWall (strike callOI putOI : Q) : Wall.t :=
  withMetrics (StrikeData.mk strike callOI putOI 0 0 0 0).

(** The synthetic chain: strikes 95, 100, 105 with call open interest
    10, 5, 0 and put open interest 0, 5, 10. *)
Definition chain3 : list Wall.t :=
  [oiWall 95 10 0; oiWall 100 5 5; oiWall 105 0 10].

End OptionsWalls.

(** ** Dealer exposure and gamma flip: [calculateDealerMetrics] *)

Module DealerOption.

(** An option of the chain as [calculateDealerMetrics] reads it. *)
Record t : Type := mk {
  strike : Q;
  type : String.string;
  oi : Q;
  gamma : Q;
  delta : Q
}.

End DealerOption.

Module StrikeGamma.

(** An entry of [strikeMap]. *)
Record t : Type := mk {
  strike : Q;
  callGamma : Q;
  putGamma : Q;
  callDelta : Q;
  putDelta : Q;
  netGamma : Q;
  netDelta : Q
}.

End StrikeGamma.

Module Dealer.

Import Num.
Local Open Scope Q_scope.
Local Open Scope string_scope.

(** The returned object; [gammaFlipPoint = None] is [null]. *)
Record Metrics : Type := mkMetrics {
  strikes : list StrikeGamma.t;
  totalGamma : Q;
  totalDelta : Q;
  gammaFlipPoint : option Q;
  isShortGamma : bool;
  maxGammaStrike : option StrikeGamma.t
}.

Definition emptyStrike (strike : Q) : StrikeGamma.t :=
  StrikeGamma.mk strike 0 0 0 0 0 0.

Definition addCall (gamma delta notional : Q) (s : StrikeGamma.t) : StrikeGamma.t :=
  StrikeGamma.mk (StrikeGamma.strike s)
    (StrikeGamma.callGamma s + gamma * notional) (StrikeGamma.putGamma s)
    (StrikeGamma.callDelta s + delta * notional) (StrikeGamma.putDelta s)
    (StrikeGamma.netGamma s) (StrikeGamma.netDelta s).

Definition addPut (gamma delta notional : Q) (s : StrikeGamma.t) : StrikeGamma.t :=
  StrikeGamma.mk (StrikeGamma.strike s)
    (StrikeGamma.callGamma s) (StrikeGamma.putGamma s + gamma * notional)
    (StrikeGamma.callDelta s) (StrikeGamma.putDelta s + delta * notional)
    (StrikeGamma.netGamma s) (StrikeGamma.netDelta s).

(** The body of [options.forEach]: dealers are short customer longs. *)
Definition addOption (strikeMap : JsObject StrikeGamma.t) (opt : DealerOption.t)
  : JsObject StrikeGamma.t :=
  let strike := DealerOption.strike opt in
  let strikeMap :=
    match lookup strike strikeMap with
    | Some _ => strikeMap
    | None => strikeMap ++ [(strike, emptyStrike strike)]
    end in
  let notional := DealerOption.oi opt * 100 * -1 in
  if String.eqb (DealerOption.type opt) "CALL"
  then update strike (addCall (DealerOption.gamma opt) (DealerOption.delta opt) notional) strikeMap
  else update strike (addPut (DealerOption.gamma opt) (DealerOption.delta opt) notional) strikeMap.

(** The body of [Object.values(strikeMap).forEach]. *)
Definition setNet (s : StrikeGamma.t) : StrikeGamma.t :=
  StrikeGamma.mk (StrikeGamma.strike s)
    (StrikeGamma.callGamma s) (StrikeGamma.putGamma s)
    (StrikeGamma.callDelta s) (StrikeGamma.putDelta s)
    (StrikeGamma.callGamma s + StrikeGamma.putGamma s)
    (StrikeGamma.callDelta s + StrikeGamma.putDelta s).

(** The loop that finds the gamma flip, with its [break]. *)
Fixpoint findGammaFlip (strikes : list StrikeGamma.t) : option Q :=
  match strikes with
  | a :: (b :: _) as rest =>
      if Qltb (StrikeGamma.netGamma a * StrikeGamma.netGamma b) 0
      then Some ((StrikeGamma.strike a + StrikeGamma.strike b) / 2)
      else findGammaFlip rest
  | _ => None
  end.

(** [strikes.reduce((max, s) => Math.abs(s.netGamma) > Math.abs(max.netGamma)
    ? s : max, strikes[0])]. *)
Definition findMaxGammaStrike (strikes : list StrikeGamma.t) : option StrikeGamma.t :=
  match strikes with
  | [] => None
  | first :: _ =>
      Some (fold_left
              (fun max s =>
                 if Qgtb (Qabs (StrikeGamma.netGamma s)) (Qabs (StrikeGamma.netGamma max))
                 then s else max)
              strikes first)
  end.

(** The sorted strike aggregates. *)
Definition aggregate (options : list DealerOption.t) : list StrikeGamma.t :=
  sortBy (fun a b => Qle_bool (StrikeGamma.strike a) (StrikeGamma.strike b))
    (map setNet (objectValues (fold_left addOption options []))).

(** [None] is the [null] of the guard [!options.length || !spy]. *)
Definition calculateDealerMetrics (options : list DealerOption.t) (spy : Q)
  : option Metrics :=
  if (length options =? 0)%nat || Qeq_bool spy 0 then None
  else
    let strikes := aggregate options in
    let totalGamma := fold_left (fun sum s => sum + StrikeGamma.netGamma s) strikes 0 in
    let totalDelta := fold_left (fun sum s => sum + StrikeGamma.netDelta s) strikes 0 in
    Some {| strikes := strikes;
            totalGamma := totalGamma;
            totalDelta := totalDelta;
            gammaFlipPoint := findGammaFlip strikes;
            isShortGamma := Qltb totalGamma 0;
            maxGammaStrike := findMaxGammaStrike strikes |}.

(** *** The specification's gamma flip *)

(** The sign of a number: negative, zero or positive. *)
Definition sign (x : Q) : comparison := x ?= 0.

(** Scanning the strikes in order, the first adjacent pair whose [netGamma]
    signs differ gives the mean of its two strikes; without a sign change
    there is no flip. *)
Fixpoint spec_gammaFlip (strikes : list StrikeGamma.t) : option Q :=
  match strikes with
  | a :: (b :: _) as rest =>
      match sign (StrikeGamma.netGamma a), sign (StrikeGamma.netGamma b) with
      | Lt, Lt | Eq, Eq | Gt, Gt => spec_gammaFlip rest
      | _, _ => Some ((StrikeGamma.strike a + StrikeGamma.strike b) / 2)
      end
  | _ => None
  end.

(** One of the two numbers is negative and the other positive. *)
Definition opposite (x y : Q) : Prop :=
  (x < 0 /\ 0 < y) \/ (0 < x /\ y < 0).

(** The pair of strikes at the positions [i] and [i + 1] has net gammas of
    opposite signs. *)
Definition flips_at (strikes : list StrikeGamma.t) (i : nat) : Prop :=
  exists a b,
    nth_error strikes i = Some a /\ nth_error strikes (S i) = Some b /\
    opposite (StrikeGamma.netGamma a) (StrikeGamma.netGamma b).

(** The mean of the strikes at the positions [i] and [i + 1]. *)
Definition mean_at (strikes : list StrikeGamma.t) (i : nat) : option Q :=
  match nth_error strikes i, nth_error strikes (S i) with
  | Some a, Some b => Some ((StrikeGamma.strike a + StrikeGamma.strike b) / 2)
  | _, _ => None
  end.

(** The strikes ascend. *)
Definition ascending (strikes : list StrikeGamma.t) : Prop :=
  forall i a b,
    nth_error strikes i = Some a -> nth_error strikes (S i) = Some b ->
    StrikeGamma.strike a < StrikeGamma.strike b.

(** A strike ladder whose net gamma changes sign once, between 500 and
    505, and a chain whose second strike has no open interest. *)
Definition ladder : list DealerOption.t :=
  [DealerOption.mk 505 "CALL" 10 (-0.02) 0.4;
   DealerOption.mk 495 "PUT" 5 0.01 (-0.3);
   DealerOption.mk 500 "CALL" 10 0.02 0.5;
   DealerOption.mk 510 "CALL" 1 (-0.01) 0.3].

Definition zeroOiChain : list DealerOption.t :=
  [DealerOption.mk 500 "CALL" 10 0.02 0.5;
   DealerOption.mk 505 "CALL" 0 0.02 0.4].

(** What the loop over the options keeps true of [strikeMap]: the keys are
    pairwise different and every entry carries its key as its strike. *)
Definition keyed (strikeMap : JsObject StrikeGamma.t) : Prop :=
  distinctKeys (map fst strikeMap) /\
  Forall (fun e => StrikeGamma.strike (snd e) = fst e) strikeMap.

End Dealer.

(** ** Sentiment scorer: [generatePrediction] and the dashboard's
    [genPrediction] *)

Module Sentiment.

Import Num.
Local Open Scope Q_scope.
Local Open Scope string_scope.

(** What [calculateVolatilityMetrics] returns. *)
Record VolMetrics : Type := mkVolMetrics {
  atmIV : Q;
  historicalVol : Q;
  ivHVSpread : Q;
  pcrVolume : Q;
  pcrOI : Q;
  ivSkew : Q;
  vixLevel : Q
}.

Record Signal : Type := mkSignal {
  factor : String.string;
  sentiment : String.string;
  weight : Q
}.

(** The returned object. *)
Record Prediction : Type := mkPrediction {
  prediction : String.string;
  confidence : Q;
  signals : list Signal;
  bullishScore : Q;
  bearishScore : Q;
  timestamp : String.string;
  spyPriceAtPrediction : Q
}.

(** The three locals [bull], [bear] and [signals]. *)
Record Score : Type := mkScore {
  bull : Q;
  bear : Q;
  pushed : list Signal
}.

(** [bull += w; signals.push({ factor, sentiment: 'bullish', weight: w })]. *)
Definition bullish (w : Q) (factor : String.string) (s : Score) : Score :=
  mkScore (bull s + w) (bear s) (pushed s ++ [mkSignal factor "bullish" w]).

(** [bear += w; signals.push({ factor, sentiment: 'bearish', weight: w })]. *)
Definition bearish (w : Q) (factor : String.string) (s : Score) : Score :=
  mkScore (bull s) (bear s + w) (pushed s ++ [mkSignal factor "bearish" w]).

(** The six rules, in the order of the code.  A [gammaFlipPoint] that is
    [null] compares as [0]. *)
Definition dealerRule (dealerMetrics : Dealer.Metrics) (spy : Q) (s : Score) : Score :=
  if Dealer.isShortGamma dealerMetrics then
    if Qgtb spy (toNumber (Dealer.gammaFlipPoint dealerMetrics))
    then bullish 2 "Dealer Short Gamma Above Flip" s
    else bearish 2 "Dealer Short Gamma Below Flip" s
  else bearish 1 "Dealer Long Gamma (Dampening)" s.

Definition pcrRule (volMetrics : VolMetrics) (s : Score) : Score :=
  if Qgtb (pcrVolume volMetrics) 1.2 then bullish 1 "High Put Buying (PCR > 1.2)" s
  else if Qltb (pcrVolume volMetrics) 0.7 then bearish 1 "High Call Buying (PCR < 0.7)" s
  else s.

Definition ivRule (volMetrics : VolMetrics) (s : Score) : Score :=
  if Qgtb (ivHVSpread volMetrics) 0.05 then bearish 1 "IV Premium to HV (Fear)" s
  else if Qltb (ivHVSpread volMetrics) (-0.02) then bullish 1 "IV Discount to HV" s
  else s.

Definition vixRule (volMetrics : VolMetrics) (s : Score) : Score :=
  if Qgtb (vixLevel volMetrics) 25 then bullish 2 "Elevated VIX (>25)" s
  else if Qltb (vixLevel volMetrics) 12 then bearish 1 "Low VIX (<12)" s
  else s.

Definition ivSkewRule (volMetrics : VolMetrics) (s : Score) : Score :=
  if Qgtb (ivSkew volMetrics) 0.05 then bearish 1 "High Put Skew (>5%)" s
  else s.

Definition skewRule (skew : Q) (s : Score) : Score :=
  if Qgtb skew 140 then bearish 2 "Elevated SKEW (>140)" s
  else if Qltb skew 120 then bullish 1 "Low SKEW (<120)" s
  else s.

(** The locals when the function reaches its [return]. *)
Definition score (volMetrics : VolMetrics) (dealerMetrics : Dealer.Metrics)
  (spy skew : Q) : Score :=
  skewRule skew
    (ivSkewRule volMetrics
       (vixRule volMetrics
          (ivRule volMetrics
             (pcrRule volMetrics
                (dealerRule dealerMetrics spy (mkScore 0 0 [])))))).

Section Clock.

(** The wall clock: what [new Date().toISOString()] evaluates to at the
    call. *)
Variable now : String.string.

(** [src/utils/optionsCalculations.js]. *)
Definition generatePrediction (volMetrics : option VolMetrics)
  (dealerMetrics : option Dealer.Metrics) (spy skew : Q) : option Prediction :=
  match volMetrics, dealerMetrics with
  | Some volMetrics, Some dealerMetrics =>
      let s := score volMetrics dealerMetrics spy skew in
      Some {| prediction := if Qgtb (bull s) (bear s) then "BULLISH" else "BEARISH";
              confidence := Qabs (bull s - bear s) / (bull s + bear s);
              signals := pushed s;
              bullishScore := bull s;
              bearishScore := bear s;
              timestamp := now;
              spyPriceAtPrediction := spy |}
  | _, _ => None
  end.

(** [src/components/SPYDashboard.jsx]: the same text, with [dealerMet] for
    [dealerMetrics]. *)
Definition genPrediction (volMetrics : option VolMetrics)
  (dealerMet : option Dealer.Metrics) (spy skew : Q) : option Prediction :=
  match volMetrics, dealerMet with
  | Some volMetrics, Some dealerMet =>
      let s := score volMetrics dealerMet spy skew in
      Some {| prediction := if Qgtb (bull s) (bear s) then "BULLISH" else "BEARISH";
              confidence := Qabs (bull s - bear s) / (bull s + bear s);
              signals := pushed s;
              bullishScore := bull s;
              bearishScore := bear s;
              timestamp := now;
              spyPriceAtPrediction := spy |}
  | _, _ => None
  end.

End Clock.

(** The summed weight of the signals of one sentiment. *)
Definition summedWeight (sentiment : String.string) (l : list Signal) : Q :=
  Qsum (map weight
          (filter (fun sg => String.eqb (Sentiment.sentiment sg) sentiment) l)).

(** The scores are the summed weights of the signals pushed so far. *)
Definition scores_signals (s : Score) : Prop :=
  bull s == summedWeight "bullish" (pushed s) /\
  bear s == summedWeight "bearish" (pushed s).

(** Neither score of [s'] is below that of [s]. *)
Definition score_le (s s' : Score) : Prop :=
  bull s <= bull s' /\ bear s <= bear s'.

(** Sample inputs: a short-gamma dealer profile without a flip point, and
    volatility metrics that fire no rule. *)
Definition sampleDealer : Dealer.Metrics :=
  Dealer.mkMetrics [] (-20) (-500) None true None.

Definition sampleVol : VolMetrics :=
  mkVolMetrics 0.15 0.15 0 1 1 0 18.

(** The result of the scorer on the sample inputs at spot 500 and a tail-risk
    index of 130, read at the given time. *)
Definition samplePrediction (now : String.string) : Prediction :=
  mkPrediction "BULLISH" (Qabs (0 + 2 - 0) / (0 + 2 + 0))
    [mkSignal "Dealer Short Gamma Above Flip" "bullish" 2] (0 + 2) 0 now 500.

(** A result with its [timestamp] replaced. *)
Definition stamped (t : String.string) (p : Prediction) : Prediction :=
  mkPrediction (prediction p) (confidence p) (signals p) (bullishScore p)
    (bearishScore p) t (spyPriceAtPrediction p).

End Sentiment.

(** ** Correlation: [calculateCorrelation], [calculateRollingCorrelation] *)

Module Row.

(** An element of the series the rolling correlation runs over. *)
Record t : Type := mk { timestamp : Z; spy : R; vix : R }.

End Row.

Module CorrPoint.

(** An element of the result of the rolling correlation. *)
Record t : Type := mk { timestamp : Z; spyVixCorr : R; spy : R; vix : R }.

End CorrPoint.

Module Correlation.

Local Open Scope R_scope.

(** [arr.reduce((a, b) => a + b)], which starts from the first element.
    The code calls it on a non-empty array only (on an empty one JavaScript
    throws); the value on [[]] is never read. *)
Definition reduceSum (arr : list R) : R :=
  match arr with
  | [] => 0
  | x :: xs => fold_left Rplus xs x
  end.

(** One turn of [for (let i = 0; i < n; i++)] on the triple
    [(numerator, denom1, denom2)]. *)
Definition corrStep (arr1 arr2 : list R) (mean1 mean2 : R)
  (acc : R * R * R) (i : nat) : R * R * R :=
  let '(numerator, denom1, denom2) := acc in
  let diff1 := nth i arr1 0 - mean1 in
  let diff2 := nth i arr2 0 - mean2 in
  (numerator + diff1 * diff2, denom1 + diff1 * diff1, denom2 + diff2 * diff2).

(** The triple when the loop ends. *)
Definition corrSums (arr1 arr2 : list R) : R * R * R :=
  let n := length arr1 in
  let mean1 := reduceSum arr1 / INR n in
  let mean2 := reduceSum arr2 / INR n in
  fold_left (corrStep arr1 arr2 mean1 mean2) (seq 0 n) (0, 0, 0).

Definition calculateCorrelation (arr1 arr2 : list R) : R :=
  if negb (length arr1 =? length arr2)%nat || (length arr1 =? 0)%nat then 0
  else
    let '(numerator, denom1, denom2) := corrSums arr1 arr2 in
    if Req_dec_T denom1 0 then 0
    else if Req_dec_T denom2 0 then 0
    else numerator / sqrt (denom1 * denom2).

(** The three locals [numerator], [denom1] and [denom2] when the loop
    ends. *)
Definition numerator (arr1 arr2 : list R) : R := fst (fst (corrSums arr1 arr2)).

Definition denom1 (arr1 arr2 : list R) : R := snd (fst (corrSums arr1 arr2)).

Definition denom2 (arr1 arr2 : list R) : R := snd (corrSums arr1 arr2).

(** [data.slice(start, end)] for [start <= end]. *)
Definition slice {A : Type} (start end_ : nat) (data : list A) : list A :=
  firstn (end_ - start) (skipn start data).

(** The row [data[i]]; the default is never read, [i] being an index of
    [data]. *)
Definition row (data : list Row.t) (i : nat) : Row.t :=
  nth i data (Row.mk 0 0 0).

(** The body of [for (let i = window; i < data.length; i++)]. *)
Definition rollingPoint (data : list Row.t) (window i : nat) : CorrPoint.t :=
  let slice := slice (i - window) i data in
  let spyPrices := map Row.spy slice in
  let vixPrices := map Row.vix slice in
  {| CorrPoint.timestamp := Row.timestamp (row data i);
     CorrPoint.spyVixCorr := calculateCorrelation spyPrices vixPrices;
     CorrPoint.spy := Row.spy (row data i);
     CorrPoint.vix := Row.vix (row data i) |}.

(** [window] defaults to 14 in the code. *)
Definition calculateRollingCorrelation (data : list Row.t) (window : nat)
  : list CorrPoint.t :=
  map (rollingPoint data window) (seq window (length data - window)).

(** The mean of a series. *)
Definition mean (arr : list R) : R := reduceSum arr / INR (length arr).

(** The sum of the products of the deviations of two series from [m1] and
    [m2]. *)
Fixpoint sumProducts (m1 m2 : R) (arr1 arr2 : list R) : R :=
  match arr1, arr2 with
  | x :: xs, y :: ys => (x - m1) * (y - m2) + sumProducts m1 m2 xs ys
  | _, _ => 0
  end.

(** The numerator of Pearson's formula. *)
Definition covariance (arr1 arr2 : list R) : R :=
  sumProducts (mean arr1) (mean arr2) arr1 arr2.

(** The sum of the squared deviations of a series from its mean: the series
    has zero variance when it vanishes. *)
Definition sumSquares (arr : list R) : R := covariance arr arr.

(** Pearson's [r]. *)
Definition pearson (arr1 arr2 : list R) : R :=
  covariance arr1 arr2 / sqrt (sumSquares arr1 * sumSquares arr2).

(** The rows at the indices [first], ..., [first + count - 1]. *)
Definition rowsFrom (data : list Row.t) (first count : nat) : list Row.t :=
  map (row data) (seq first count).

(** The trailing sub-series of [window] rows whose last row is the row at
    index [i]. *)
Definition spec_trailing (data : list Row.t) (window i : nat) : list Row.t :=
  rowsFrom data (i + 1 - window) window.

(** Three rows for examples: spy 1, 2, 1 against vix 1, 2, 2. *)
Definition threeRows : list Row.t :=
  [Row.mk 0 1 1; Row.mk 1 2 2; Row.mk 2 1 2].

End Correlation.

(** ** Indicator engine: [calculateSMA], [calculateEMA], [calculateMACD],
    [calculateStochastic] *)

Module MovingAverages.

Import Num.
Local Open Scope Q_scope.

(** The value of an expression that may divide by zero: a number, or one of
    [NaN], [Infinity] and [-Infinity]. *)
Inductive number : Type :=
| Finite (q : Q)
| NotFinite.

(** [arr.slice(-k)]: the last [k] elements, all of them when [k] is larger
    than the length, and all of them also for [k = 0], [-0] being [0]. *)
Definition lastN {A : Type} (k : nat) (arr : list A) : list A :=
  if (k =? 0)%nat then arr else skipn (length arr - k) arr.

(** [None] is [null]. *)
Definition calculateSMA (data : list Q) (period : nat) : option number :=
  match data with
  | [] => None
  | _ :: _ =>
      let actualPeriod := Nat.min period (length data) in
      let sum := Qsum (lastN actualPeriod data) in
      if (actualPeriod =? 0)%nat then Some NotFinite
      else Some (Finite (sum / inject_Z (Z.of_nat actualPeriod)))
  end.

(** The smoothing factor [2 / (period + 1)]. *)
Definition smoothing (period : nat) : Q := 2 / (inject_Z (Z.of_nat period) + 1).

(** One turn of the loop: [ema = data[i] * k + ema * (1 - k)]. *)
Definition emaStep (k : Q) (ema value : Q) : Q := value * k + ema * (1 - k).

(** [None] is [null]. *)
Definition calculateEMA (data : list Q) (period : nat) : option Q :=
  match data with
  | [] => None
  | first :: rest => Some (fold_left (emaStep (smoothing period)) rest first)
  end.

Record Macd : Type := mkMacd { macd : Q; signal : Q; histogram : Q }.

(** [!ema12 || !ema26] holds of [null] and of [0]. *)
Definition calculateMACD (data : list Q) : Macd :=
  match calculateEMA data 12, calculateEMA data 26 with
  | Some ema12, Some ema26 =>
      if Qeq_bool ema12 0 || Qeq_bool ema26 0 then mkMacd 0 0 0
      else
        let macd := ema12 - ema26 in
        let signal := macd * 0.15 in
        mkMacd macd signal (macd - signal)
  | _, _ => mkMacd 0 0 0
  end.

Record Stochastic : Type := mkStochastic { k : number; d : number }.

(** [Math.max(...arr)] and [Math.min(...arr)]; [None] is the infinity they
    give on an empty array. *)
Definition maxOf (arr : list Q) : option Q :=
  match arr with
  | [] => None
  | x :: xs => Some (Qmaxl x xs)
  end.

Definition minOf (arr : list Q) : option Q :=
  match arr with
  | [] => None
  | x :: xs => Some (Qminl x xs)
  end.

(** [((currentClose - lowestLow) / (highestHigh - lowestLow)) * 100].  The
    close is [undefined] on an empty array.  Without lows, or without a
    close, the quotient is [NaN]; without highs, the divisor is an infinity
    and the quotient a zero; with equal extremes the divisor is [0] and the
    quotient [NaN] or an infinity. *)
Definition percentK (currentClose highestHigh lowestLow : option Q) : number :=
  match currentClose, lowestLow, highestHigh with
  | Some c, Some ll, Some hh =>
      if Qeq_bool (hh - ll) 0 then NotFinite
      else Finite ((c - ll) / (hh - ll) * 100)
  | Some _, Some _, None => Finite 0
  | _, _, _ => NotFinite
  end.

(** [k * 0.3 + 50 * 0.7]. *)
Definition percentD (k : number) : number :=
  match k with
  | Finite q => Finite (q * 0.3 + 50 * 0.7)
  | NotFinite => NotFinite
  end.

Definition calculateStochastic (highs lows closes : list Q) (period : nat)
  : Stochastic :=
  if (length closes <? period)%nat then mkStochastic (Finite 50) (Finite 50)
  else
    let recentHighs := lastN period highs in
    let recentLows := lastN period lows in
    let currentClose := nth_error closes (length closes - 1) in
    let highestHigh := maxOf recentHighs in
    let lowestLow := minOf recentLows in
    let k := percentK currentClose highestHigh lowestLow in
    mkStochastic k (percentD k).

End MovingAverages.

(** ** Structure detector: [detectSwingPoints], [detectBreakOfStructure] *)

Module Candle.

(** A processed bar as the structure detector reads it. *)
Record t : Type := mk { timestamp : Q; close : Q }.

End Candle.

Module BreakEvent.

(** An element of [bos]. *)
Record t : Type := mk {
  index : nat;
  type : String.string;
  price : Q;
  level : Q;
  strength : Q
}.

End BreakEvent.

Module Structure.

Import Num MovingAverages Levels.
Local Open Scope Q_scope.
Local Open Scope string_scope.

(** [data[i]]; the default is never read, the loops keeping [i] and its
    neighbours inside the array. *)
Definition bar (data : list Candle.t) (i : nat) : Candle.t :=
  nth i data (Candle.mk 0 0).

Definition closeAt (data : list Candle.t) (i : nat) : Q := Candle.close (bar data i).

(** The two tests of the loop on the five closes around [i]. *)
Definition isSwingHigh (data : list Candle.t) (i : nat) : bool :=
  Qgtb (closeAt data i) (closeAt data (i - 2)) &&
  Qgtb (closeAt data i) (closeAt data (i - 1)) &&
  Qgtb (closeAt data i) (closeAt data (i + 1)) &&
  Qgtb (closeAt data i) (closeAt data (i + 2)).

Definition isSwingLow (data : list Candle.t) (i : nat) : bool :=
  Qltb (closeAt data i) (closeAt data (i - 2)) &&
  Qltb (closeAt data i) (closeAt data (i - 1)) &&
  Qltb (closeAt data i) (closeAt data (i + 1)) &&
  Qltb (closeAt data i) (closeAt data (i + 2)).

(** The closes of the window but the one at [i],
    [prices.filter((_, idx) => idx !== 2)], after the first of them. *)
Definition others (data : list Candle.t) (i : nat) : list Q :=
  [closeAt data (i - 1); closeAt data (i + 1); closeAt data (i + 2)].

(** The swing pushed for a high, and for a low, at [i].  The strength
    divides by the close at [i]; on a close of [0] JavaScript's quotient is
    not finite, and the properties that read a strength take the closes
    positive. *)
Definition swingHigh (data : list Candle.t) (i : nat) : Swing.t :=
  Swing.mk i (closeAt data i) (Candle.timestamp (bar data i))
    ((closeAt data i - Qminl (closeAt data (i - 2)) (others data i))
       / closeAt data i * 100).

Definition swingLow (data : list Candle.t) (i : nat) : Swing.t :=
  Swing.mk i (closeAt data i) (Candle.timestamp (bar data i))
    ((Qmaxl (closeAt data (i - 2)) (others data i) - closeAt data i)
       / closeAt data i * 100).

(** One turn of [for (let i = 2; i < data.length - 2; i++)] on the pair
    [(swings.highs, swings.lows)]. *)
Definition swingStep (data : list Candle.t) (acc : list Swing.t * list Swing.t)
  (i : nat) : list Swing.t * list Swing.t :=
  let (highs, lows) := acc in
  (if isSwingHigh data i then highs ++ [swingHigh data i] else highs,
   if isSwingLow data i then lows ++ [swingLow data i] else lows).

(** The trend from the last two highs and the last two lows; without two
    of each it stays neutral. *)
Definition classify (highs lows : list Swing.t) : String.string * Q :=
  match rev highs, rev lows with
  | lastHigh :: prevHigh :: _, lastLow :: prevLow :: _ =>
      let higherHighs := Qgtb (Swing.price lastHigh) (Swing.price prevHigh) in
      let higherLows := Qgtb (Swing.price lastLow) (Swing.price prevLow) in
      let lowerHighs := Qltb (Swing.price lastHigh) (Swing.price prevHigh) in
      let lowerLows := Qltb (Swing.price lastLow) (Swing.price prevLow) in
      if higherHighs && higherLows then ("uptrend", 0.8)
      else if lowerHighs && lowerLows then ("downtrend", 0.8)
      else ("ranging", 0.5)
  | _, _ => ("neutral", 0)
  end.

Definition detectSwingPoints (data : list Candle.t) : Swings :=
  if (length data <? 5)%nat then mkSwings [] [] ("neutral", 0)
  else
    let (highs, lows) :=
      fold_left (swingStep data) (seq 2 (length data - 4)) ([], []) in
    mkSwings highs lows (classify highs lows).

(** The object [detectBreakOfStructure] returns. *)
Record Breaks : Type := mkBreaks {
  bos : list BreakEvent.t;
  choch : list BreakEvent.t
}.

(** [swings.slice(-3).find(s => s.index < i)]. *)
Definition recent (swings : list Swing.t) (i : nat) : option Swing.t :=
  find (fun s => (Swing.index s <? i)%nat) (lastN 3 swings).

(** The two tests of the loop at the bar [i] and the events they push. *)
Definition bullishBreak (data : list Candle.t) (swings : Swings) (i : nat)
  : list BreakEvent.t :=
  let currentPrice := closeAt data i in
  let prevPrice := closeAt data (i - 1) in
  match recent (highs swings) i with
  | Some recentHigh =>
      if Qle_bool prevPrice (Swing.price recentHigh)
         && Qgtb currentPrice (Swing.price recentHigh)
      then [BreakEvent.mk i "bullish" currentPrice (Swing.price recentHigh)
              ((currentPrice - Swing.price recentHigh) / Swing.price recentHigh * 100)]
      else []
  | None => []
  end.

Definition bearishBreak (data : list Candle.t) (swings : Swings) (i : nat)
  : list BreakEvent.t :=
  let currentPrice := closeAt data i in
  let prevPrice := closeAt data (i - 1) in
  match recent (lows swings) i with
  | Some recentLow =>
      if Qgeb prevPrice (Swing.price recentLow)
         && Qltb currentPrice (Swing.price recentLow)
      then [BreakEvent.mk i "bearish" currentPrice (Swing.price recentLow)
              ((Swing.price recentLow - currentPrice) / Swing.price recentLow * 100)]
      else []
  | None => []
  end.

Definition detectBreakOfStructure (data : list Candle.t) (swings : Swings) : Breaks :=
  if (length (highs swings) <? 2)%nat || (length (lows swings) <? 2)%nat
  then mkBreaks [] []
  else
    mkBreaks
      (fold_left
         (fun bos i => bos ++ bullishBreak data swings i ++ bearishBreak data swings i)
         (seq 1 (length data - 1)) [])
      [].

(** Fifteen bars, numbered by their timestamps, with swing highs at the
    bars 2 and 8 and swing lows at the bars 5 and 11. *)
Definition risingBars : list Candle.t :=
  map (fun e => Candle.mk (inject_Z (Z.of_nat (fst e))) (snd e))
    (combine (seq 0 15) [3; 4; 7; 4; 3; 2; 3; 4; 9; 5; 4; 3; 4; 5; 6]).

(** The events of one bar. *)
Definition breaksAt (data : list Candle.t) (swings : Swings) (i : nat)
  : list BreakEvent.t :=
  bullishBreak data swings i ++ bearishBreak data swings i.

End Structure.

(** ** Volume profile: the value area *)

Module ValueArea.

Import Num VolumeProfile.
Local Open Scope Q_scope.

(** [[...profile].sort((a, b) => b.volume - a.volume)]. *)
Definition sortedByVolume (profile : list Node) : list Node :=
  sortBy (fun a b => Qle_bool (volume b) (volume a)) profile.

(** [totalVolume], as the function sums it. *)
Definition totalVolume (profile : list Node) : Q :=
  fold_left (fun sum p => sum + volume p) profile 0.

(** The list [valueArea] when the loop ends. *)
Definition valueArea (r : Profile) : list Node :=
  accumulateValueArea (sortedByVolume (profile r)) 0 (totalVolume (profile r) * 0.7).

(** The node that [reduce] keeps between the running maximum and the
    current node. *)
Definition pick (max curr : Node) : Node :=
  if Qgtb (volume curr) (volume max) then curr else max.

(** The first node of greatest volume of the list [x :: l]. *)
Fixpoint firstMax (x : Node) (l : list Node) : Node :=
  match l with
  | [] => x
  | y :: l' =>
      let m := firstMax y l' in
      if Qgtb (volume m) (volume x) then m else x
  end.

End ValueArea.

(** ** Options walls: totals of the chain *)

Module ChainTotals.

Import Num OptionsWalls.
Local Open Scope Q_scope.
Local Open Scope string_scope.

(** The three values the loop reads off a contract. *)
Definition optType (opt : Contract.t) : String.string :=
  toLowerCase (match Contract.type opt with
               | Some s => s
               | None => String.EmptyString
               end).

Definition openInterestOf (opt : Contract.t) : Q :=
  orElse (Contract.openInterest opt) (orElse (Contract.oi opt) 0).

Definition volumeOf (opt : Contract.t) : Q := orElse (Contract.volume opt) 0.

Definition isCall (opt : Contract.t) : bool := String.eqb (optType opt) "call".
Definition isPut (opt : Contract.t) : bool := String.eqb (optType opt) "put".

(** The open interest of the calls, and of the puts, of a chain. *)
Definition callOpenInterest (optionsData : list Contract.t) : Q :=
  Qsum (map openInterestOf (filter isCall optionsData)).

Definition putOpenInterest (optionsData : list Contract.t) : Q :=
  Qsum (map openInterestOf (filter isPut optionsData)).

(** What the loop over the contracts keeps true of [strikeData]: the keys
    are pairwise different and every entry carries its key as its strike. *)
Definition keyed (strikeData : JsObject StrikeData.t) : Prop :=
  distinctKeys (map fst strikeData) /\
  Forall (fun e => StrikeData.strike (snd e) = fst e) strikeData.

(** [strikeData] once the entry of the contract's strike is there. *)
Definition withStrike (strikeData : JsObject StrikeData.t) (strike : Q)
  : JsObject StrikeData.t :=
  match lookup strike strikeData with
  | Some _ => strikeData
  | None => strikeData ++ [(strike, emptyStrike strike)]
  end.

(** The walls ascend by strike. *)
Definition ascending (walls : list Wall.t) : Prop :=
  forall i a b,
    nth_error walls i = Some a -> nth_error walls (S i) = Some b ->
    Wall.strike a < Wall.strike b.

(** A chain of three contracts on two strikes, one of them of a type that
    is neither a call nor a put. *)
Definition smallChain : list Contract.t :=
  [Contract.mk 600 (Some "CALL") (Some 100) None (Some 10) (Some 0.02);
   Contract.mk 590 (Some "put") None (Some 300) (Some 20) (Some 0.01);
   Contract.mk 600 (Some "straddle") (Some 50) None None None].

End ChainTotals.

(** ** Dealer exposure: totals of the chain *)

Module DealerTotals.

Import Num Dealer.
Local Open Scope Q_scope.
Local Open Scope string_scope.

(** [strikeMap] once the entry of the option's strike is there. *)
Definition withStrike (strikeMap : JsObject StrikeGamma.t) (strike : Q)
  : JsObject StrikeGamma.t :=
  match lookup strike strikeMap with
  | Some _ => strikeMap
  | None => strikeMap ++ [(strike, emptyStrike strike)]
  end.

(** The dealer's notional of an option, [opt.oi * 100 * -1], and its share
    of the gamma and of the delta. *)
Definition notional (opt : DealerOption.t) : Q := DealerOption.oi opt * 100 * -1.

Definition gammaExposure (opt : DealerOption.t) : Q :=
  DealerOption.gamma opt * notional opt.


(** The gamma the loop has added to a strike, calls and puts together. *)
Definition strikeGamma (s : StrikeGamma.t) : Q :=
  StrikeGamma.callGamma s + StrikeGamma.putGamma s.


(** Neither bucket of the strike holds a positive gamma. *)
Definition noPositiveGamma (e : Q * StrikeGamma.t) : Prop :=
  StrikeGamma.callGamma (snd e) <= 0 /\ StrikeGamma.putGamma (snd e) <= 0.

(** The node that [reduce] keeps between the running maximum and the
    current strike. *)
Definition pick (max s : StrikeGamma.t) : StrikeGamma.t :=
  if Qgtb (Qabs (StrikeGamma.netGamma s)) (Qabs (StrikeGamma.netGamma max))
  then s else max.

(** A chain as a feed gives it: gammas and open interests that are not
    negative. *)
Definition ordinaryChain : list DealerOption.t :=
  [DealerOption.mk 600 "CALL" 100 0.02 0.5;
   DealerOption.mk 590 "PUT" 300 0.01 (-0.3);
   DealerOption.mk 600 "PUT" 0 0.02 (-0.5)].

End DealerTotals.

(** ** Prediction: what a rule can add *)

Module SentimentBounds.

Import Num Sentiment.
Local Open Scope Q_scope.
Local Open Scope string_scope.

(** From [s] to [s'] the bullish score grows by at most [cb], the bearish
    score by at most [cr], and at most one signal is pushed, of a weight of
    at most [cs]. *)
Definition within (cb cr cs : Q) (s s' : Score) : Prop :=
  (bull s <= bull s' /\ bull s' <= bull s + cb) /\
  (bear s <= bear s' /\ bear s' <= bear s + cr) /\
  bull s' + bear s' <= bull s + bear s + cs /\
  (length (pushed s) <= length (pushed s') <= S (length (pushed s)))%nat.

(** The factor of the one signal that needs the spot at or under the flip. *)
Definition belowFlip : String.string := "Dealer Short Gamma Below Flip".

(** From [s] to [s'] signals are only pushed at the end, and none of them
    is that one. *)
Definition pushesOthers (s s' : Score) : Prop :=
  exists ext, pushed s' = pushed s ++ ext /\
              Forall (fun sg => factor sg <> belowFlip) ext.

(** The two signals that the dealer rule can push otherwise. *)
Definition aboveFlipSignal : Signal :=
  mkSignal "Dealer Short Gamma Above Flip" "bullish" 2.

Definition longGammaSignal : Signal :=
  mkSignal "Dealer Long Gamma (Dampening)" "bearish" 1.

(** Volatility metrics that fire every rule they can for the bears. *)
Definition fearfulVol : VolMetrics :=
  mkVolMetrics 0.25 0.15 0.1 0.5 1 0.1 10.

End SentimentBounds.

(** ** Support and resistance: the order of the levels *)

Module LevelsOrder.

Import Num Levels.
Local Open Scope Q_scope.
Local Open Scope string_scope.

(** No level is stronger than a level listed before it. *)
Definition descending (levels : list Level.t) : Prop :=
  forall i j a b,
    (i < j)%nat -> nth_error levels i = Some a -> nth_error levels j = Some b ->
    Level.strength b <= Level.strength a.

(** The key by which ascending order is the order of the sort. *)
Definition weakness (l : Level.t) : Q := - Level.strength l.




(** Ten swing highs far from one another, of strengths 1 to 10. *)
Definition tenHighs : Swings :=
  mkSwings
    (map (fun k => Swing.mk k (inject_Z (Z.of_nat (100 * S k)))
                     0 (inject_Z (Z.of_nat (S k))))
       (seq 0 10))
    [] ("uptrend", 1).

End LevelsOrder.

(** ** The component's pipeline: [processedData], [currentMomentum],
    [correlationData] and [generateMockPriceData] *)

Module PricePoint.

(** An element of the [priceData] property.  Every field may be absent;
    [fullDate] is the [getTime()] of the date object when there is one. *)
Record t : Type := mk {
  close : option Q;
  spy : option Q;
  high : option Q;
  low : option Q;
  volume : option Q;
  vix : option Q;
  timestamp : option Z;
  fullDate : option Z;
  date : option String.string
}.

End PricePoint.

Module IndicatorValues.

(** The indicator fields of a processed bar. *)
Record t : Type := mk {
  sma20 : option MovingAverages.number;
  sma50 : option MovingAverages.number;
  ema12 : option Q;
  ema26 : option Q;
  rsi : Q;
  macd : Q;
  macdSignal : Q;
  macdHistogram : Q;
  stochK : MovingAverages.number;
  stochD : MovingAverages.number
}.

End IndicatorValues.

Module ProcessedPoint.

(** An element of [processedData].  The bars of the mock generator carry no
    indicator field: [indicators = None]. *)
Record t : Type := mk {
  close : Q;
  high : Q;
  low : Q;
  timestamp : Z;
  fullDate : option Z;
  date : String.string;
  indicators : option IndicatorValues.t;
  volume : Q;
  spy : Q;
  vix : Q
}.

End ProcessedPoint.

Module Momentum.

(** [latest.stochK || 50]: a number, or, when [stochK] is not a finite
    number, 50 (from [NaN]) or an infinity. *)
Inductive reading : Type :=
| Reading (q : Q)
| FiftyOrInfinity.

(** What [currentMomentum] holds when it is not [null]. *)
Record t : Type := mk {
  signal : String.string;
  strength : Q;
  rsi : Q;
  macd : Q;
  trend : String.string;
  stochastic : reading
}.

End Momentum.

Module MarketStructure.

Import Num Levels.
Local Open Scope Q_scope.
Local Open Scope string_scope.

(** [x || d] on a possibly-absent integer and on a possibly-absent string:
    [0] and the empty string are falsy. *)
Definition orElseZ (x : option Z) (d : Z) : Z :=
  match x with
  | Some z => if (z =? 0)%Z then d else z
  | None => d
  end.

Definition orElseString (x : option String.string) (d : String.string)
  : String.string :=
  match x with
  | Some s => if String.eqb s String.EmptyString then d else s
  | None => d
  end.

(** How an evaluation ends: with a value, or with an exception that ends
    the render. *)
Inductive completion (A : Type) : Type :=
| Returns (value : A)
| Throws (error : String.string).

Arguments Returns {A} value.
Arguments Throws {A} error.

Definition bind {A B : Type} (c : completion A) (f : A -> completion B)
  : completion B :=
  match c with
  | Returns value => f value
  | Throws error => Throws error
  end.

(** A [const] of the component's body as a read finds it: in its temporal
    dead zone until its declaration has been evaluated, where a read throws
    a ReferenceError. *)
Inductive binding (A : Type) : Type :=
| TemporalDeadZone
| Initialised (value : A).

Arguments TemporalDeadZone {A}.
Arguments Initialised {A} value.

Definition read {A : Type} (b : binding A) : completion A :=
  match b with
  | TemporalDeadZone => Throws "ReferenceError"
  | Initialised value => Returns value
  end.

(** The point has no truthy [timestamp] and no truthy [fullDate.getTime()],
    so that [Date.now()] is read for it; and no truthy [date], so that the
    date of today is read for it. *)
Definition readsClock (p : PricePoint.t) : bool :=
  (orElseZ (PricePoint.timestamp p) (orElseZ (PricePoint.fullDate p) 0) =? 0)%Z.

Definition readsDate (p : PricePoint.t) : bool :=
  String.eqb (orElseString (PricePoint.date p) String.EmptyString) String.EmptyString.

Section Component.

(** The properties [currentPrice] and [vixPrice] of the component. *)
Variable currentPrice : option Q.
Variable vixPrice : option Q.

(** The clock: [Date_now i] is what [Date.now()] gives when it is read for
    the element [i] (the mock generator reads it once, as [Date_now 0]), and
    [today i] what [new Date().toLocaleDateString()] gives there. *)
Variable Date_now : nat -> Z.
Variable today : nat -> String.string.

(** [new Date(t).toLocaleDateString()]. *)
Variable toLocaleDateString : Z -> String.string.

(** The pseudo-random source: [Math_random n] is what the [n]-th call of
    [Math.random()] returns in this run. *)
Variable Math_random : nat -> Q.

(** [p.close || p.spy || currentPrice || 595] and its neighbours. *)
Definition closeOf (p : PricePoint.t) : Q :=
  orElse (PricePoint.close p) (orElse (PricePoint.spy p) (orElse currentPrice 595)).

Definition highOf (p : PricePoint.t) : Q := orElse (PricePoint.high p) (closeOf p).

Definition lowOf (p : PricePoint.t) : Q := orElse (PricePoint.low p) (closeOf p).

(** [priceData.slice(Math.max(0, index - 50), index + 1)]. *)
Definition window (priceData : list PricePoint.t) (index : nat) : list PricePoint.t :=
  Correlation.slice (Nat.max 0 (index - 50)) (index + 1) priceData.

(** The callback of [priceData.map]. *)
Definition processPoint (priceData : list PricePoint.t) (index : nat)
  (point : PricePoint.t) : ProcessedPoint.t :=
  let closePrice := closeOf point in
  let highPrice := orElse (PricePoint.high point) closePrice in
  let lowPrice := orElse (PricePoint.low point) closePrice in
  let prices := map closeOf (window priceData index) in
  let highs := map highOf (window priceData index) in
  let lows := map lowOf (window priceData index) in
  let macd := MovingAverages.calculateMACD prices in
  let stoch := MovingAverages.calculateStochastic highs lows prices 14 in
  {| ProcessedPoint.close := closePrice;
     ProcessedPoint.high := highPrice;
     ProcessedPoint.low := lowPrice;
     ProcessedPoint.timestamp :=
       orElseZ (PricePoint.timestamp point)
         (orElseZ (PricePoint.fullDate point) (Date_now index));
     ProcessedPoint.fullDate := PricePoint.fullDate point;
     ProcessedPoint.date := orElseString (PricePoint.date point) (today index);
     ProcessedPoint.indicators :=
       Some {| IndicatorValues.sma20 := MovingAverages.calculateSMA prices 20;
               IndicatorValues.sma50 := MovingAverages.calculateSMA prices 50;
               IndicatorValues.ema12 := MovingAverages.calculateEMA prices 12;
               IndicatorValues.ema26 := MovingAverages.calculateEMA prices 26;
               IndicatorValues.rsi := Indicators.calculateRSI prices 14;
               IndicatorValues.macd := MovingAverages.macd macd;
               IndicatorValues.macdSignal := MovingAverages.signal macd;
               IndicatorValues.macdHistogram := MovingAverages.histogram macd;
               IndicatorValues.stochK := MovingAverages.k stoch;
               IndicatorValues.stochD := MovingAverages.d stoch |};
     ProcessedPoint.volume := orElse (PricePoint.volume point) 50000000;
     ProcessedPoint.spy := orElse (PricePoint.spy point) closePrice;
     ProcessedPoint.vix := orElse (PricePoint.vix point) (orElse vixPrice 14) |}.

(** One turn of [for (let i = 0; i < 100; i++)] of the mock generator on
    [(price, data, n)]; [n] counts the calls of [Math.random()] made so
    far. *)
Definition mockStep (basePrice : Q) (now : Z) (acc : Q * list ProcessedPoint.t * nat)
  (i : nat) : Q * list ProcessedPoint.t * nat :=
  let '(price, data, n) := acc in
  let change := (Math_random n - 0.48) * 3 in
  let price := price + change in
  let t := (now - (100 - Z.of_nat i) * 86400000)%Z in
  (price,
   data ++
   [{| ProcessedPoint.close := price;
       ProcessedPoint.high := price + Math_random (n + 1)%nat * 2;
       ProcessedPoint.low := price - Math_random (n + 2)%nat * 2;
       ProcessedPoint.timestamp := t;
       ProcessedPoint.fullDate := None;
       ProcessedPoint.date := toLocaleDateString t;
       ProcessedPoint.indicators := None;
       ProcessedPoint.volume := 50000000 + Math_random (n + 3)%nat * 30000000;
       ProcessedPoint.spy := price;
       ProcessedPoint.vix :=
         14 + Math_random (n + 4)%nat * 8
         + (if Qltb price basePrice then 2 else -1) |}],
   (n + 5)%nat).

Definition generateMockPriceData : list ProcessedPoint.t :=
  let basePrice := orElse currentPrice 595 in
  let price := basePrice * 0.95 in
  let now := Date_now 0%nat in
  snd (fst (fold_left (mockStep basePrice now) (seq 0 100) (price, [], 0%nat))).

(** The binding [generateMockPriceData] as the callback of [useMemo] that
    computes [processedData] finds it.  The callback runs during the render,
    at line 525 of the component's body, and the [const] that declares the
    generator stands at line 668 of the same body: its declaration has not
    been evaluated yet. *)
Definition generateMockPriceData_binding
  : binding (unit -> list ProcessedPoint.t) := TemporalDeadZone.

(** [priceData] that is [null] or [undefined] is the empty list here. *)
Definition processedData (priceData : list PricePoint.t)
  : completion (list ProcessedPoint.t) :=
  match priceData with
  | [] =>
      bind (read generateMockPriceData_binding)
        (fun generateMockPriceData => Returns (generateMockPriceData tt))
  | _ :: _ =>
      Returns
        (map (fun e => processPoint priceData (fst e) (snd e))
           (combine (seq 0 (length priceData)) priceData))
  end.

(** The bar as the structure detector reads it. *)
Definition toCandle (d : ProcessedPoint.t) : Candle.t :=
  Candle.mk (inject_Z (ProcessedPoint.timestamp d)) (ProcessedPoint.close d).

Definition swingAnalysis (processedData : list ProcessedPoint.t) : Swings :=
  Structure.detectSwingPoints (map toCandle processedData).

(** [latest.stochK || 50]. *)
Definition orFifty (stochK : MovingAverages.number) : Momentum.reading :=
  match stochK with
  | MovingAverages.Finite q => Momentum.Reading (orElse (Some q) 50)
  | MovingAverages.NotFinite => Momentum.FiftyOrInfinity
  end.

(** The chain of tests that sets [signal] and [strength]. *)
Definition momentumSignal (rsi macdHist : Q) (trend : String.string)
  : String.string * Q :=
  if Qgtb rsi 70 && Qltb macdHist 0 then ("BEARISH", 0.7)
  else if Qltb rsi 30 && Qgtb macdHist 0 then ("BULLISH", 0.7)
  else if String.eqb trend "uptrend" && Qgtb rsi 50 then ("BULLISH", 0.5)
  else if String.eqb trend "downtrend" && Qltb rsi 50 then ("BEARISH", 0.5)
  else ("NEUTRAL", 0).

(** [None] is [null]: no bar, or a latest bar whose [rsi] and
    [macdHistogram] are not numbers. *)
Definition currentMomentum (processedData : list ProcessedPoint.t)
  (swingAnalysis : Swings) : option Momentum.t :=
  match nth_error processedData (length processedData - 1) with
  | None => None
  | Some latest =>
      match ProcessedPoint.indicators latest with
      | None => None
      | Some ind =>
          let rsi := IndicatorValues.rsi ind in
          let macdHist := IndicatorValues.macdHistogram ind in
          let trend := fst (current swingAnalysis) in
          let (signal, strength) := momentumSignal rsi macdHist trend in
          Some {| Momentum.signal := signal;
                  Momentum.strength := strength;
                  Momentum.rsi := rsi;
                  Momentum.macd := orElse (Some (IndicatorValues.macd ind)) 0;
                  Momentum.trend := trend;
                  Momentum.stochastic := orFifty (IndicatorValues.stochK ind) |}
      end
  end.

(** The filter of [correlationData]: [d && (d.timestamp || d.fullDate) &&
    (d.vix || vixPrice)]. *)
Definition isValid (d : ProcessedPoint.t) : bool :=
  (negb (ProcessedPoint.timestamp d =? 0)%Z
   || match ProcessedPoint.fullDate d with Some _ => true | None => false end)
  && (negb (Qeq_bool (ProcessedPoint.vix d) 0)
      || negb (Qeq_bool (orElse vixPrice 0) 0)).

(** The row handed to the rolling correlation for the valid bar at the
    position [i]. *)
Definition toRow (i : nat) (d : ProcessedPoint.t) : Row.t :=
  Row.mk
    (orElseZ (Some (ProcessedPoint.timestamp d))
       (orElseZ (ProcessedPoint.fullDate d) (Date_now i)))
    (Q2R (orElse (Some (ProcessedPoint.close d))
            (orElse (Some (ProcessedPoint.spy d)) (orElse currentPrice 595))))
    (Q2R (orElse (Some (ProcessedPoint.vix d)) (orElse vixPrice 14))).

Definition correlationData (processedData : list ProcessedPoint.t)
  : list CorrPoint.t :=
  match processedData with
  | [] => []
  | _ :: _ =>
      let validData := filter isValid processedData in
      if (length validData <? 15)%nat then []
      else
        Correlation.calculateRollingCorrelation
          (map (fun e => toRow (fst e) (snd e))
             (combine (seq 0 (length validData)) validData))
          14
  end.

(** What the render computes from [priceData], in the order of the
    component's body: an exception of [processedData] ends the render before
    the values that are computed from it. *)
Definition renderedMomentum (priceData : list PricePoint.t)
  : completion (option Momentum.t) :=
  bind (processedData priceData)
    (fun data => Returns (currentMomentum data (swingAnalysis data))).

Definition renderedCorrelation (priceData : list PricePoint.t)
  : completion (list CorrPoint.t) :=
  bind (processedData priceData) (fun data => Returns (correlationData data)).

End Component.

(** A bar that gives its close alone, and a series of such bars. *)
Definition closeOnly (c : Q) : PricePoint.t :=
  PricePoint.mk (Some c) None None None None None None None None.

Definition closesOnly (closes : list Q) : list PricePoint.t := map closeOnly closes.

(** A clock for examples: the bar [i] is read at the millisecond [i + 1]. *)
Definition tickingClock : nat -> Z := fun i => Z.of_nat (S i).

Definition noDate : nat -> String.string := fun _ => "1/1/2024".

Definition anyDate : Z -> String.string := fun _ => "1/1/2024".

(** Every draw lies in [[0, 1)], as [Math.random()] promises. *)
Definition unitDraws (Math_random : nat -> Q) : Prop :=
  forall n, 0 <= Math_random n /\ Math_random n < 1.

(** What every bar of the mock generator satisfies, [now] being the time
    the generator read. *)
Definition mockBar (now : Z) (d : ProcessedPoint.t) : Prop :=
  ProcessedPoint.low d <= ProcessedPoint.close d /\
  ProcessedPoint.close d <= ProcessedPoint.high d /\
  50000000 <= ProcessedPoint.volume d /\ ProcessedPoint.volume d <= 80000000 /\
  13 <= ProcessedPoint.vix d /\ ProcessedPoint.vix d <= 24 /\
  ProcessedPoint.spy d = ProcessedPoint.close d /\
  (ProcessedPoint.timestamp d < now)%Z /\
  ProcessedPoint.fullDate d = None /\
  ProcessedPoint.indicators d = None.

(** Each close of [closes] is the close before it (the first one, [start])
    plus [(draw - 0.48) * 3], the draws being those of the calls [n], [n + 5],
    [n + 10], ... of [Math.random()]. *)
Fixpoint randomWalk (Math_random : nat -> Q) (start : Q) (n : nat)
  (closes : list Q) : Prop :=
  match closes with
  | [] => True
  | c :: rest =>
      c == start + (Math_random n - 0.48) * 3 /\
      randomWalk Math_random c (n + 5) rest
  end.

(** Sixteen closes for examples. *)
Definition sixteenCloses : list Q :=
  [100; 101; 102; 101; 100; 99; 100; 101; 102; 103; 102; 101; 100; 101; 102; 103].

End MarketStructure.

(** ** Black-Scholes Greeks: [normalCDF], [normalPDF] and [calculateGreeks]

    [Math.exp], [Math.log], [Math.sqrt] and [Math.PI] are the real
    exponential, logarithm, square root and pi.  [Math.log] of a number that
    is not positive is not a finite number: the properties take the spot and
    the strike positive. *)

Module Greeks.

Local Open Scope R_scope.

(** The polynomial in [t] of the approximation. *)
Definition tail (t : R) : R :=
  0.3193815 + t * (-0.3565638 + t * (1.781478 + t * (-1.821256 + t * 1.330274))).

Definition normalCDF (x : R) : R :=
  let t := 1 / (1 + 0.2316419 * Rabs x) in
  let d := 0.3989423 * exp (- x * x / 2) in
  let p := d * t * tail t in
  if Rlt_dec 0 x then 1 - p else p.

Definition normalPDF (x : R) : R := exp (-0.5 * x * x) / sqrt (2 * PI).

(** The returned object. *)
Record t : Type := mk { delta : R; gamma : R; vega : R; theta : R }.

(** [d1] and [d2]. *)
Definition d1 (S K T r sigma : R) : R :=
  (ln (S / K) + (r + 0.5 * sigma * sigma) * T) / (sigma * sqrt T).

Definition d2 (S K T r sigma : R) : R := d1 S K T r sigma - sigma * sqrt T.

Definition calculateGreeks (S K T r sigma : R) (isCall : bool) : t :=
  if Rle_dec T 0 then mk 0 0 0 0
  else if Req_dec_T S 0 then mk 0 0 0 0
  else if Req_dec_T sigma 0 then mk 0 0 0 0
  else
    let d1 := d1 S K T r sigma in
    let d2 := d2 S K T r sigma in
    let delta := if isCall then normalCDF d1 else normalCDF d1 - 1 in
    let gamma := normalPDF d1 / (S * sigma * sqrt T) in
    let vega := S * normalPDF d1 * sqrt T / 100 in
    let theta :=
      if isCall
      then (- S * normalPDF d1 * sigma / (2 * sqrt T)
            - r * K * exp (- r * T) * normalCDF d2) / 365
      else (- S * normalPDF d1 * sigma / (2 * sqrt T)
            + r * K * exp (- r * T) * normalCDF (- d2)) / 365 in
    mk delta gamma vega theta.

End Greeks.

(** * Properties *)

Module NumFacts.

Import Num.
Local Open Scope Q_scope.

Lemma Qltb_lt (a b : Q) : Qltb a b = true <-> a < b.
Proof.
  unfold Qltb. rewrite negb_true_iff. split; intro H.
  - apply Qnot_le_lt. intro Hle. apply Qle_bool_iff in Hle. congruence.
  - destruct (Qle_bool b a) eqn:E; [|reflexivity].
    apply Qle_bool_iff in E. exfalso. apply (Qlt_not_le _ _ H E).
Qed.

Lemma Qltb_ge (a b : Q) : Qltb a b = false <-> b <= a.
Proof.
  unfold Qltb. rewrite negb_false_iff. apply Qle_bool_iff.
Qed.

Lemma Qeq_bool_false (a b : Q) : Qeq_bool a b = false <-> ~ a == b.
Proof.
  split; intro H.
  - intro E. apply Qeq_bool_iff in E. congruence.
  - destruct (Qeq_bool a b) eqn:E; [|reflexivity].
    apply Qeq_bool_iff in E. contradiction.
Qed.

#[global] Instance Qltb_comp : Proper (Qeq ==> Qeq ==> eq) Qltb.
Proof. intros a b H c d H'. unfold Qltb. now rewrite H, H'. Qed.

Lemma Qminl_le_head (l : list Q) (x : Q) : Qminl x l <= x.
Proof.
  unfold Qminl. revert x. induction l as [|y l IH]; intro x; simpl.
  - apply Qle_refl.
  - eapply Qle_trans; [apply IH|]. apply Q.le_min_l.
Qed.

Lemma Qminl_le (l : list Q) (x y : Q) : In y l -> Qminl x l <= y.
Proof.
  unfold Qminl. revert x.
  induction l as [|z l IH]; intros x H; [destruct H|]; destruct H as [E|H]; simpl.
  - subst z. eapply Qle_trans; [apply (Qminl_le_head l)|]. apply Q.le_min_r.
  - now apply IH.
Qed.

Lemma Qmaxl_ge_head (l : list Q) (x : Q) : x <= Qmaxl x l.
Proof.
  unfold Qmaxl. revert x. induction l as [|y l IH]; intro x; simpl.
  - apply Qle_refl.
  - eapply Qle_trans; [|apply IH]. apply Q.le_max_l.
Qed.

Lemma Qmaxl_ge (l : list Q) (x y : Q) : In y l -> y <= Qmaxl x l.
Proof.
  unfold Qmaxl. revert x.
  induction l as [|z l IH]; intros x H; [destruct H|]; destruct H as [E|H]; simpl.
  - subst z. eapply Qle_trans; [|apply (Qmaxl_ge_head l)]. apply Q.le_max_r.
  - now apply IH.
Qed.


Lemma Qgtb_gt (a b : Q) : Qgtb a b = true <-> b < a.
Proof. apply Qltb_lt. Qed.

Lemma Qgtb_le (a b : Q) : Qgtb a b = false <-> a <= b.
Proof. apply Qltb_ge. Qed.

Lemma Qgeb_ge (a b : Q) : Qgeb a b = true <-> b <= a.
Proof. apply Qle_bool_iff. Qed.

Lemma Qgeb_lt (a b : Q) : Qgeb a b = false <-> a < b.
Proof.
  unfold Qgeb. split; intro H.
  - apply Qnot_le_lt. intro Hle. apply Qle_bool_iff in Hle. congruence.
  - destruct (Qle_bool b a) eqn:E; [|reflexivity].
    apply Qle_bool_iff in E. exfalso. apply (Qlt_not_le _ _ H E).
Qed.

(** [Qsum] from any start. *)
Lemma fold_Qplus_start (l : list Q) (a : Q) :
  fold_left Qplus l a == a + fold_left Qplus l 0.
Proof.
  revert a. induction l as [|x l IH]; intro a; simpl.
  - lra.
  - rewrite (IH (a + x)), (IH (0 + x)). lra.
Qed.

Lemma Qsum_cons (x : Q) (l : list Q) : Qsum (x :: l) == x + Qsum l.
Proof. unfold Qsum. simpl. rewrite fold_Qplus_start. lra. Qed.

Lemma Qsum_app (l l' : list Q) : Qsum (l ++ l') == Qsum l + Qsum l'.
Proof.
  induction l as [|x l IH]; simpl.
  - unfold Qsum at 2. simpl. lra.
  - rewrite !Qsum_cons, IH. lra.
Qed.

End NumFacts.

(** ** RSI *)

Module IndicatorsFacts.

Import Num NumFacts Indicators.
Local Open Scope Q_scope.

(** Gains and losses never become negative. *)
Lemma rsiStep_nonneg (data : list Q) (acc : Q * Q) (i : nat) :
  0 <= fst acc -> 0 <= snd acc ->
  0 <= fst (rsiStep data acc i) /\ 0 <= snd (rsiStep data acc i).
Proof.
  destruct acc as [g l]. simpl. intros Hg Hl.
  destruct (Qgtb _ 0) eqn:E; simpl.
  - apply Qgtb_gt in E. split; lra.
  - apply Qgtb_le in E. split; lra.
Qed.

Lemma rsiSums_nonneg (data : list Q) (period : nat) :
  0 <= fst (rsiSums data period) /\ 0 <= snd (rsiSums data period).
Proof.
  unfold rsiSums.
  assert (H : forall l acc, 0 <= fst acc -> 0 <= snd acc ->
            0 <= fst (fold_left (rsiStep data) l acc) /\
            0 <= snd (fold_left (rsiStep data) l acc)).
  { induction l as [|i l IH]; intros acc Hg Hl; simpl.
    - now split.
    - destruct (rsiStep_nonneg data acc i Hg Hl). now apply IH. }
  apply H; simpl; lra.
Qed.

Lemma calculateRSI_long (data : list Q) (period : nat) :
  (period + 1 <= length data)%nat ->
  calculateRSI data period =
  rsiValue (fst (rsiSums data period)) (snd (rsiSums data period))
    (inject_Z (Z.of_nat period)).
Proof.
  intro H. unfold calculateRSI, rsiValue.
  destruct (Nat.ltb_spec (length data) (period + 1)); [lia|].
  now destruct (rsiSums data period).
Qed.

Lemma calculateRSI_short (data : list Q) (period : nat) :
  (length data < period + 1)%nat -> calculateRSI data period = 50.
Proof.
  intro H. unfold calculateRSI.
  destruct (Nat.ltb_spec (length data) (period + 1)); [reflexivity|lia].
Qed.

Lemma avgLoss_zero (l p : Q) : 0 < p -> (l / p == 0 <-> l == 0).
Proof.
  intro Hp. split; intro H.
  - assert (E : l == l / p * p) by (field; lra). rewrite E, H. lra.
  - rewrite H. field. lra.
Qed.

Lemma rsiValue_no_loss (g l p : Q) : 0 < p -> l == 0 -> rsiValue g l p = 100.
Proof.
  intros Hp H. unfold rsiValue.
  destruct (Qeq_bool (l / p) 0) eqn:E; [reflexivity|].
  apply Qeq_bool_false in E. exfalso. apply E. now apply avgLoss_zero.
Qed.

Lemma rsiValue_loss (g l p : Q) :
  0 <= g -> 0 <= l -> 0 < p -> ~ l == 0 ->
  rsiValue g l p == 100 - 100 * l / (l + g).
Proof.
  intros Hg Hl Hp H. unfold rsiValue.
  destruct (Qeq_bool (l / p) 0) eqn:E.
  - apply Qeq_bool_iff, avgLoss_zero in E; [contradiction|exact Hp].
  - field. repeat split; lra.
Qed.

Lemma loss_share (g l : Q) :
  0 <= g -> 0 <= l -> ~ l == 0 -> 0 < 100 * l / (l + g) <= 100.
Proof.
  intros Hg Hl H. assert (0 < l) by lra. split.
  - apply Qlt_shift_div_l; lra.
  - apply Qle_shift_div_r; lra.
Qed.

Lemma rsiValue_range (g l p : Q) :
  0 <= g -> 0 <= l -> 0 < p -> 0 <= rsiValue g l p <= 100.
Proof.
  intros Hg Hl Hp. destruct (Qeq_dec l 0) as [E|E].
  - rewrite (rsiValue_no_loss g l p Hp E). split; lra.
  - rewrite (rsiValue_loss g l p Hg Hl Hp E). pose proof (loss_share g l Hg Hl E). lra.
Qed.

Lemma rsiValue_100 (g l p : Q) :
  0 <= g -> 0 <= l -> 0 < p -> (rsiValue g l p == 100 <-> l == 0).
Proof.
  intros Hg Hl Hp. split; intro H.
  - destruct (Qeq_dec l 0) as [E|E]; [exact E|].
    rewrite (rsiValue_loss g l p Hg Hl Hp E) in H. pose proof (loss_share g l Hg Hl E). lra.
  - now rewrite rsiValue_no_loss.
Qed.

Lemma rsiValue_50 (g l p : Q) :
  0 <= g -> 0 <= l -> 0 < p ->
  (rsiValue g l p == 50 <-> g == l /\ ~ l == 0).
Proof.
  intros Hg Hl Hp. split.
  - intro H. destruct (Qeq_dec l 0) as [E|E].
    + rewrite (rsiValue_no_loss g l p Hp E) in H. lra.
    + split; [|exact E]. rewrite (rsiValue_loss g l p Hg Hl Hp E) in H.
      assert (Hx : 100 * l / (l + g) * (l + g) == 100 * l) by (field; lra).
      assert (Hy : 100 * l / (l + g) == 50) by lra.
      rewrite Hy in Hx. lra.
  - intros [Hgl E]. rewrite (rsiValue_loss g l p Hg Hl Hp E), Hgl. field. lra.
Qed.

Lemma period_positive (period : nat) :
  (0 < period)%nat -> 0 < inject_Z (Z.of_nat period).
Proof.
  intro H. change 0 with (inject_Z 0). rewrite <- Zlt_Qlt. lia.
Qed.

(** The full account of the function for any positive period. *)
Lemma calculateRSI_spec (data : list Q) (period : nat) :
  (0 < period)%nat ->
  let gains := fst (rsiSums data period) in
  let losses := snd (rsiSums data period) in
  0 <= calculateRSI data period <= 100 /\
  ((length data < period + 1)%nat -> calculateRSI data period == 50) /\
  (calculateRSI data period == 50 <->
     (length data < period + 1)%nat \/ (gains == losses /\ ~ losses == 0)) /\
  (calculateRSI data period == 100 <->
     (period + 1 <= length data)%nat /\ losses == 0).
Proof.
  intros Hp gains losses.
  pose proof (period_positive period Hp) as Hq.
  destruct (rsiSums_nonneg data period) as [Hg Hl].
  fold gains in Hg. fold losses in Hl.
  destruct (Nat.lt_ge_cases (length data) (period + 1)) as [Hs|Hs].
  - rewrite (calculateRSI_short _ _ Hs).
    split; [split; lra|]. split; [reflexivity|]. split.
    + split; [intros _; now left|intros _; reflexivity].
    + split; [intro H; exfalso; revert H; unfold Qeq; simpl; lia|].
      intros [H _]. lia.
  - rewrite (calculateRSI_long _ _ Hs). fold gains losses.
    split; [exact (rsiValue_range _ _ _ Hg Hl Hq)|]. split; [intro; lia|]. split.
    + rewrite (rsiValue_50 _ _ _ Hg Hl Hq).
      split; [intro H; now right|intros [H|H]; [lia|exact H]].
    + rewrite (rsiValue_100 _ _ _ Hg Hl Hq).
      split; [intro H; split; [lia|exact H]|intros [_ H]; exact H].
Qed.

(** C2 (as the code has it): for every price series, RSI with the default
    period 14 lies in [0, 100]; a series of fewer than 15 points gives
    exactly 50; the value is 50 exactly when the series is that short or the
    gains summed over the last 14 deltas equal the non-zero summed losses;
    and the value is 100 exactly when the series has at least 15 points and
    the losses summed over the last 14 deltas are 0. *)
Theorem rsi_range_neutral_and_saturation (data : list Q) :
  let gains := fst (rsiSums data defaultPeriod) in
  let losses := snd (rsiSums data defaultPeriod) in
  0 <= calculateRSI data defaultPeriod <= 100 /\
  ((length data < defaultPeriod + 1)%nat ->
     calculateRSI data defaultPeriod == 50) /\
  (calculateRSI data defaultPeriod == 50 <->
     (length data < defaultPeriod + 1)%nat \/ (gains == losses /\ ~ losses == 0)) /\
  (calculateRSI data defaultPeriod == 100 <->
     (defaultPeriod + 1 <= length data)%nat /\ losses == 0).
Proof.
  apply calculateRSI_spec. unfold defaultPeriod. lia.
Qed.

(** C2 (as stated) fails: on fifteen closes that rise and fall by one in
    turn the gains and the losses are both 7, so that RSI is exactly 50 on a
    series that does not have fewer than period + 1 points. *)
Lemma rsi_fifty_on_a_long_series :
  ~ (calculateRSI alternating defaultPeriod == 50 <->
     (length alternating < defaultPeriod + 1)%nat).
Proof.
  intros [H _].
  assert (E : calculateRSI alternating defaultPeriod == 50) by reflexivity.
  apply H in E. vm_compute in E. lia.
Qed.

End IndicatorsFacts.

(** ** Max pain *)

Module OptionsWallsFacts.

Import Num NumFacts OptionsWalls.
Local Open Scope Q_scope.

(** The loop of the code adds up the two sums of the specification. *)
Lemma fold_painStep (c : Q) (walls : list Wall.t) (a : Q) :
  fold_left (painStep c) walls a ==
  a + Qsum (map (fun w => Wall.callOI w * (c - Wall.strike w))
              (filter (fun w => Qltb (Wall.strike w) c) walls))
    + Qsum (map (fun w => Wall.putOI w * (Wall.strike w - c))
              (filter (fun w => Qltb c (Wall.strike w)) walls)).
Proof.
  revert a. induction walls as [|w walls IH]; intro a; simpl.
  - unfold Qsum. simpl. lra.
  - rewrite IH. unfold painStep, Qgtb.
    destruct (Qltb (Wall.strike w) c) eqn:E1;
      destruct (Qltb c (Wall.strike w)) eqn:E2; simpl;
      rewrite ?Qsum_cons; lra.
Qed.

Lemma totalPainAt_spec (walls : list Wall.t) (c : Q) :
  totalPainAt walls c == spec_totalPain walls c.
Proof.
  unfold totalPainAt, spec_totalPain. rewrite fold_painStep. lra.
Qed.

Lemma maxPainStep_best (walls seen : list Wall.t) (acc : option Q * option Q)
  (wall : Wall.t) :
  best_so_far walls seen acc ->
  best_so_far walls (seen ++ [wall]) (maxPainStep walls acc wall).
Proof.
  destruct acc as [[c|] [m|]]; simpl; try contradiction.
  - intros (Hm & Hin & Hmin). unfold maxPainStep. simpl.
    destruct (Qltb (totalPainAt walls (Wall.strike wall)) m) eqn:E; simpl.
    + apply Qltb_lt in E. split; [reflexivity|]. split.
      * rewrite map_app, in_app_iff. right. now left.
      * intros w Hw. apply in_app_iff in Hw. destruct Hw as [Hw|[<-|[]]].
        -- specialize (Hmin w Hw). lra.
        -- lra.
    + apply Qltb_ge in E. split; [exact Hm|]. split.
      * rewrite map_app, in_app_iff. now left.
      * intros w Hw. apply in_app_iff in Hw. destruct Hw as [Hw|[<-|[]]].
        -- now apply Hmin.
        -- exact E.
  - intros ->. unfold maxPainStep. simpl. split; [reflexivity|]. split.
    + now left.
    + intros w [<-|[]]. lra.
Qed.

Lemma fold_maxPainStep_best (walls todo seen : list Wall.t)
  (acc : option Q * option Q) :
  best_so_far walls seen acc ->
  best_so_far walls (seen ++ todo) (fold_left (maxPainStep walls) todo acc).
Proof.
  revert seen acc. induction todo as [|w todo IH]; intros seen acc H; simpl.
  - now rewrite app_nil_r.
  - replace (seen ++ w :: todo) with ((seen ++ [w]) ++ todo)
      by (rewrite <- app_assoc; reflexivity).
    apply IH. now apply maxPainStep_best.
Qed.

Lemma calculateMaxPain_best (walls : list Wall.t) :
  best_so_far walls walls (fold_left (maxPainStep walls) walls (None, None)).
Proof.
  apply (fold_maxPainStep_best walls walls [] (None, None)). reflexivity.
Qed.

(** C3: for every collection of strike aggregates the search returns a
    candidate strike of least total pain, total pain at [c] being the sum
    over the strikes [w < c] of [callOI(w) * (c - w)] plus the sum over the
    strikes [w > c] of [putOI(w) * (w - c)], and it returns nothing only when
    there is no strike at all; on the chain with the strikes 95, 100, 105,
    call open interest 10, 5, 0 and put open interest 0, 5, 10 the totals are
    125, 100 and 125 and the search returns 100, the strike of the least
    total. *)
Theorem max_pain_minimizes_total_pain :
  (forall walls : list Wall.t,
     match calculateMaxPain walls with
     | Some c => minimizes_pain walls c
     | None => walls = []
     end) /\
  (spec_totalPain chain3 95 == 125 /\
   spec_totalPain chain3 100 == 100 /\
   spec_totalPain chain3 105 == 125 /\
   calculateMaxPain chain3 = Some 100).
Proof.
  split.
  - intro walls. unfold calculateMaxPain.
    pose proof (calculateMaxPain_best walls) as H.
    destruct (fold_left (maxPainStep walls) walls (None, None)) as [[c|] [m|]];
      simpl in *; try contradiction.
    + destruct H as (Hm & Hin & Hmin). split; [exact Hin|].
      intros c' Hc'. apply in_map_iff in Hc'. destruct Hc' as (w & <- & Hw).
      rewrite <- !totalPainAt_spec, <- Hm. now apply Hmin.
    + exact H.
  - repeat split; reflexivity.
Qed.

(** *** The mock generator and the random source *)

Lemma mockStep_mockWall (Math_exp : Q -> Q) (Math_random : nat -> Q)
  (basePrice : Q) (walls : list StrikeData.t) (k : nat) :
  mockStep Math_exp Math_random basePrice (walls, (4 * k)%nat) (Z.of_nat k - 10)%Z
  = (walls ++ [mockWall Math_exp Math_random basePrice k], (4 * S k)%nat).
Proof.
  unfold mockWall, mockStep. cbn [fst snd hd app]. f_equal. lia.
Qed.

Lemma fold_mockStep (Math_exp : Q -> Q) (Math_random : nat -> Q)
  (basePrice : Q) (count first : nat) (walls : list StrikeData.t) :
  fold_left (mockStep Math_exp Math_random basePrice)
    (map (fun k => (Z.of_nat k - 10)%Z) (seq first count))
    (walls, (4 * first)%nat)
  = (walls ++ map (mockWall Math_exp Math_random basePrice) (seq first count),
     (4 * (first + count))%nat).
Proof.
  revert first walls. induction count as [|count IH]; intros first walls.
  - simpl. rewrite app_nil_r. f_equal. lia.
  - cbn [seq map fold_left]. rewrite mockStep_mockWall, IH.
    rewrite <- app_assoc. simpl. f_equal. lia.
Qed.

(** The walls of the mock, before their metrics, turn by turn. *)
Lemma mock_walls (Math_exp : Q -> Q) (Math_random : nat -> Q) (basePrice : Q) :
  fst (fold_left (mockStep Math_exp Math_random basePrice)
         (map (fun k => (Z.of_nat k - 10)%Z) (seq 0 21)) ([], 0%nat))
  = map (mockWall Math_exp Math_random basePrice) (seq 0 21).
Proof.
  change 0%nat with (4 * 0)%nat at 2. now rewrite fold_mockStep.
Qed.

(** A turn of the mock reads four draws only. *)
Lemma mockWall_draws (Math_exp : Q -> Q) (rnd rnd' : nat -> Q)
  (basePrice : Q) (k : nat) :
  (forall j, (4 * k <= j < 4 * k + 4)%nat -> rnd j = rnd' j) ->
  mockWall Math_exp rnd basePrice k = mockWall Math_exp rnd' basePrice k.
Proof.
  intro H. unfold mockWall, mockStep. cbn [fst snd hd app].
  rewrite (H (4 * k)%nat), (H (4 * k + 1)%nat), (H (4 * k + 2)%nat),
    (H (4 * k + 3)%nat) by lia.
  reflexivity.
Qed.

Lemma mock_draws (Math_exp : Q -> Q) (rnd rnd' : nat -> Q)
  (currentPrice : option Q) :
  (forall j, (j < 84)%nat -> rnd j = rnd' j) ->
  generateMockOptionsWalls Math_exp rnd currentPrice
  = generateMockOptionsWalls Math_exp rnd' currentPrice.
Proof.
  intro H. unfold generateMockOptionsWalls. rewrite !mock_walls.
  assert (E : map (mockWall Math_exp rnd (orElse currentPrice 595)) (seq 0 21)
              = map (mockWall Math_exp rnd' (orElse currentPrice 595)) (seq 0 21)).
  { apply map_ext_in. intros k Hk. apply in_seq in Hk.
    apply mockWall_draws. intros j Hj. apply H. lia. }
  now rewrite E.
Qed.

End OptionsWallsFacts.

(** ** Sentiment scorer *)

Module SentimentFacts.

Import Num NumFacts Sentiment.
Local Open Scope Q_scope.
Local Open Scope string_scope.

Lemma summedWeight_snoc (sentiment : String.string) (l : list Signal) (sg : Signal) :
  summedWeight sentiment (l ++ [sg]) ==
  summedWeight sentiment l
  + (if String.eqb (Sentiment.sentiment sg) sentiment then weight sg else 0).
Proof.
  unfold summedWeight. rewrite filter_app, map_app, Qsum_app. simpl.
  destruct (String.eqb (Sentiment.sentiment sg) sentiment); simpl;
    rewrite ?Qsum_cons; change (Qsum []) with 0; lra.
Qed.

Lemma bullish_signals (w : Q) (f : String.string) (s : Score) :
  scores_signals s -> scores_signals (bullish w f s).
Proof.
  intros [Hb Hr]. unfold scores_signals, bullish. simpl.
  rewrite !summedWeight_snoc. simpl. rewrite <- Hb, <- Hr. split; lra.
Qed.

Lemma bearish_signals (w : Q) (f : String.string) (s : Score) :
  scores_signals s -> scores_signals (bearish w f s).
Proof.
  intros [Hb Hr]. unfold scores_signals, bearish. simpl.
  rewrite !summedWeight_snoc. simpl. rewrite <- Hb, <- Hr. split; lra.
Qed.

Lemma bullish_le (w : Q) (f : String.string) (s : Score) :
  0 <= w -> score_le s (bullish w f s).
Proof. intro H. unfold score_le, bullish. simpl. split; lra. Qed.

Lemma bearish_le (w : Q) (f : String.string) (s : Score) :
  0 <= w -> score_le s (bearish w f s).
Proof. intro H. unfold score_le, bearish. simpl. split; lra. Qed.

Lemma score_le_refl (s : Score) : score_le s s.
Proof. unfold score_le. split; lra. Qed.

Lemma score_le_trans (s1 s2 s3 : Score) :
  score_le s1 s2 -> score_le s2 s3 -> score_le s1 s3.
Proof. unfold score_le. intros [? ?] [? ?]. split; lra. Qed.

Create HintDb sentiment.
#[local] Hint Resolve bullish_signals bearish_signals : sentiment.
#[local] Hint Resolve bullish_le bearish_le score_le_refl : sentiment.

Ltac rule_cases :=
  repeat match goal with
         | |- context [if ?b then _ else _] => destruct b
         end;
  auto with sentiment;
  try (first [apply bullish_le | apply bearish_le]; lra).

(** Every rule keeps the scores equal to the summed weights and lowers
    neither of them. *)
Lemma dealerRule_ok (d : Dealer.Metrics) (spy : Q) (s : Score) :
  (scores_signals s -> scores_signals (dealerRule d spy s)) /\
  score_le s (dealerRule d spy s).
Proof. unfold dealerRule. split; [intro|]; rule_cases. Qed.

Lemma pcrRule_ok (v : VolMetrics) (s : Score) :
  (scores_signals s -> scores_signals (pcrRule v s)) /\ score_le s (pcrRule v s).
Proof. unfold pcrRule. split; [intro|]; rule_cases. Qed.

Lemma ivRule_ok (v : VolMetrics) (s : Score) :
  (scores_signals s -> scores_signals (ivRule v s)) /\ score_le s (ivRule v s).
Proof. unfold ivRule. split; [intro|]; rule_cases. Qed.

Lemma vixRule_ok (v : VolMetrics) (s : Score) :
  (scores_signals s -> scores_signals (vixRule v s)) /\ score_le s (vixRule v s).
Proof. unfold vixRule. split; [intro|]; rule_cases. Qed.

Lemma ivSkewRule_ok (v : VolMetrics) (s : Score) :
  (scores_signals s -> scores_signals (ivSkewRule v s)) /\
  score_le s (ivSkewRule v s).
Proof. unfold ivSkewRule. split; [intro|]; rule_cases. Qed.

Lemma skewRule_ok (skew : Q) (s : Score) :
  (scores_signals s -> scores_signals (skewRule skew s)) /\
  score_le s (skewRule skew s).
Proof. unfold skewRule. split; [intro|]; rule_cases. Qed.

(** The dealer-gamma rule, which comes first, always adds a weight of 1 or
    2. *)
Lemma dealerRule_contributes (d : Dealer.Metrics) (spy : Q) :
  let s := dealerRule d spy (mkScore 0 0 []) in
  1 <= bull s + bear s /\ 0 <= bull s /\ 0 <= bear s /\
  exists sg, pushed s = [sg] /\ 1 <= weight sg.
Proof.
  unfold dealerRule.
  destruct (Dealer.isShortGamma d); [destruct (Qgtb _ _)|]; simpl;
    (repeat split; try lra; eexists; split; [reflexivity|simpl; lra]).
Qed.

Lemma score_signals (v : VolMetrics) (d : Dealer.Metrics) (spy skew : Q) :
  scores_signals (score v d spy skew).
Proof.
  unfold score.
  apply skewRule_ok, ivSkewRule_ok, vixRule_ok, ivRule_ok, pcrRule_ok, dealerRule_ok.
  unfold scores_signals, summedWeight, Qsum. simpl. split; lra.
Qed.

Lemma score_after_dealer (v : VolMetrics) (d : Dealer.Metrics) (spy skew : Q) :
  score_le (dealerRule d spy (mkScore 0 0 [])) (score v d spy skew).
Proof.
  unfold score.
  repeat (eapply score_le_trans;
          [|first [apply skewRule_ok | apply ivSkewRule_ok | apply vixRule_ok
                  | apply ivRule_ok | apply pcrRule_ok]]).
  apply score_le_refl.
Qed.

Lemma score_positive (v : VolMetrics) (d : Dealer.Metrics) (spy skew : Q) :
  let s := score v d spy skew in
  1 <= bull s + bear s /\ 0 <= bull s /\ 0 <= bear s.
Proof.
  destruct (dealerRule_contributes d spy) as (H1 & H2 & H3 & _).
  destruct (score_after_dealer v d spy skew) as [H4 H5].
  simpl. repeat split; lra.
Qed.

(** The two copies of the scorer are one function. *)
Lemma genPrediction_generatePrediction (now : String.string)
  (v : option VolMetrics) (d : option Dealer.Metrics) (spy skew : Q) :
  genPrediction now v d spy skew = generatePrediction now v d spy skew.
Proof. reflexivity. Qed.

(** C5: for every input on which the scorer gives a result, in the library
    function and in the dashboard's copy alike, the two scores are the summed
    weights of the bullish and of the bearish signals, the direction is
    BULLISH if the bullish score exceeds the bearish one and BEARISH
    otherwise, and the confidence is |bull - bear| / (bull + bear); bull +
    bear is never 0, so that nothing is divided by zero and the rule
    "confidence 0 when bull + bear = 0" holds on every result. *)
Theorem prediction_direction_and_confidence (now : String.string)
  (v : option VolMetrics) (d : option Dealer.Metrics) (spy skew : Q)
  (r : Prediction) :
  generatePrediction now v d spy skew = Some r ->
  genPrediction now v d spy skew = Some r /\
  bullishScore r == summedWeight "bullish" (signals r) /\
  bearishScore r == summedWeight "bearish" (signals r) /\
  (bearishScore r < bullishScore r -> prediction r = "BULLISH") /\
  (bullishScore r <= bearishScore r -> prediction r = "BEARISH") /\
  confidence r ==
    Qabs (bullishScore r - bearishScore r) / (bullishScore r + bearishScore r) /\
  ~ bullishScore r + bearishScore r == 0 /\
  (bullishScore r + bearishScore r == 0 -> confidence r == 0).
Proof.
  intro H. split; [rewrite genPrediction_generatePrediction; exact H|].
  destruct v as [v|]; [|discriminate]. destruct d as [d|]; [|discriminate].
  simpl in H. injection H as <-. simpl.
  destruct (score_signals v d spy skew) as [Hb Hr].
  destruct (score_positive v d spy skew) as (Hp & _ & _). simpl in Hp.
  split; [exact Hb|]. split; [exact Hr|]. split; [|split].
  - intro Hlt. apply Qgtb_gt in Hlt. now rewrite Hlt.
  - intro Hle. apply Qgtb_le in Hle. now rewrite Hle.
  - split; [reflexivity|]. split; intro E; exfalso; lra.
Qed.

Lemma prediction_direction_and_confidence_witness :
  generatePrediction "2024-01-02T15:00:00.000Z" (Some sampleVol)
    (Some sampleDealer) 500 130
  = Some (samplePrediction "2024-01-02T15:00:00.000Z") /\
  prediction (samplePrediction "2024-01-02T15:00:00.000Z") = "BULLISH".
Proof.
  split; [reflexivity|].
  apply (prediction_direction_and_confidence "2024-01-02T15:00:00.000Z"
           (Some sampleVol) (Some sampleDealer) 500 130); [reflexivity|].
  simpl. lra.
Defined.

(** C10: whenever the volatility and the dealer metrics are both present the
    scorer gives a result; its first rule, on the dealer gamma, always adds a
    weight of at least 1 to one of the two scores and no later rule lowers a
    score, so that bull + bear >= 1 and the division
    |bull - bear| / (bull + bear) of the confidence never has a zero
    divisor, without any special case in the code. *)
Theorem dealer_factor_keeps_confidence_defined (now : String.string)
  (v : VolMetrics) (d : Dealer.Metrics) (spy skew : Q) :
  exists r,
    generatePrediction now (Some v) (Some d) spy skew = Some r /\
    (let s := dealerRule d spy (mkScore 0 0 []) in
     1 <= bull s + bear s /\
     bull s <= bullishScore r /\ bear s <= bearishScore r) /\
    1 <= bullishScore r + bearishScore r /\
    ~ bullishScore r + bearishScore r == 0 /\
    confidence r ==
      Qabs (bullishScore r - bearishScore r) / (bullishScore r + bearishScore r).
Proof.
  eexists. split; [reflexivity|]. simpl.
  destruct (dealerRule_contributes d spy) as (H1 & _).
  destruct (score_after_dealer v d spy skew) as [H2 H3].
  destruct (score_positive v d spy skew) as (Hp & _ & _). simpl in Hp.
  repeat split; try assumption; try reflexivity. intro E. lra.
Qed.

End SentimentFacts.

(** ** Purity *)

Module PurityFacts.

Import Num NumFacts OptionsWalls OptionsWallsFacts Sentiment.
Local Open Scope Q_scope.
Local Open Scope string_scope.

(** With a source that maps 0 to 1 for [Math.exp], the mock walls at a
    current price of 595 change with the draws: the wall at 595 gets a call
    open interest of 48000 when every draw is 0 and of 60000 when every draw
    is 1/2. *)
Lemma mock_depends_on_draws (Math_exp : Q -> Q) :
  (forall x, x == 0 -> Math_exp x == 1) ->
  calculateOptionsWalls Math_exp (constantDraws 0) [] (Some 595)
  <> calculateOptionsWalls Math_exp (constantDraws 0.5) [] (Some 595).
Proof.
  intros Hexp H.
  apply (f_equal (fun r => option_map Wall.callOI (nth_error (walls r) 10))) in H.
  unfold calculateOptionsWalls, generateMockOptionsWalls in H.
  cbn [walls] in H. rewrite !mock_walls in H.
  rewrite !nth_error_map in H. cbn [seq nth_error option_map] in H.
  unfold mockWall, mockStep, withMetrics in H.
  cbn [fst snd hd app Wall.callOI StrikeData.callOI] in H.
  match type of H with
  | Some ?x = Some ?y => assert (H' : Qfloor x = Qfloor y) by congruence
  end.
  clear H. rename H' into H. unfold round in H. rewrite !Qfloor_Z in H.
  set (arg := - Qabs _ / 15) in H.
  assert (Harg : arg == 0) by reflexivity.
  apply Hexp in Harg. clearbody arg.
  set (skew := if Qgtb _ _ then 0.8 else 1.2) in H.
  assert (Hskew : skew == 1.2) by reflexivity. clearbody skew.
  unfold constantDraws in H.
  rewrite Harg, Hskew in H. vm_compute in H. discriminate.
Qed.

(** C9 (as stated) fails: two runs of the sentiment scorer on the same
    inputs, read at two different times, give two different results. *)
Lemma prediction_depends_on_the_clock :
  generatePrediction "2024-01-02T15:00:00.000Z" (Some sampleVol)
    (Some sampleDealer) 500 130
  <> generatePrediction "2024-01-02T15:00:00.001Z" (Some sampleVol)
       (Some sampleDealer) 500 130.
Proof.
  intro H. apply (f_equal (option_map timestamp)) in H. simpl in H.
  discriminate.
Qed.

End PurityFacts.

(** ** Sorting and objects *)

Module ObjectFacts.

Import Num NumFacts.
Local Open Scope Q_scope.

Lemma insertBy_length {A : Type} (before : A -> A -> bool) (x : A) (l : list A) :
  length (insertBy before x l) = S (length l).
Proof.
  induction l as [|y l IH]; simpl; [reflexivity|].
  destruct (before x y); simpl; now rewrite ?IH.
Qed.

Lemma sortBy_length {A : Type} (before : A -> A -> bool) (l : list A) :
  length (sortBy before l) = length l.
Proof.
  induction l as [|x l IH]; simpl; [reflexivity|].
  now rewrite insertBy_length, IH.
Qed.

Lemma insertBy_perm {A : Type} (before : A -> A -> bool) (x : A) (l : list A) :
  Permutation (insertBy before x l) (x :: l).
Proof.
  induction l as [|y l IH]; simpl; [reflexivity|].
  destruct (before x y); [reflexivity|].
  rewrite IH. apply perm_swap.
Qed.

Lemma sortBy_perm {A : Type} (before : A -> A -> bool) (l : list A) :
  Permutation (sortBy before l) l.
Proof.
  induction l as [|x l IH]; simpl; [reflexivity|].
  rewrite insertBy_perm. now apply perm_skip.
Qed.

Lemma filter_partition_perm {A : Type} (p : A -> bool) (l : list A) :
  Permutation (filter p l ++ filter (fun x => negb (p x)) l) l.
Proof.
  induction l as [|x l IH]; simpl; [reflexivity|].
  destruct (p x); simpl.
  - now apply perm_skip.
  - rewrite <- Permutation_middle. now apply perm_skip.
Qed.

(** [Object.values] lists every value once. *)
Lemma objectValues_perm {A : Type} (o : JsObject A) :
  Permutation (objectValues o) (map snd o).
Proof.
  unfold objectValues. apply Permutation_map.
  rewrite sortBy_perm. apply filter_partition_perm.
Qed.

Lemma distinctKeys_perm (ks ks' : list Q) :
  Permutation ks ks' -> distinctKeys ks -> distinctKeys ks'.
Proof.
  induction 1 as [|k l l' Hp IH|k k' l|l l' l'' _ IH1 _ IH2]; simpl.
  - trivial.
  - intros [H1 H2]. split; [|now apply IH].
    intros k' Hk'. apply H1. now apply (Permutation_in _ (Permutation_sym Hp)).
  - intros [H1 [H2 H3]]. repeat split; try assumption.
    + intros k'' [<-|Hk''].
      * intro E. apply (H1 k); [now left|now symmetry].
      * now apply H2.
    + intros k'' Hk''. apply H1. now right.
  - auto.
Qed.

Lemma distinctKeys_snoc (ks : list Q) (k : Q) :
  distinctKeys ks -> (forall k', In k' ks -> ~ k == k') -> distinctKeys (ks ++ [k]).
Proof.
  intros H Hk. apply (distinctKeys_perm (k :: ks)).
  - apply Permutation_cons_append.
  - simpl. now split.
Qed.

(** A stable sort by a key puts the keys in order, and strictly so when
    they are pairwise different. *)
Lemma insertBy_sorted {A : Type} (key : A -> Q) (x : A) (l : list A) :
  sortedBy key l ->
  sortedBy key (insertBy (fun a b => Qle_bool (key a) (key b)) x l).
Proof.
  induction l as [|y l IH]; simpl; [intros _; split; [intros ? []|trivial]|].
  intros [Hy Hl]. destruct (Qle_bool (key x) (key y)) eqn:E.
  - apply Qle_bool_iff in E. simpl. split; [|now split].
    intros z [<-|Hz]; [exact E|]. eapply Qle_trans; [exact E|now apply Hy].
  - assert (Hlt : key y <= key x).
    { apply Qlt_le_weak, Qnot_le_lt. intro H. apply Qle_bool_iff in H. congruence. }
    simpl. split; [|now apply IH].
    intros z Hz.
    apply (Permutation_in _ (insertBy_perm _ x l)) in Hz.
    destruct Hz as [<-|Hz]; [exact Hlt|now apply Hy].
Qed.

Lemma sortBy_sorted {A : Type} (key : A -> Q) (l : list A) :
  sortedBy key (sortBy (fun a b => Qle_bool (key a) (key b)) l).
Proof.
  induction l as [|x l IH]; simpl; [trivial|]. now apply insertBy_sorted.
Qed.

Lemma sorted_distinct_ascending {A : Type} (key : A -> Q) (l : list A)
  (i : nat) (a b : A) :
  sortedBy key l -> distinctKeys (map key l) ->
  nth_error l i = Some a -> nth_error l (S i) = Some b -> key a < key b.
Proof.
  revert i. induction l as [|x l IH]; intros i Hs Hd Ha Hb.
  - destruct i; discriminate.
  - destruct Hs as [Hx Hs]. destruct Hd as [Dx Dl]. destruct i as [|i].
    + simpl in Ha. injection Ha as <-.
      change (nth_error l 0 = Some b) in Hb. apply nth_error_In in Hb.
      specialize (Hx b Hb). specialize (Dx (key b) (in_map key l b Hb)).
      destruct (Qle_lt_or_eq _ _ Hx); [assumption|contradiction].
    + simpl in Ha. apply (IH i); assumption.
Qed.

(** *** Objects keyed by numbers *)

Lemma lookup_None {A : Type} (k : Q) (o : JsObject A) :
  lookup k o = None -> forall k', In k' (map fst o) -> ~ k == k'.
Proof.
  induction o as [|[k0 v] o IH]; simpl; [intros _ ? []|].
  destruct (Qeq_bool k k0) eqn:E; [discriminate|].
  intros H k' [<-|Hk'].
  - now apply Qeq_bool_false.
  - now apply IH.
Qed.

Lemma update_keys {A : Type} (k : Q) (f : A -> A) (o : JsObject A) :
  map fst (update k f o) = map fst o.
Proof.
  induction o as [|[k0 v] o IH]; simpl; [reflexivity|].
  destruct (Qeq_bool k k0); simpl; [reflexivity|now rewrite IH].
Qed.

(** A property of the values that [f] keeps survives an update. *)
Lemma update_Forall {A : Type} (P : Q * A -> Prop) (k : Q) (f : A -> A)
  (o : JsObject A) :
  (forall k' v, P (k', v) -> P (k', f v)) ->
  Forall P o -> Forall P (update k f o).
Proof.
  intros Hf. induction 1 as [|[k0 v] o Hv Ho IH]; simpl; [constructor|].
  destruct (Qeq_bool k k0); constructor; auto.
Qed.

End ObjectFacts.

(** ** Volume profile *)

Module VolumeProfileFacts.

Import Num NumFacts VolumeProfile.
Local Open Scope Q_scope.

Lemma profile_bins (d : PriceBar.t) (ds : list PriceBar.t) :
  profile (calculateVolumeProfile (d :: ds))
  = map (makeBin (d :: ds) (map barVolume (d :: ds)) (minClose d ds) (binWidth d ds))
      (seq 0 numBins).
Proof. reflexivity. Qed.

Lemma poc_bins (d : PriceBar.t) (ds : list PriceBar.t) :
  poc (calculateVolumeProfile (d :: ds))
  = pointOfControl (profile (calculateVolumeProfile (d :: ds))).
Proof. reflexivity. Qed.

(** *** The point of control *)



(** *** The volume of a bin *)



(** *** The ranges of the bins *)

(** The bounds of the bin number [i] from the least close [lo] on, for the
    width [w]. *)
Lemma makeBin_bounds (data : list PriceBar.t) (volumes : list Q) (lo w : Q) (i : nat) :
  priceLow (makeBin data volumes lo w i) = lo + inject_Z (Z.of_nat i) * w /\
  priceHigh (makeBin data volumes lo w i) = lo + inject_Z (Z.of_nat i) * w + w.
Proof. now split. Qed.


Lemma closes_between (d : PriceBar.t) (ds : list PriceBar.t) (b : PriceBar.t) :
  In b (d :: ds) -> minClose d ds <= PriceBar.close b <= maxClose d ds.
Proof.
  unfold minClose, maxClose. intros [<-|H].
  - split; [apply Qminl_le_head|apply Qmaxl_ge_head].
  - split; [apply Qminl_le|apply Qmaxl_ge]; now apply in_map.
Qed.

Lemma binWidth_nonneg (d : PriceBar.t) (ds : list PriceBar.t) : 0 <= binWidth d ds.
Proof.
  unfold binWidth. destruct (closes_between d ds d (or_introl eq_refl)).
  apply Qle_shift_div_l; [reflexivity|lra].
Qed.








End VolumeProfileFacts.

(** ** Level clustering *)

Module LevelsFacts.

Import Num NumFacts ObjectFacts Levels.
Local Open Scope Q_scope.
Local Open Scope string_scope.

(** A point adds at most one cluster, and none when it is merged. *)
Lemma addPoint_length (clusters : list Cluster.t) (point : Point.t) :
  length (addPoint clusters point) =
  if (placeOf clusters point <? length clusters)%nat
  then length clusters else S (length clusters).
Proof.
  induction clusters as [|c rest IH]; simpl; [reflexivity|].
  destruct (near c point); simpl; [reflexivity|].
  rewrite IH. change (S (placeOf rest point) <? S (length rest))%nat
    with (placeOf rest point <? length rest)%nat.
  now destruct (placeOf rest point <? length rest)%nat.
Qed.

Lemma placeOf_le (clusters : list Cluster.t) (point : Point.t) :
  (placeOf clusters point <= length clusters)%nat.
Proof.
  induction clusters as [|c rest IH]; simpl; [lia|].
  destruct (near c point); lia.
Qed.

(** The cluster at [placeOf] is the first one that is near the point. *)
Lemma placeOf_first (clusters : list Cluster.t) (point : Point.t) (k : nat) :
  (k < length clusters)%nat ->
  (placeOf clusters point = k <->
   (exists c, nth_error clusters k = Some c /\ near c point = true) /\
   (forall j c, (j < k)%nat -> nth_error clusters j = Some c -> near c point = false)).
Proof.
  revert k. induction clusters as [|c rest IH]; intros k Hk; simpl in Hk; [lia|].
  simpl. destruct (near c point) eqn:E.
  - split.
    + intros <-. split; [exists c; now split|]. intros j c' Hj. lia.
    + intros [_ H]. destruct k as [|k]; [reflexivity|].
      specialize (H 0%nat c (Nat.lt_0_succ k) eq_refl). congruence.
  - destruct k as [|k].
    + split; [discriminate|]. intros [(c' & Hc' & Hn) _].
      simpl in Hc'. injection Hc' as <-. congruence.
    + assert (Hk' : (k < length rest)%nat) by lia.
      specialize (IH k Hk'). split.
      * intro H. injection H as H. apply IH in H. destruct H as [H1 H2].
        split; [exact H1|]. intros [|j] c' Hj Hc'; simpl in Hc'.
        -- now injection Hc' as <-.
        -- apply (H2 j); [lia|exact Hc'].
      * intros [H1 H2]. f_equal. apply IH. split; [exact H1|].
        intros j c' Hj Hc'. apply (H2 (S j)); [lia|exact Hc'].
Qed.

(** The point is counted once, in the cluster at its place. *)
Lemma addPoint_touches (clusters : list Cluster.t) (point : Point.t) (k : nat) :
  touchesAt (addPoint clusters point) k =
  (touchesAt clusters k + if (k =? placeOf clusters point)%nat then 1 else 0)%nat.
Proof.
  revert k. induction clusters as [|c rest IH]; intro k; simpl.
  - destruct k as [|[|k]]; reflexivity.
  - destruct (near c point).
    + destruct k as [|k]; unfold touchesAt; simpl; [lia|].
      destruct (nth_error rest k); lia.
    + destruct k as [|k]; unfold touchesAt; simpl; [lia|].
      apply (IH k).
Qed.

Lemma fold_addPoint_touches (points : list Point.t) (clusters : list Cluster.t)
  (k : nat) :
  touchesAt (fold_left addPoint points clusters) k =
  (touchesAt clusters k + count_occ Nat.eq_dec (places clusters points) k)%nat.
Proof.
  revert clusters. induction points as [|p points IH]; intro clusters; simpl.
  - lia.
  - rewrite IH, addPoint_touches.
    destruct (Nat.eq_dec (placeOf clusters p) k) as [E|E].
    + subst k. rewrite Nat.eqb_refl. lia.
    + destruct (Nat.eqb_spec k (placeOf clusters p)); [congruence|lia].
Qed.

Lemma fold_addPoint_length (points : list Point.t) (clusters : list Cluster.t) :
  (length (fold_left addPoint points clusters) <= length clusters + length points)%nat.
Proof.
  revert clusters. induction points as [|p points IH]; intro clusters; simpl.
  - lia.
  - specialize (IH (addPoint clusters p)). rewrite addPoint_length in IH.
    destruct (placeOf clusters p <? length clusters)%nat; lia.
Qed.

Lemma places_bound (points : list Point.t) (clusters : list Cluster.t) (k : nat) :
  In k (places clusters points) ->
  (k < length (fold_left addPoint points clusters))%nat.
Proof.
  revert clusters. induction points as [|p points IH]; intros clusters H; simpl in *.
  - contradiction.
  - destruct H as [H|H]; [|now apply IH].
    subst k.
    assert (Hm : forall ps cs, (length cs <= length (fold_left addPoint ps cs))%nat).
    { induction ps as [|q ps IHps]; intro cs; simpl; [lia|].
      specialize (IHps (addPoint cs q)). rewrite addPoint_length in IHps.
      destruct (placeOf cs q <? length cs)%nat; lia. }
    specialize (Hm points (addPoint clusters p)). rewrite addPoint_length in Hm.
    pose proof (placeOf_le clusters p).
    destruct (Nat.ltb_spec (placeOf clusters p) (length clusters)); lia.
Qed.

(** Without a near cluster the point starts a new one, at the end. *)
Lemma addPoint_new (clusters : list Cluster.t) (point : Point.t) :
  (forall c, In c clusters -> near c point = false) ->
  addPoint clusters point = clusters ++ [newCluster point].
Proof.
  induction clusters as [|c rest IH]; intro H; simpl; [reflexivity|].
  rewrite (H c (or_introl eq_refl)). f_equal. apply IH.
  intros c' Hc'. apply H. now right.
Qed.

(** With a near cluster the first of them takes the point, in place. *)
Lemma addPoint_merge (clusters : list Cluster.t) (point : Point.t) :
  (exists c, In c clusters /\ near c point = true) ->
  exists pre c post,
    clusters = pre ++ c :: post /\
    (forall c', In c' pre -> near c' point = false) /\
    near c point = true /\
    addPoint clusters point = pre ++ merge c point :: post.
Proof.
  induction clusters as [|c rest IH]; intros (c0 & Hin & Hnear).
  - destruct Hin.
  - simpl. destruct (near c point) eqn:E.
    + exists [], c, rest. repeat split; try assumption. intros c' [].
    + destruct Hin as [->|Hin]; [congruence|].
      destruct IH as (pre & c1 & post & -> & Hpre & Hc1 & Hadd).
      { exists c0. now split. }
      exists (c :: pre), c1, post. repeat split; try assumption.
      * intros c' [<-|Hc']; [exact E|now apply Hpre].
      * simpl. now rewrite Hadd.
Qed.

(** C8 (as the code has it): a swing point is merged, in place, into the
    first cluster whose current price [c] has [|c - p| / c < 0.005] for the
    point's price [p], and starts a new cluster at the end when there is none;
    so every point is taken by exactly one cluster, whose touches count the
    points it took, and neither the clusters nor the levels returned (at most
    8 of them) are more numerous than the input swing points. *)
Theorem clusters_take_each_point_once_and_never_outnumber_points
  (currentPrice : option Q) (data : list PriceBar.t) (swings : Swings) :
  let points := allPoints swings in
  let clusters := clusterPoints points in
  let levels := calculateSupportResistance currentPrice data swings in
  (forall cs p, (forall c, In c cs -> near c p = false) ->
     addPoint cs p = cs ++ [newCluster p]) /\
  (forall cs p, (exists c, In c cs /\ near c p = true) ->
     exists pre c post,
       cs = pre ++ c :: post /\ (forall c', In c' pre -> near c' p = false) /\
       near c p = true /\ addPoint cs p = pre ++ merge c p :: post) /\
  length (places [] points) = length points /\
  (forall k, In k (places [] points) -> (k < length clusters)%nat) /\
  (forall k, touchesAt clusters k = count_occ Nat.eq_dec (places [] points) k) /\
  length points = (length (highs swings) + length (lows swings))%nat /\
  (length clusters <= length points)%nat /\
  (length levels <= length clusters)%nat /\
  (length levels <= 8)%nat.
Proof.
  intros points clusters levels.
  split; [exact addPoint_new|]. split; [exact addPoint_merge|].
  split; [|split; [|split; [|split; [|split; [|split]]]]].
  - generalize (@nil Cluster.t). induction points as [|p ps IH]; intro cs; simpl.
    + reflexivity.
    + now rewrite IH.
  - intros k Hk. now apply places_bound.
  - intro k. unfold clusters, clusterPoints. rewrite fold_addPoint_touches.
    unfold touchesAt. now destruct k.
  - unfold points, allPoints. now rewrite length_app, !length_map.
  - apply (fold_addPoint_length points []).
  - unfold levels, calculateSupportResistance. fold points. fold clusters.
    rewrite length_firstn, sortBy_length, length_map. apply Nat.le_min_r.
  - unfold levels, calculateSupportResistance.
    rewrite length_firstn. apply Nat.le_min_l.
Qed.

Lemma clusters_take_each_point_once_and_never_outnumber_points_witness :
  addPoint [newCluster (Point.mk 100 "resistance" 1)] (Point.mk 100.8 "resistance" 1)
  = [newCluster (Point.mk 100 "resistance" 1)]
    ++ [newCluster (Point.mk 100.8 "resistance" 1)].
Proof.
  apply (proj1 (clusters_take_each_point_once_and_never_outnumber_points
                  None [] threeHighs)).
  intros c [<-|[]]. reflexivity.
Defined.

(** C8 (as stated) fails: of the three swing highs 100, 100.4 and 100.8 the
    last two are within 0.5% of each other, yet the first cluster, which took
    100 and 100.4 and stands at their mean 100.2, is not near 100.8, so that
    100.4 and 100.8 end up in two clusters. *)
Lemma close_points_in_two_clusters :
  map Point.price (allPoints threeHighs) = [100; 100.4; 100.8] /\
  within_tolerance 100.4 100.8 /\
  places [] (allPoints threeHighs) = [0; 0; 1]%nat /\
  map Cluster.touches (clusterPoints (allPoints threeHighs)) = [2; 1]%nat.
Proof.
  split; [reflexivity|]. split; [split; reflexivity|]. split; reflexivity.
Qed.

End LevelsFacts.

(** ** Correlation *)

Module CorrelationFacts.

Import Correlation.
Local Open Scope R_scope.

Lemma fold_Rplus_start (l : list R) (a : R) :
  fold_left Rplus l a = a + fold_left Rplus l 0.
Proof.
  revert a. induction l as [|x l IH]; intro a; simpl.
  - ring.
  - rewrite (IH (a + x)), (IH (0 + x)). ring.
Qed.

Lemma reduceSum_cons (x : R) (l : list R) :
  reduceSum (x :: l) = x + fold_left Rplus l 0.
Proof. simpl. apply fold_Rplus_start. Qed.

Lemma fold_Rplus_opp (l : list R) (a : R) :
  fold_left Rplus (map Ropp l) (- a) = - fold_left Rplus l a.
Proof.
  revert a. induction l as [|x l IH]; intro a; simpl.
  - reflexivity.
  - replace (- a + - x) with (- (a + x)) by ring. apply IH.
Qed.

Lemma reduceSum_opp (l : list R) : reduceSum (map Ropp l) = - reduceSum l.
Proof.
  destruct l as [|x l]; simpl.
  - ring.
  - apply fold_Rplus_opp.
Qed.

Lemma mean_opp (l : list R) : mean (map Ropp l) = - mean l.
Proof.
  unfold mean. rewrite reduceSum_opp, length_map. unfold Rdiv. ring.
Qed.

(** The loop over the indices is a walk along the two series. *)
Lemma fold_corrStep (m1 m2 : R) (arr1 arr2 pre1 pre2 : list R) (acc : R * R * R) :
  length pre1 = length pre2 -> length arr1 = length arr2 ->
  fold_left (corrStep (pre1 ++ arr1) (pre2 ++ arr2) m1 m2)
    (seq (length pre1) (length arr1)) acc
  = (fst (fst acc) + sumProducts m1 m2 arr1 arr2,
     snd (fst acc) + sumProducts m1 m1 arr1 arr1,
     snd acc + sumProducts m2 m2 arr2 arr2).
Proof.
  revert arr2 pre1 pre2 acc.
  induction arr1 as [|x xs IH]; intros [|y ys] pre1 pre2 [[a b] c] Hpre Hlen;
    simpl in Hlen; try discriminate.
  - simpl. f_equal; [f_equal|]; ring.
  - cbn [length seq fold_left].
    replace (pre1 ++ x :: xs) with ((pre1 ++ [x]) ++ xs)
      by (rewrite <- app_assoc; reflexivity).
    replace (pre2 ++ y :: ys) with ((pre2 ++ [y]) ++ ys)
      by (rewrite <- app_assoc; reflexivity).
    replace (S (length pre1)) with (length (pre1 ++ [x]))
      by (rewrite length_app; simpl; lia).
    assert (Hx : nth (length pre1) ((pre1 ++ [x]) ++ xs) 0 = x).
    { rewrite <- app_assoc. apply nth_middle. }
    assert (Hy : nth (length pre1) ((pre2 ++ [y]) ++ ys) 0 = y).
    { rewrite Hpre, <- app_assoc. apply nth_middle. }
    unfold corrStep at 2. rewrite Hx, Hy.
    rewrite IH.
    + simpl. f_equal; [f_equal|]; ring.
    + rewrite !length_app. simpl. lia.
    + now injection Hlen.
Qed.

(** The three sums of the code are those of Pearson's formula. *)
Lemma corrSums_spec (arr1 arr2 : list R) :
  length arr1 = length arr2 ->
  corrSums arr1 arr2 = (covariance arr1 arr2, sumSquares arr1, sumSquares arr2).
Proof.
  intro H. unfold corrSums.
  rewrite (fold_corrStep _ _ arr1 arr2 [] [] (0, 0, 0) eq_refl H). simpl.
  unfold sumSquares, covariance, mean. rewrite <- H.
  f_equal; [f_equal|]; ring.
Qed.

Lemma sumProducts_same_nonneg (m : R) (arr : list R) :
  0 <= sumProducts m m arr arr.
Proof.
  induction arr as [|x xs IH]; simpl; [lra|].
  pose proof (Rle_0_sqr (x - m)) as Hs. unfold Rsqr in Hs. lra.
Qed.

Lemma sumSquares_nonneg (arr : list R) : 0 <= sumSquares arr.
Proof. apply sumProducts_same_nonneg. Qed.

Lemma sumProducts_opp_r (m1 m2 : R) (arr1 arr2 : list R) :
  sumProducts m1 (- m2) arr1 (map Ropp arr2) = - sumProducts m1 m2 arr1 arr2.
Proof.
  revert arr2. induction arr1 as [|x xs IH]; intros [|y ys]; simpl; try ring.
  rewrite IH. ring.
Qed.

Lemma sumProducts_opp (m : R) (arr : list R) :
  sumProducts (- m) (- m) (map Ropp arr) (map Ropp arr) = sumProducts m m arr arr.
Proof.
  induction arr as [|x xs IH]; simpl; [reflexivity|]. rewrite IH. ring.
Qed.

Lemma covariance_opp (arr : list R) :
  covariance arr (map Ropp arr) = - sumSquares arr.
Proof.
  unfold sumSquares, covariance. rewrite mean_opp. apply sumProducts_opp_r.
Qed.

Lemma sumSquares_opp (arr : list R) : sumSquares (map Ropp arr) = sumSquares arr.
Proof.
  unfold sumSquares, covariance. rewrite mean_opp. apply sumProducts_opp.
Qed.

(** The function is Pearson's [r] on two series of one length with
    non-zero variances, and 0 otherwise. *)
Lemma calculateCorrelation_pearson (arr1 arr2 : list R) :
  length arr1 = length arr2 -> sumSquares arr1 <> 0 -> sumSquares arr2 <> 0 ->
  calculateCorrelation arr1 arr2 = pearson arr1 arr2.
Proof.
  intros Hlen H1 H2. unfold calculateCorrelation.
  rewrite Hlen, Nat.eqb_refl. simpl.
  destruct arr2 as [|y ys].
  - exfalso. apply H2. reflexivity.
  - simpl Nat.eqb. cbv iota.
    rewrite (corrSums_spec arr1 (y :: ys) Hlen).
    destruct (Req_dec_T (sumSquares arr1) 0); [contradiction|].
    destruct (Req_dec_T (sumSquares (y :: ys)) 0); [contradiction|].
    reflexivity.
Qed.

Lemma calculateCorrelation_zero (arr1 arr2 : list R) :
  length arr1 <> length arr2 \/ arr1 = [] \/
  sumSquares arr1 = 0 \/ sumSquares arr2 = 0 ->
  calculateCorrelation arr1 arr2 = 0.
Proof.
  intro H. unfold calculateCorrelation.
  destruct (Nat.eqb_spec (length arr1) (length arr2)) as [Hlen|Hlen];
    [|reflexivity].
  simpl. destruct arr1 as [|x xs]; [reflexivity|]. simpl Nat.eqb. cbv iota.
  rewrite (corrSums_spec (x :: xs) arr2 Hlen).
  destruct (Req_dec_T (sumSquares (x :: xs)) 0); [reflexivity|].
  destruct (Req_dec_T (sumSquares arr2) 0); [reflexivity|].
  destruct H as [H|[H|[H|H]]]; try contradiction; discriminate.
Qed.

Lemma sumProducts_zero (m : R) (arr : list R) :
  sumProducts m m arr arr = 0 <-> forall x, In x arr -> x = m.
Proof.
  induction arr as [|x xs IH]; simpl.
  - split; [intros _ y []|reflexivity].
  - pose proof (sumProducts_same_nonneg m xs) as Hxs.
    pose proof (Rle_0_sqr (x - m)) as Hs. unfold Rsqr in Hs. split.
    + intros H y [<-|Hy].
      * assert (E : (x - m) * (x - m) = 0) by lra.
        apply Rmult_integral in E. lra.
      * apply IH; [lra|exact Hy].
    + intro H. rewrite (H x (or_introl eq_refl)).
      assert (E : sumProducts m m xs xs = 0).
      { apply IH. intros y Hy. apply H. now right. }
      rewrite E. ring.
Qed.

(** A series has zero variance exactly when it is constant. *)
Lemma zero_variance_constant (arr : list R) :
  sumSquares arr = 0 <-> forall x, In x arr -> x = mean arr.
Proof. apply sumProducts_zero. Qed.

Lemma self_correlation (s : R) : 0 <= s -> s <> 0 -> s / sqrt (s * s) = 1.
Proof.
  intros H0 H. rewrite sqrt_square by exact H0. now field.
Qed.

Lemma calculateCorrelation_self (arr : list R) :
  sumSquares arr <> 0 -> calculateCorrelation arr arr = 1.
Proof.
  intro H. pose proof (sumSquares_nonneg arr) as H0.
  rewrite calculateCorrelation_pearson by auto.
  unfold pearson. fold (sumSquares arr). now apply self_correlation.
Qed.

Lemma calculateCorrelation_opp (arr : list R) :
  sumSquares arr <> 0 -> calculateCorrelation arr (map Ropp arr) = -1.
Proof.
  intro H. pose proof (sumSquares_nonneg arr) as H0.
  rewrite calculateCorrelation_pearson;
    rewrite ?length_map, ?sumSquares_opp; auto.
  unfold pearson. rewrite covariance_opp, sumSquares_opp.
  unfold Rdiv. rewrite <- Ropp_mult_distr_l.
  fold (Rdiv (sumSquares arr) (sqrt (sumSquares arr * sumSquares arr))).
  now rewrite self_correlation.
Qed.

Lemma calculateCorrelation_loop (arr1 arr2 : list R) :
  length arr1 = length arr2 -> arr1 <> [] ->
  calculateCorrelation arr1 arr2
  = if Req_dec_T (denom1 arr1 arr2) 0 then 0
    else if Req_dec_T (denom2 arr1 arr2) 0 then 0
    else numerator arr1 arr2 / sqrt (denom1 arr1 arr2 * denom2 arr1 arr2).
Proof.
  intros Hlen Hne. unfold calculateCorrelation, numerator, denom1, denom2.
  rewrite Hlen, Nat.eqb_refl. cbn [negb orb].
  destruct arr2 as [|y ys]; [destruct arr1; [contradiction|discriminate]|].
  cbn [length Nat.eqb]. now destruct (corrSums arr1 (y :: ys)) as [[n d1] d2].
Qed.

Lemma loop_sums (arr1 arr2 : list R) :
  length arr1 = length arr2 ->
  numerator arr1 arr2 = covariance arr1 arr2 /\
  denom1 arr1 arr2 = sumSquares arr1 /\ denom2 arr1 arr2 = sumSquares arr2.
Proof.
  intro H. unfold numerator, denom1, denom2. rewrite (corrSums_spec _ _ H).
  now repeat split.
Qed.

Lemma sumSquares_one (x : R) : sumSquares [x] = 0.
Proof.
  unfold sumSquares, covariance, mean. simpl. field.
Qed.

(** C6 (as the code has it): the function returns 0 when the lengths differ
    or the series are empty, and when one of the two sums of squared
    deviations that its loop accumulates, denom1 and denom2, is 0; otherwise
    it returns numerator / sqrt(denom1 * denom2).  For a series A whose
    accumulated sum of squared deviations is not 0, correlation(A, A) = 1 and
    correlation(A, -A) = -1; when that sum is 0, as it is on every series of
    one element, both are 0. *)
Theorem correlation_of_a_series_with_itself_and_its_negation :
  (forall arr1 arr2 : list R,
     length arr1 <> length arr2 \/ arr1 = [] ->
     calculateCorrelation arr1 arr2 = 0) /\
  (forall arr1 arr2 : list R,
     length arr1 = length arr2 -> arr1 <> [] ->
     (denom1 arr1 arr2 = 0 \/ denom2 arr1 arr2 = 0 ->
      calculateCorrelation arr1 arr2 = 0) /\
     (denom1 arr1 arr2 <> 0 -> denom2 arr1 arr2 <> 0 ->
      calculateCorrelation arr1 arr2
      = numerator arr1 arr2 / sqrt (denom1 arr1 arr2 * denom2 arr1 arr2))) /\
  (forall arr : list R,
     (denom1 arr arr <> 0 ->
      calculateCorrelation arr arr = 1 /\
      calculateCorrelation arr (map Ropp arr) = -1) /\
     (denom1 arr arr = 0 ->
      calculateCorrelation arr arr = 0 /\
      calculateCorrelation arr (map Ropp arr) = 0)) /\
  (forall x : R,
     denom1 [x] [x] = 0 /\
     calculateCorrelation [x] [x] = 0 /\ calculateCorrelation [x] [- x] = 0).
Proof.
  split; [|split; [|split]].
  - intros arr1 arr2 H. apply calculateCorrelation_zero.
    destruct H as [H|H]; [now left|right; now left].
  - intros arr1 arr2 Hlen Hne. rewrite (calculateCorrelation_loop _ _ Hlen Hne).
    split.
    + intros [H|H].
      * destruct (Req_dec_T (denom1 arr1 arr2) 0); [reflexivity|contradiction].
      * destruct (Req_dec_T (denom1 arr1 arr2) 0); [reflexivity|].
        destruct (Req_dec_T (denom2 arr1 arr2) 0); [reflexivity|contradiction].
    + intros H1 H2.
      destruct (Req_dec_T (denom1 arr1 arr2) 0); [contradiction|].
      destruct (Req_dec_T (denom2 arr1 arr2) 0); [contradiction|reflexivity].
  - intro arr. destruct (loop_sums arr arr eq_refl) as (_ & -> & _). split.
    + intro H. split.
      * now apply calculateCorrelation_self.
      * now apply calculateCorrelation_opp.
    + intro H. split; apply calculateCorrelation_zero.
      * right. right. now left.
      * right. right. now left.
  - intro x. destruct (loop_sums [x] [x] eq_refl) as (_ & -> & _).
    pose proof (sumSquares_one x) as H.
    split; [exact H|].
    split; apply calculateCorrelation_zero; right; right; now left.
Qed.

Lemma sumSquares_1_2 : sumSquares [1; 2] = / 2.
Proof.
  unfold sumSquares, covariance, mean. simpl. field.
Qed.

Lemma correlation_of_a_series_with_itself_and_its_negation_witness :
  denom1 [1; 2] [1; 2] <> 0 /\
  calculateCorrelation [1; 2] [1; 2] = 1 /\
  calculateCorrelation [1; 2] (map Ropp [1; 2]) = -1.
Proof.
  assert (H : denom1 [1; 2] [1; 2] <> 0).
  { destruct (loop_sums [1; 2] [1; 2] eq_refl) as (_ & -> & _).
    rewrite sumSquares_1_2. lra. }
  split; [exact H|].
  destruct correlation_of_a_series_with_itself_and_its_negation as (_ & _ & T & _).
  apply (proj1 (T [1; 2]) H).
Defined.

(** C6 (as stated) fails: the series 5, 5, 5 has three elements and its
    correlation with itself is 0, not 1, the deviations from its mean being
    all 0. *)
Lemma constant_series_self_correlation_is_zero :
  calculateCorrelation [5; 5; 5] [5; 5; 5] = 0 /\
  calculateCorrelation [5; 5; 5] [5; 5; 5] <> 1.
Proof.
  assert (H : calculateCorrelation [5; 5; 5] [5; 5; 5] = 0).
  { apply calculateCorrelation_zero. right. right. left.
    apply zero_variance_constant. unfold mean. simpl.
    intros x [<-|[<-|[<-|[]]]]; field. }
  split; [exact H|]. rewrite H. lra.
Qed.

(** *** Rolling correlation *)

(** A slice holds the elements at its indices. *)
Lemma slice_nth {A : Type} (d : A) (data : list A) (start count : nat) :
  (start + count <= length data)%nat ->
  firstn count (skipn start data) = map (fun j => nth j data d) (seq start count).
Proof.
  revert start count. induction data as [|x data IH]; intros start count H.
  - simpl in H. assert (start = 0%nat) by lia. assert (count = 0%nat) by lia.
    subst. reflexivity.
  - destruct start as [|start].
    + destruct count as [|count]; [reflexivity|].
      simpl. f_equal. rewrite <- seq_shift, map_map.
      rewrite <- (IH 0%nat count) by (simpl in H; lia). reflexivity.
    + simpl skipn. rewrite (IH start count) by (simpl in H; lia).
      rewrite <- seq_shift, map_map. reflexivity.
Qed.

Lemma slice_rows (data : list Row.t) (window i : nat) :
  (window <= i <= length data)%nat ->
  slice (i - window) i data = rowsFrom data (i - window) window.
Proof.
  intro H. unfold slice, rowsFrom, row.
  replace (i - (i - window))%nat with window by lia.
  apply slice_nth. lia.
Qed.

Lemma rolling_length (data : list Row.t) (window : nat) :
  length (calculateRollingCorrelation data window) = (length data - window)%nat.
Proof.
  unfold calculateRollingCorrelation. now rewrite length_map, length_seq.
Qed.

Lemma rolling_nth (data : list Row.t) (window i : nat) :
  (window <= i < length data)%nat ->
  nth_error (calculateRollingCorrelation data window) (i - window)
  = Some {| CorrPoint.timestamp := Row.timestamp (row data i);
            CorrPoint.spyVixCorr :=
              calculateCorrelation
                (map Row.spy (rowsFrom data (i - window) window))
                (map Row.vix (rowsFrom data (i - window) window));
            CorrPoint.spy := Row.spy (row data i);
            CorrPoint.vix := Row.vix (row data i) |}.
Proof.
  intro Hi. unfold calculateRollingCorrelation. rewrite nth_error_map.
  assert (E : nth_error (seq window (length data - window)) (i - window)
              = Some i).
  { rewrite nth_error_nth' with (d := 0%nat) by (rewrite length_seq; lia).
    rewrite seq_nth by lia. f_equal. lia. }
  rewrite E. simpl. unfold rollingPoint.
  rewrite slice_rows by lia. reflexivity.
Qed.

(** C7 (as the code has it): for every series of length n and every window
    W the rolling correlation emits exactly one value for each index i with
    W <= i < n, in the order of the indices, with the timestamp and the two
    values of the row at i; its correlation is that of the W rows before the
    index, at i - W, ..., i - 1, the row at i itself not being part of the
    window. *)
Theorem rolling_correlation_over_the_rows_before_each_index
  (data : list Row.t) (window : nat) :
  length (calculateRollingCorrelation data window) = (length data - window)%nat /\
  forall i, (window <= i < length data)%nat ->
    nth_error (calculateRollingCorrelation data window) (i - window)
    = Some {| CorrPoint.timestamp := Row.timestamp (row data i);
              CorrPoint.spyVixCorr :=
                calculateCorrelation
                  (map Row.spy (rowsFrom data (i - window) window))
                  (map Row.vix (rowsFrom data (i - window) window));
              CorrPoint.spy := Row.spy (row data i);
              CorrPoint.vix := Row.vix (row data i) |}.
Proof.
  split; [apply rolling_length|]. intros i Hi. now apply rolling_nth.
Qed.

Lemma rolling_correlation_over_the_rows_before_each_index_witness :
  nth_error (calculateRollingCorrelation threeRows 2) 0
  = Some {| CorrPoint.timestamp := 2;
            CorrPoint.spyVixCorr := calculateCorrelation [1; 2] [1; 2];
            CorrPoint.spy := 1;
            CorrPoint.vix := 2 |}.
Proof.
  apply (proj2 (rolling_correlation_over_the_rows_before_each_index threeRows 2) 2%nat).
  simpl. lia.
Defined.

(** C7 (as stated) fails: with a window of 2 on the rows (1, 1), (2, 2),
    (1, 2) the value at index 2 is the correlation of the rows 0 and 1, which
    is 1, whereas the two rows that end at index 2, the rows 1 and 2, have a
    constant second series and so a correlation of 0. *)
Lemma rolling_window_excludes_its_index :
  option_map CorrPoint.spyVixCorr
    (nth_error (calculateRollingCorrelation threeRows 2) (2 - 2))
  = Some 1 /\
  calculateCorrelation (map Row.spy (spec_trailing threeRows 2 2))
    (map Row.vix (spec_trailing threeRows 2 2)) = 0.
Proof.
  split.
  - rewrite (rolling_nth threeRows 2 2) by (simpl; lia). simpl. f_equal.
    apply calculateCorrelation_self. rewrite sumSquares_1_2. lra.
  - apply calculateCorrelation_zero. right. right. right.
    apply zero_variance_constant. unfold mean. simpl.
    intros x [<-|[<-|[]]]; field.
Qed.

End CorrelationFacts.

(** ** Dealer exposure and gamma flip *)

Module DealerFacts.

Import Num NumFacts ObjectFacts Dealer.
Local Open Scope Q_scope.

(** The test of the loop, a negative product, holds exactly of two numbers
    of opposite signs. *)
Lemma product_negative (x y : Q) : x * y < 0 <-> opposite x y.
Proof.
  unfold opposite. split.
  - intro H.
    destruct (Q_dec x 0) as [[Hx|Hx]|Hx]; destruct (Q_dec y 0) as [[Hy|Hy]|Hy];
      try (left; split; assumption); try (right; split; assumption);
      exfalso.
    + assert (0 < (- x) * (- y)) by (apply Qmult_lt_0_compat; lra).
      assert ((- x) * (- y) == x * y) by ring. lra.
    + rewrite Hy in H. assert (x * 0 == 0) by ring. lra.
    + assert (0 < x * y) by (apply Qmult_lt_0_compat; lra). lra.
    + rewrite Hy in H. assert (x * 0 == 0) by ring. lra.
    + rewrite Hx in H. assert (0 * y == 0) by ring. lra.
    + rewrite Hx in H. assert (0 * y == 0) by ring. lra.
    + rewrite Hx in H. assert (0 * y == 0) by ring. lra.
  - intros [[Hx Hy]|[Hx Hy]].
    + assert (0 < (- x) * y) by (apply Qmult_lt_0_compat; lra).
      assert ((- x) * y == - (x * y)) by ring. lra.
    + assert (0 < x * (- y)) by (apply Qmult_lt_0_compat; lra).
      assert (x * (- y) == - (x * y)) by ring. lra.
Qed.

Lemma flips_at_0 (a b : StrikeGamma.t) (rest : list StrikeGamma.t) :
  flips_at (a :: b :: rest) 0 <->
  opposite (StrikeGamma.netGamma a) (StrikeGamma.netGamma b).
Proof.
  unfold flips_at. simpl. split.
  - intros (a' & b' & Ha & Hb & H). now injection Ha as <-; injection Hb as <-.
  - intro H. now exists a, b.
Qed.

Lemma flips_at_S (a : StrikeGamma.t) (l : list StrikeGamma.t) (i : nat) :
  flips_at (a :: l) (S i) <-> flips_at l i.
Proof. unfold flips_at. simpl. reflexivity. Qed.

(** The loop stops at the first adjacent pair of opposite signs and gives
    the mean of its strikes, and gives nothing without such a pair. *)
Lemma findGammaFlip_spec (strikes : list StrikeGamma.t) :
  match findGammaFlip strikes with
  | Some flip =>
      exists i, flips_at strikes i /\
                (forall j, (j < i)%nat -> ~ flips_at strikes j) /\
                mean_at strikes i = Some flip
  | None => forall i, ~ flips_at strikes i
  end.
Proof.
  induction strikes as [|a rest IH].
  - simpl. intros i (a & b & Ha & _). destruct i; discriminate.
  - destruct rest as [|b rest].
    + simpl. intros i (a' & b' & Ha & Hb & _). destruct i as [|[|i]]; discriminate.
    + assert (Hstep : findGammaFlip (a :: b :: rest)
                      = if Qltb (StrikeGamma.netGamma a * StrikeGamma.netGamma b) 0
                        then Some ((StrikeGamma.strike a + StrikeGamma.strike b) / 2)
                        else findGammaFlip (b :: rest)) by reflexivity.
      rewrite Hstep. clear Hstep.
      destruct (Qltb (StrikeGamma.netGamma a * StrikeGamma.netGamma b) 0) eqn:E.
      * apply Qltb_lt, product_negative in E.
        exists 0%nat. split; [now apply flips_at_0|]. split; [intros j Hj; lia|].
        reflexivity.
      * apply Qltb_ge in E.
        assert (Hno : ~ flips_at (a :: b :: rest) 0).
        { rewrite flips_at_0, <- product_negative. lra. }
        destruct (findGammaFlip (b :: rest)) as [flip|].
        -- destruct IH as (i & Hi & Hmin & Hmean).
           exists (S i). split; [now apply flips_at_S|]. split; [|exact Hmean].
           intros [|j] Hj; [exact Hno|]. rewrite flips_at_S. apply Hmin. lia.
        -- intros [|i]; [exact Hno|]. rewrite flips_at_S. apply IH.
Qed.

(** *** The strikes are sorted and pairwise different *)

Lemma addCall_strike (g d n : Q) (s : StrikeGamma.t) :
  StrikeGamma.strike (addCall g d n s) = StrikeGamma.strike s.
Proof. reflexivity. Qed.

Lemma addPut_strike (g d n : Q) (s : StrikeGamma.t) :
  StrikeGamma.strike (addPut g d n s) = StrikeGamma.strike s.
Proof. reflexivity. Qed.

Lemma addOption_keyed (strikeMap : JsObject StrikeGamma.t) (opt : DealerOption.t) :
  keyed strikeMap -> keyed (addOption strikeMap opt).
Proof.
  intros [Hd Hs]. unfold addOption.
  set (k := DealerOption.strike opt).
  assert (H : keyed (match lookup k strikeMap with
                     | Some _ => strikeMap
                     | None => strikeMap ++ [(k, emptyStrike k)]
                     end)).
  { destruct (lookup k strikeMap) eqn:E; [now split|]. split.
    - rewrite map_app. simpl. apply distinctKeys_snoc; [exact Hd|].
      now apply lookup_None.
    - apply Forall_app. split; [exact Hs|]. now repeat constructor. }
  destruct H as [Hd' Hs'].
  destruct (String.eqb (DealerOption.type opt) "CALL"); split;
    rewrite ?update_keys; try exact Hd';
    (apply update_Forall; [intros k' v Hv; exact Hv|exact Hs']).
Qed.

Lemma fold_addOption_keyed (options : list DealerOption.t)
  (strikeMap : JsObject StrikeGamma.t) :
  keyed strikeMap -> keyed (fold_left addOption options strikeMap).
Proof.
  revert strikeMap. induction options as [|opt options IH]; intros o H; simpl.
  - exact H.
  - apply IH. now apply addOption_keyed.
Qed.

Lemma aggregate_strikes (options : list DealerOption.t) :
  Permutation (map StrikeGamma.strike (aggregate options))
    (map fst (fold_left addOption options [])).
Proof.
  unfold aggregate.
  rewrite sortBy_perm, map_map. simpl.
  rewrite (Permutation_map _ (objectValues_perm _)), map_map.
  destruct (fold_addOption_keyed options []) as [_ Hs]; [split; [exact I|constructor]|].
  apply Permutation_refl'. apply map_ext_Forall. exact Hs.
Qed.

Lemma aggregate_ascending (options : list DealerOption.t) :
  ascending (aggregate options).
Proof.
  intros i a b Ha Hb.
  apply (sorted_distinct_ascending StrikeGamma.strike (aggregate options) i a b);
    try assumption.
  - apply sortBy_sorted.
  - apply (distinctKeys_perm _ _ (Permutation_sym (aggregate_strikes options))).
    apply (fold_addOption_keyed options []). split; [exact I|constructor].
Qed.

Lemma calculateDealerMetrics_some (options : list DealerOption.t) (spy : Q) :
  options <> [] -> ~ spy == 0 ->
  calculateDealerMetrics options spy
  = Some {| strikes := aggregate options;
            totalGamma :=
              fold_left (fun sum s => sum + StrikeGamma.netGamma s) (aggregate options) 0;
            totalDelta :=
              fold_left (fun sum s => sum + StrikeGamma.netDelta s) (aggregate options) 0;
            gammaFlipPoint := findGammaFlip (aggregate options);
            isShortGamma :=
              Qltb (fold_left (fun sum s => sum + StrikeGamma.netGamma s)
                      (aggregate options) 0) 0;
            maxGammaStrike := findMaxGammaStrike (aggregate options) |}.
Proof.
  intros Ho Hs. unfold calculateDealerMetrics.
  destruct options as [|opt options]; [contradiction|].
  apply Qeq_bool_false in Hs. rewrite Hs. reflexivity.
Qed.

Lemma calculateDealerMetrics_strikes (options : list DealerOption.t) (spy : Q)
  (r : Metrics) :
  calculateDealerMetrics options spy = Some r ->
  strikes r = aggregate options /\ gammaFlipPoint r = findGammaFlip (strikes r).
Proof.
  unfold calculateDealerMetrics.
  destruct ((length options =? 0)%nat || Qeq_bool spy 0); [discriminate|].
  intro H. injection H as <-. now split.
Qed.

(** C4 (as the code has it): for every non-empty options chain and
    non-zero spot the strikes of the result ascend, and the gamma-flip point
    is the mean of the strikes of the first adjacent pair whose net gammas
    have opposite signs, one negative and one positive, and is null when
    there is no such pair, a net gamma of zero never making a flip; without
    options or with a spot of 0 there is no result at all; and whenever the
    only pair of opposite signs is that of the strikes 500 and 505, the flip
    point is 502.5. *)
Theorem gamma_flip_at_first_pair_of_opposite_signs :
  (forall (options : list DealerOption.t) (spy : Q),
     options <> [] -> ~ spy == 0 ->
     exists r,
       calculateDealerMetrics options spy = Some r /\
       ascending (strikes r) /\
       match gammaFlipPoint r with
       | Some flip =>
           exists i, flips_at (strikes r) i /\
                     (forall j, (j < i)%nat -> ~ flips_at (strikes r) j) /\
                     mean_at (strikes r) i = Some flip
       | None => forall i, ~ flips_at (strikes r) i
       end) /\
  (forall (options : list DealerOption.t) (spy : Q),
     options = [] \/ spy == 0 -> calculateDealerMetrics options spy = None) /\
  (forall (options : list DealerOption.t) (spy : Q) (r : Metrics)
          (i : nat) (a b : StrikeGamma.t),
     calculateDealerMetrics options spy = Some r ->
     nth_error (strikes r) i = Some a -> nth_error (strikes r) (S i) = Some b ->
     StrikeGamma.strike a == 500 -> StrikeGamma.strike b == 505 ->
     opposite (StrikeGamma.netGamma a) (StrikeGamma.netGamma b) ->
     (forall j, j <> i -> ~ flips_at (strikes r) j) ->
     exists flip, gammaFlipPoint r = Some flip /\ flip == 502.5).
Proof.
  split; [|split].
  - intros options spy Ho Hs. eexists. split.
    + now apply calculateDealerMetrics_some.
    + simpl. split; [apply aggregate_ascending|apply findGammaFlip_spec].
  - intros options spy [->|H]; [reflexivity|].
    unfold calculateDealerMetrics. apply Qeq_bool_iff in H. rewrite H.
    now rewrite orb_true_r.
  - intros options spy r i a b Hr Ha Hb Hsa Hsb Hopp Honly.
    apply calculateDealerMetrics_strikes in Hr. destruct Hr as [_ ->].
    pose proof (findGammaFlip_spec (strikes r)) as H.
    assert (Hi : flips_at (strikes r) i) by (now exists a, b).
    destruct (findGammaFlip (strikes r)) as [flip|].
    + destruct H as (i' & Hi' & _ & Hmean). exists flip. split; [reflexivity|].
      destruct (Nat.eq_dec i' i) as [->|Hne]; [|now apply Honly in Hi'].
      unfold mean_at in Hmean. rewrite Ha, Hb in Hmean. injection Hmean as <-.
      rewrite Hsa, Hsb. reflexivity.
    + now apply H in Hi.
Qed.

Lemma gamma_flip_at_first_pair_of_opposite_signs_witness :
  exists r,
    calculateDealerMetrics ladder 500 = Some r /\
    map StrikeGamma.strike (strikes r) = [495; 500; 505; 510] /\
    exists flip, gammaFlipPoint r = Some flip /\ flip == 502.5.
Proof.
  destruct (proj1 gamma_flip_at_first_pair_of_opposite_signs ladder 500)
    as (r & Hr & _ & _).
  - discriminate.
  - discriminate.
  - exists r. split; [exact Hr|].
    vm_compute in Hr. injection Hr as <-. split; [reflexivity|].
    eexists. split; reflexivity.
Defined.

(** C4 (as stated) fails: on the chain with the strikes 500 and 505, the
    second without open interest, the net gammas are -20 and 0; their signs
    differ, so that the specification's flip is the mean 502.5, yet the code,
    whose test is a negative product, gives no flip. *)
Lemma zero_net_gamma_is_no_flip :
  option_map (fun r => map StrikeGamma.netGamma (strikes r))
    (calculateDealerMetrics zeroOiChain 500) = Some [-20.00; 0.00] /\
  option_map gammaFlipPoint (calculateDealerMetrics zeroOiChain 500) = Some None /\
  option_map (fun r => spec_gammaFlip (strikes r))
    (calculateDealerMetrics zeroOiChain 500) = Some (Some (1005 # 2)).
Proof.
  repeat split; reflexivity.
Qed.

End DealerFacts.

(** ** Moving averages, MACD and the stochastic oscillator *)

Module MovingAveragesFacts.

Import Num NumFacts MovingAverages.
Local Open Scope Q_scope.

Lemma lastN_In {A : Type} (k : nat) (arr : list A) (x : A) :
  In x (lastN k arr) -> In x arr.
Proof.
  unfold lastN. destruct (k =? 0)%nat; [trivial|].
  intro H. rewrite <- (firstn_skipn (length arr - k) arr).
  apply in_or_app. now right.
Qed.

Lemma lastN_length {A : Type} (k : nat) (arr : list A) :
  (0 < k <= length arr)%nat -> length (lastN k arr) = k.
Proof.
  intro H. unfold lastN. destruct (Nat.eqb_spec k 0); [lia|].
  rewrite length_skipn. lia.
Qed.

Lemma positive_count (n : nat) : (0 < n)%nat -> 0 < inject_Z (Z.of_nat n).
Proof. intro H. change 0 with (inject_Z 0). rewrite <- Zlt_Qlt. lia. Qed.

Lemma calculateSMA_finite (data : list Q) (period : nat) :
  data <> [] -> (0 < period)%nat ->
  calculateSMA data period
  = Some (Finite (Qsum (lastN (Nat.min period (length data)) data)
                  / inject_Z (Z.of_nat (Nat.min period (length data))))).
Proof.
  intros Hd Hp. destruct data as [|x data]; [contradiction|].
  unfold calculateSMA.
  destruct (Nat.eqb_spec (Nat.min period (length (x :: data))) 0) as [E|E];
    [simpl in E; lia|reflexivity].
Qed.

Lemma lastN_app {A : Type} (k : nat) (older recent : list A) :
  (0 < k <= length recent)%nat -> lastN k (older ++ recent) = lastN k recent.
Proof.
  intro H. unfold lastN. destruct (Nat.eqb_spec k 0); [lia|].
  rewrite length_app, skipn_app.
  replace (length older + length recent - k - length older)%nat
    with (length recent - k)%nat by lia.
  rewrite skipn_all2 by lia. reflexivity.
Qed.

(** X1: the simple moving average is null exactly on no data.  On some data
    and a period of at least 1 it is the sum of the last min(period, length)
    values divided by their number: values older than the period do not
    enter it, and a period longer than the data averages all of them.  For
    the period 0 the quotient is by 0 and the result is not a finite
    number. *)
Theorem sma_is_the_mean_of_the_last_values_only (data : list Q) (period : nat) :
  (calculateSMA data period = None <-> data = []) /\
  (data <> [] -> calculateSMA data 0 = Some NotFinite) /\
  (data <> [] -> (0 < period)%nat ->
   calculateSMA data period
   = Some (Finite (Qsum (lastN (Nat.min period (length data)) data)
                   / inject_Z (Z.of_nat (Nat.min period (length data)))))) /\
  (forall older older' recent : list Q,
     (0 < period <= length recent)%nat ->
     calculateSMA (older ++ recent) period = calculateSMA (older' ++ recent) period) /\
  (data <> [] -> (length data <= period)%nat ->
   calculateSMA data period = calculateSMA data (length data)).
Proof.
  split; [|split; [|split; [|split]]].
  - split; [|intros ->; reflexivity].
    destruct data as [|x data]; [reflexivity|]. unfold calculateSMA.
    destruct (Nat.min period (length (x :: data)) =? 0)%nat; discriminate.
  - destruct data as [|x data]; [contradiction|]. reflexivity.
  - apply calculateSMA_finite.
  - intros older older' recent H.
    assert (Hne : forall o : list Q, o ++ recent <> []).
    { intros o E. apply (f_equal (@length Q)) in E. rewrite length_app in E.
      simpl in E. lia. }
    rewrite !calculateSMA_finite by (try apply Hne; lia).
    rewrite !length_app.
    replace (Nat.min period (length older + length recent)) with period by lia.
    replace (Nat.min period (length older' + length recent)) with period by lia.
    now rewrite !lastN_app by exact H.
  - intros Hne Hle.
    assert (Hlen : (0 < length data)%nat)
      by (destruct data; [contradiction|simpl; lia]).
    rewrite !calculateSMA_finite by (try exact Hne; lia).
    replace (Nat.min period (length data)) with (length data) by lia.
    now rewrite Nat.min_id.
Qed.

Lemma sma_is_the_mean_of_the_last_values_only_witness :
  calculateSMA ([9; 9; 9] ++ [1; 2]) 2 = calculateSMA ([] ++ [1; 2]) 2.
Proof.
  apply (sma_is_the_mean_of_the_last_values_only [1] 2). simpl. lia.
Defined.

(** *** The exponential moving average *)

(** X2: the exponential moving average is null exactly on no data and is
    seeded with the first value, so that on a single value it is that
    value; one more value x turns the average e of the data before it into
    x k + e (1 - k), for k = 2 / (period + 1); and for the period 1 it is the
    last value. *)
Theorem ema_is_seeded_by_the_first_value_and_updated_in_one_step
  (data : list Q) (period : nat) :
  (calculateEMA data period = None <-> data = []) /\
  (forall x, calculateEMA [x] period = Some x) /\
  (data <> [] ->
   forall x, exists e,
     calculateEMA data period = Some e /\
     calculateEMA (data ++ [x]) period
     = Some (x * smoothing period + e * (1 - smoothing period))) /\
  (data <> [] -> exists e, calculateEMA data 1 = Some e /\ e == last data 0).
Proof.
  split; [|split; [|split]].
  - split; [|intros ->; reflexivity].
    destruct data; [reflexivity|discriminate].
  - reflexivity.
  - intros Hd x. destruct data as [|first rest]; [contradiction|].
    eexists. split; [reflexivity|].
    cbn [app calculateEMA]. rewrite fold_left_app. reflexivity.
  - intro Hd. destruct data as [|first rest]; [contradiction|].
    eexists. split; [reflexivity|]. clear.
    revert first. induction rest as [|x rest IH]; intro first.
    + reflexivity.
    + cbn [fold_left]. rewrite IH.
      change (last (first :: x :: rest) 0) with (last (x :: rest) 0).
      assert (E : forall a b c, a == b -> last (a :: rest) c == last (b :: rest) c).
      { intros a b c Hab. destruct rest; [exact Hab|reflexivity]. }
      apply E. unfold emaStep, smoothing. simpl. field.
Qed.

Lemma ema_is_seeded_by_the_first_value_and_updated_in_one_step_witness :
  exists e, calculateEMA [4; 6; 5] 1 = Some e /\ e == 5.
Proof.
  apply (ema_is_seeded_by_the_first_value_and_updated_in_one_step [4; 6; 5] 1).
  discriminate.
Defined.

(** X3: the MACD signal is the MACD times 0.15 and the histogram the MACD
    less the signal, so that the histogram always has the sign of the MACD;
    on no data and on a single value all three are 0; when one of the two
    averages is 0 the MACD is reported as 0, and otherwise it is the 12
    average less the 26 average, positive exactly when the 12 average is the
    greater. *)
Theorem macd_histogram_has_the_sign_of_the_macd (data : list Q) :
  let m := calculateMACD data in
  (signal m == macd m * 0.15 /\ histogram m == macd m - signal m) /\
  ((0 < histogram m <-> 0 < macd m) /\ (histogram m < 0 <-> macd m < 0)) /\
  (data = [] \/ (exists x, data = [x]) ->
   macd m == 0 /\ signal m == 0 /\ histogram m == 0) /\
  (forall ema12 ema26,
     calculateEMA data 12 = Some ema12 -> calculateEMA data 26 = Some ema26 ->
     (ema12 == 0 \/ ema26 == 0 -> macd m == 0) /\
     (~ ema12 == 0 -> ~ ema26 == 0 ->
      macd m == ema12 - ema26 /\ (0 < histogram m <-> ema26 < ema12))).
Proof.
  intro m.
  assert (Hs : signal m == macd m * 0.15 /\ histogram m == macd m - signal m).
  { unfold m, calculateMACD.
    destruct (calculateEMA data 12) as [e12|]; [|simpl; split; ring].
    destruct (calculateEMA data 26) as [e26|]; [|simpl; split; ring].
    destruct (Qeq_bool e12 0 || Qeq_bool e26 0); simpl; split; ring. }
  destruct Hs as [Hsig Hhist].
  assert (Hsign : (0 < histogram m <-> 0 < macd m) /\
                  (histogram m < 0 <-> macd m < 0)).
  { rewrite Hhist, Hsig. split; split; intro H; lra. }
  split; [now split|]. split; [exact Hsign|]. split.
  - intros [->|[x ->]]; [repeat split; reflexivity|].
    unfold m, calculateMACD. cbn [calculateEMA fold_left].
    destruct (Qeq_bool x 0 || Qeq_bool x 0); simpl; repeat split; ring.
  - intros e12 e26 E12 E26.
    assert (Hm : macd m = if Qeq_bool e12 0 || Qeq_bool e26 0 then 0 else e12 - e26).
    { unfold m, calculateMACD. rewrite E12, E26.
      now destruct (Qeq_bool e12 0 || Qeq_bool e26 0). }
    split.
    + intros [H|H]; apply Qeq_bool_iff in H; rewrite Hm, H;
        [reflexivity|rewrite orb_true_r; reflexivity].
    + intros H1 H2. apply Qeq_bool_false in H1, H2.
      rewrite H1, H2 in Hm. cbn [orb] in Hm.
      split; [now rewrite Hm|].
      rewrite (proj1 Hsign), Hm. split; intro H; lra.
Qed.

Lemma macd_histogram_has_the_sign_of_the_macd_witness :
  macd (calculateMACD [7]) == 0 /\ signal (calculateMACD [7]) == 0 /\
  histogram (calculateMACD [7]) == 0.
Proof.
  apply (macd_histogram_has_the_sign_of_the_macd [7]). right. now exists 7.
Defined.

(** *** The stochastic oscillator *)

Lemma calculateStochastic_window (highs lows closes : list Q) (period : nat) :
  (period <= length closes)%nat ->
  calculateStochastic highs lows closes period
  = let k := percentK (nth_error closes (length closes - 1))
               (maxOf (lastN period highs)) (minOf (lastN period lows)) in
    mkStochastic k (percentD k).
Proof.
  intro H. unfold calculateStochastic.
  destruct (Nat.ltb_spec (length closes) period); [lia|reflexivity].
Qed.

Lemma percentK_range (c hh ll : Q) :
  ll < hh -> ll <= c <= hh ->
  exists k, percentK (Some c) (Some hh) (Some ll) = Finite k /\
            0 <= k <= 100 /\ (k == 100 <-> c == hh) /\ (k == 0 <-> c == ll).
Proof.
  intros Hlt [H1 H2]. unfold percentK.
  destruct (Qeq_bool (hh - ll) 0) eqn:E.
  - apply Qeq_bool_iff in E. lra.
  - eexists. split; [reflexivity|].
    set (x := (c - ll) / (hh - ll)).
    assert (Hx : x * (hh - ll) == c - ll) by (unfold x; field; lra).
    assert (Hx0 : 0 <= x) by (unfold x; apply Qle_shift_div_l; lra).
    assert (Hx1 : x <= 1) by (unfold x; apply Qle_shift_div_r; lra).
    split; [lra|]. split.
    + split; intro H.
      * assert (Ex : x == 1) by lra. rewrite Ex in Hx. lra.
      * assert (Ex : x == 1); [|lra].
        assert (E1 : x * (hh - ll) == 1 * (hh - ll)) by (rewrite Hx, H; ring).
        apply Qmult_inj_r in E1; [exact E1|lra].
    + split; intro H.
      * assert (Ex : x == 0) by lra. rewrite Ex in Hx. lra.
      * assert (Ex : x == 0); [|lra].
        assert (E1 : x * (hh - ll) == 0 * (hh - ll)) by (rewrite Hx, H; ring).
        apply Qmult_inj_r in E1; [exact E1|lra].
Qed.

(** X4: with fewer closes than the period the stochastic oscillator is the
    neutral 50 / 50.  Otherwise, when the lowest low of the window is below
    its highest high and the latest close lies between them, %K is a number
    in [0, 100] and %D one in [35, 65]; %K is 100 exactly when the close is
    the highest high and 0 exactly when it is the lowest low.  When the two
    extremes are equal, the division is by zero and neither value is a
    finite number. *)
Theorem stochastic_range_and_degenerate_windows
  (highs lows closes : list Q) (period : nat) (c hh ll : Q) :
  (period <= length closes)%nat ->
  nth_error closes (length closes - 1) = Some c ->
  maxOf (lastN period highs) = Some hh ->
  minOf (lastN period lows) = Some ll ->
  (forall short, (length short < period)%nat ->
     calculateStochastic highs lows short period = mkStochastic (Finite 50) (Finite 50)) /\
  (ll < hh -> ll <= c <= hh ->
   exists k d,
     calculateStochastic highs lows closes period
     = mkStochastic (Finite k) (Finite d) /\
     0 <= k <= 100 /\ 35 <= d <= 65 /\
     (k == 100 <-> c == hh) /\ (k == 0 <-> c == ll)) /\
  (hh == ll ->
   calculateStochastic highs lows closes period = mkStochastic NotFinite NotFinite).
Proof.
  intros Hp Hc Hh Hl. split; [|split].
  - intros short Hs. unfold calculateStochastic.
    destruct (Nat.ltb_spec (length short) period); [reflexivity|lia].
  - intros Hlt Hin. rewrite (calculateStochastic_window _ _ _ _ Hp), Hc, Hh, Hl.
    destruct (percentK_range c hh ll Hlt Hin) as (k & -> & Hk & H100 & H0).
    exists k. eexists. split; [reflexivity|].
    split; [exact Hk|]. split; [lra|]. now split.
  - intro E. rewrite (calculateStochastic_window _ _ _ _ Hp), Hc, Hh, Hl.
    unfold percentK.
    assert (E' : Qeq_bool (hh - ll) 0 = true) by (apply Qeq_bool_iff; lra).
    now rewrite E'.
Qed.

Lemma stochastic_range_and_degenerate_windows_witness :
  exists k d,
    calculateStochastic [3; 5; 4] [1; 2; 2] [2; 4; 3] 3
    = mkStochastic (Finite k) (Finite d) /\
    0 <= k <= 100 /\ 35 <= d <= 65 /\
    (k == 100 <-> 3 == 5) /\ (k == 0 <-> 3 == 1).
Proof.
  apply (stochastic_range_and_degenerate_windows
           [3; 5; 4] [1; 2; 2] [2; 4; 3] 3 3 5 1);
    try reflexivity; try (simpl; lia); try (split; discriminate).
Defined.

End MovingAveragesFacts.

(** ** RSI on monotone series *)

Module RsiMonotoneFacts.

Import Num NumFacts Indicators IndicatorsFacts.
Local Open Scope Q_scope.

(** Without a fall among the deltas the losses stay where they are. *)
Lemma fold_rsiStep_no_fall (data : list Q) (idx : list nat) (acc : Q * Q) :
  (forall i, In i idx -> nth (i - 1) data 0 <= nth i data 0) ->
  snd (fold_left (rsiStep data) idx acc) == snd acc.
Proof.
  revert acc. induction idx as [|i idx IH]; intros [g l] H; simpl.
  - reflexivity.
  - rewrite IH by (intros j Hj; apply H; now right).
    specialize (H i (or_introl eq_refl)).
    destruct (Qgtb (nth i data 0 - nth (i - 1) data 0) 0) eqn:E; simpl.
    + reflexivity.
    + apply Qgtb_le in E. lra.
Qed.

(** With a fall at every delta the gains stay where they are and the losses
    grow. *)
Lemma fold_rsiStep_falls (data : list Q) (idx : list nat) (acc : Q * Q) :
  (forall i, In i idx -> nth i data 0 < nth (i - 1) data 0) ->
  fst (fold_left (rsiStep data) idx acc) == fst acc /\
  snd acc <= snd (fold_left (rsiStep data) idx acc) /\
  (idx <> [] -> snd acc < snd (fold_left (rsiStep data) idx acc)).
Proof.
  revert acc. induction idx as [|i idx IH]; intros [g l] H; simpl.
  - split; [reflexivity|]. split; [apply Qle_refl|]. intro E. now contradiction E.
  - assert (Hi := H i (or_introl eq_refl)).
    assert (E : Qgtb (nth i data 0 - nth (i - 1) data 0) 0 = false).
    { apply Qgtb_le. lra. }
    rewrite E.
    destruct (IH (g, l - (nth i data 0 - nth (i - 1) data 0)))
      as (H1 & H2 & _); [intros j Hj; apply H; now right|].
    simpl in H1, H2. split; [exact H1|]. simpl. split; [lra|]. intros _. lra.
Qed.

(** X5: on a series of at least 15 points whose last 14 deltas hold no fall
    (a flat series included), RSI(14) is 100; on one whose last 14 deltas are
    all falls, it is 0. *)
Theorem rsi_of_a_series_without_falls_or_without_rises (data : list Q) :
  (15 <= length data)%nat ->
  ((forall i, (length data - 14 <= i < length data)%nat ->
      nth (i - 1) data 0 <= nth i data 0) ->
   calculateRSI data 14 == 100) /\
  ((forall i, (length data - 14 <= i < length data)%nat ->
      nth i data 0 < nth (i - 1) data 0) ->
   calculateRSI data 14 == 0).
Proof.
  intro Hlen.
  assert (Hp : 0 < inject_Z (Z.of_nat 14)) by reflexivity.
  destruct (rsiSums_nonneg data 14) as [Hg Hl].
  rewrite (calculateRSI_long data 14) by lia.
  assert (Hidx : forall i, In i (seq (length data - 14) 14) ->
                           (length data - 14 <= i < length data)%nat).
  { intros i Hi. apply in_seq in Hi. lia. }
  split; intro H.
  - apply (rsiValue_100 _ _ _ Hg Hl Hp).
    unfold rsiSums. rewrite fold_rsiStep_no_fall; [reflexivity|].
    intros i Hi. apply H. now apply Hidx.
  - destruct (fold_rsiStep_falls data (seq (length data - 14) 14) (0, 0))
      as (H1 & _ & H3); [intros i Hi; apply H; now apply Hidx|].
    fold (rsiSums data 14) in H1, H3. simpl in H1, H3.
    assert (Hpos : 0 < snd (rsiSums data 14)) by (apply H3; discriminate).
    rewrite (rsiValue_loss _ _ _ Hg Hl Hp) by lra.
    rewrite H1. field. lra.
Qed.

Lemma rsi_of_a_series_without_falls_or_without_rises_witness :
  calculateRSI [3; 3; 3; 3; 3; 3; 3; 3; 3; 3; 3; 3; 3; 3; 3] 14 == 100.
Proof.
  apply (rsi_of_a_series_without_falls_or_without_rises
           [3; 3; 3; 3; 3; 3; 3; 3; 3; 3; 3; 3; 3; 3; 3]).
  - simpl. lia.
  - intros i Hi. simpl in Hi.
    do 15 (destruct i as [|i]; [simpl; apply Qle_refl|]). lia.
Defined.

End RsiMonotoneFacts.

(** ** Swing points and breaks of structure *)

Module StructureFacts.

Import Num NumFacts MovingAverages MovingAveragesFacts Levels Structure.
Local Open Scope Q_scope.
Local Open Scope string_scope.

(** The loop pushes the swings of the indices that pass its tests, in
    order. *)
Lemma fold_swingStep (data : list Candle.t) (idx : list nat)
  (hs ls : list Swing.t) :
  fold_left (swingStep data) idx (hs, ls)
  = (hs ++ map (swingHigh data) (filter (isSwingHigh data) idx),
     ls ++ map (swingLow data) (filter (isSwingLow data) idx)).
Proof.
  revert hs ls. induction idx as [|i idx IH]; intros hs ls; simpl.
  - now rewrite !app_nil_r.
  - rewrite IH.
    destruct (isSwingHigh data i); destruct (isSwingLow data i); simpl;
      rewrite <- ?app_assoc; reflexivity.
Qed.

Lemma detectSwingPoints_short (data : list Candle.t) :
  (length data < 5)%nat -> detectSwingPoints data = mkSwings [] [] ("neutral", 0).
Proof.
  intro H. unfold detectSwingPoints.
  destruct (Nat.ltb_spec (length data) 5); [reflexivity|lia].
Qed.

Lemma detectSwingPoints_long (data : list Candle.t) :
  (5 <= length data)%nat ->
  let hs := map (swingHigh data) (filter (isSwingHigh data) (seq 2 (length data - 4))) in
  let ls := map (swingLow data) (filter (isSwingLow data) (seq 2 (length data - 4))) in
  detectSwingPoints data = mkSwings hs ls (classify hs ls).
Proof.
  intro H. unfold detectSwingPoints.
  destruct (Nat.ltb_spec (length data) 5); [lia|].
  now rewrite fold_swingStep.
Qed.

Lemma highs_indices (data : list Candle.t) :
  map Swing.index (highs (detectSwingPoints data))
  = filter (isSwingHigh data) (seq 2 (length data - 4)) \/
  highs (detectSwingPoints data) = [].
Proof.
  destruct (Nat.lt_ge_cases (length data) 5) as [H|H].
  - right. now rewrite detectSwingPoints_short.
  - left. rewrite (detectSwingPoints_long data H). simpl.
    rewrite map_map. simpl. apply map_id.
Qed.

Lemma In_highs (data : list Candle.t) (h : Swing.t) :
  In h (highs (detectSwingPoints data)) <->
  exists i, (2 <= i /\ i + 2 < length data)%nat /\ isSwingHigh data i = true /\
            h = swingHigh data i.
Proof.
  destruct (Nat.lt_ge_cases (length data) 5) as [H|H].
  - rewrite detectSwingPoints_short by exact H. simpl. split; [intros []|].
    intros (i & Hi & _). lia.
  - rewrite (detectSwingPoints_long data H). simpl.
    rewrite in_map_iff. split.
    + intros (i & <- & Hi). apply filter_In in Hi. destruct Hi as [Hi Hs].
      apply in_seq in Hi. exists i. repeat split; try lia; assumption.
    + intros (i & Hi & Hs & ->). exists i. split; [reflexivity|].
      apply filter_In. split; [apply in_seq; lia|exact Hs].
Qed.

Lemma In_lows (data : list Candle.t) (l : Swing.t) :
  In l (lows (detectSwingPoints data)) <->
  exists i, (2 <= i /\ i + 2 < length data)%nat /\ isSwingLow data i = true /\
            l = swingLow data i.
Proof.
  destruct (Nat.lt_ge_cases (length data) 5) as [H|H].
  - rewrite detectSwingPoints_short by exact H. simpl. split; [intros []|].
    intros (i & Hi & _). lia.
  - rewrite (detectSwingPoints_long data H). simpl.
    rewrite in_map_iff. split.
    + intros (i & <- & Hi). apply filter_In in Hi. destruct Hi as [Hi Hs].
      apply in_seq in Hi. exists i. repeat split; try lia; assumption.
    + intros (i & Hi & Hs & ->). exists i. split; [reflexivity|].
      apply filter_In. split; [apply in_seq; lia|exact Hs].
Qed.

Lemma isSwingHigh_spec (data : list Candle.t) (i : nat) :
  isSwingHigh data i = true <->
  closeAt data (i - 2) < closeAt data i /\ closeAt data (i - 1) < closeAt data i /\
  closeAt data (i + 1) < closeAt data i /\ closeAt data (i + 2) < closeAt data i.
Proof.
  unfold isSwingHigh. rewrite !andb_true_iff, !Qgtb_gt. tauto.
Qed.

Lemma isSwingLow_spec (data : list Candle.t) (i : nat) :
  isSwingLow data i = true <->
  closeAt data i < closeAt data (i - 2) /\ closeAt data i < closeAt data (i - 1) /\
  closeAt data i < closeAt data (i + 1) /\ closeAt data i < closeAt data (i + 2).
Proof.
  unfold isSwingLow. rewrite !andb_true_iff, !Qltb_lt. tauto.
Qed.

(** X6: on fewer than 5 bars there are no swings and the trend is neutral.
    On any data the swing highs are exactly the swings of the indices i, from
    2 to the length less 3, whose close is above the closes at i - 2, i - 1,
    i + 1 and i + 2, and the swing lows those whose close is below these
    four; such a swing carries the index, the close and the timestamp of its
    bar. *)
Theorem swing_points_are_the_strict_extremes_of_five_bars (data : list Candle.t) :
  ((length data < 5)%nat -> detectSwingPoints data = mkSwings [] [] ("neutral", 0)) /\
  (forall h, In h (highs (detectSwingPoints data)) <->
     exists i, (2 <= i /\ i + 2 < length data)%nat /\
       (closeAt data (i - 2) < closeAt data i /\ closeAt data (i - 1) < closeAt data i /\
        closeAt data (i + 1) < closeAt data i /\ closeAt data (i + 2) < closeAt data i) /\
       h = swingHigh data i) /\
  (forall l, In l (lows (detectSwingPoints data)) <->
     exists i, (2 <= i /\ i + 2 < length data)%nat /\
       (closeAt data i < closeAt data (i - 2) /\ closeAt data i < closeAt data (i - 1) /\
        closeAt data i < closeAt data (i + 1) /\ closeAt data i < closeAt data (i + 2)) /\
       l = swingLow data i) /\
  (forall i, Swing.index (swingHigh data i) = i /\
             Swing.price (swingHigh data i) = closeAt data i /\
             Swing.timestamp (swingHigh data i) = Candle.timestamp (bar data i) /\
             Swing.index (swingLow data i) = i /\
             Swing.price (swingLow data i) = closeAt data i /\
             Swing.timestamp (swingLow data i) = Candle.timestamp (bar data i)).
Proof.
  split; [apply detectSwingPoints_short|]. split; [|split].
  - intro h. rewrite In_highs.
    split; intros (i & Hi & Hs & Hh); exists i; (split; [exact Hi|]);
      (split; [now apply isSwingHigh_spec|exact Hh]).
  - intro l. rewrite In_lows.
    split; intros (i & Hi & Hs & Hh); exists i; (split; [exact Hi|]);
      (split; [now apply isSwingLow_spec|exact Hh]).
  - intro i. repeat split.
Qed.

(** *** Spacing and order of the swings *)

Lemma no_swing_high_right_after (data : list Candle.t) (i j : nat) :
  isSwingHigh data i = true -> isSwingHigh data j = true ->
  (i < j)%nat -> (i + 3 <= j)%nat.
Proof.
  intros Hi Hj Hlt. apply isSwingHigh_spec in Hi. apply isSwingHigh_spec in Hj.
  destruct Hi as (_ & _ & Hi1 & Hi2). destruct Hj as (Hj2 & Hj1 & _ & _).
  destruct (Nat.eq_dec j (i + 1)) as [->|N1].
  - replace (i + 1 - 1)%nat with i in Hj1 by lia. lra.
  - destruct (Nat.eq_dec j (i + 2)) as [->|N2]; [|lia].
    replace (i + 2 - 2)%nat with i in Hj2 by lia. lra.
Qed.

Lemma no_swing_low_right_after (data : list Candle.t) (i j : nat) :
  isSwingLow data i = true -> isSwingLow data j = true ->
  (i < j)%nat -> (i + 3 <= j)%nat.
Proof.
  intros Hi Hj Hlt. apply isSwingLow_spec in Hi. apply isSwingLow_spec in Hj.
  destruct Hi as (_ & _ & Hi1 & Hi2). destruct Hj as (Hj2 & Hj1 & _ & _).
  destruct (Nat.eq_dec j (i + 1)) as [->|N1].
  - replace (i + 1 - 1)%nat with i in Hj1 by lia. lra.
  - destruct (Nat.eq_dec j (i + 2)) as [->|N2]; [|lia].
    replace (i + 2 - 2)%nat with i in Hj2 by lia. lra.
Qed.

Lemma seq_sorted (start len : nat) : StronglySorted lt (seq start len).
Proof.
  revert start. induction len as [|len IH]; intro start; simpl; constructor.
  - apply IH.
  - apply Forall_forall. intros x Hx. apply in_seq in Hx. lia.
Qed.

Lemma filter_sorted (p : nat -> bool) (l : list nat) :
  StronglySorted lt l -> StronglySorted lt (filter p l).
Proof.
  induction 1 as [|x l Hl IH Hx]; simpl; [constructor|].
  destruct (p x); [|exact IH]. constructor; [exact IH|].
  apply Forall_forall. intros y Hy. apply filter_In in Hy.
  rewrite Forall_forall in Hx. apply Hx. tauto.
Qed.

Lemma sorted_nth (l : list nat) (a b x y : nat) :
  StronglySorted lt l -> (a < b)%nat ->
  nth_error l a = Some x -> nth_error l b = Some y -> (x < y)%nat.
Proof.
  intro H. revert a b. induction H as [|z l Hl IH Hz]; intros a b Hab Ha Hb.
  - destruct a; discriminate.
  - destruct b as [|b]; [lia|]. simpl in Hb. destruct a as [|a].
    + simpl in Ha. injection Ha as <-. rewrite Forall_forall in Hz.
      apply Hz. now apply nth_error_In in Hb.
    + simpl in Ha. apply (IH a b); [lia|assumption|assumption].
Qed.

Lemma highs_sorted (data : list Candle.t) :
  StronglySorted lt (map Swing.index (highs (detectSwingPoints data))).
Proof.
  destruct (highs_indices data) as [-> | ->].
  - apply filter_sorted, seq_sorted.
  - constructor.
Qed.

Lemma lows_indices (data : list Candle.t) :
  map Swing.index (lows (detectSwingPoints data))
  = filter (isSwingLow data) (seq 2 (length data - 4)) \/
  lows (detectSwingPoints data) = [].
Proof.
  destruct (Nat.lt_ge_cases (length data) 5) as [H|H].
  - right. now rewrite detectSwingPoints_short.
  - left. rewrite (detectSwingPoints_long data H). simpl.
    rewrite map_map. simpl. apply map_id.
Qed.

Lemma lows_sorted (data : list Candle.t) :
  StronglySorted lt (map Swing.index (lows (detectSwingPoints data))).
Proof.
  destruct (lows_indices data) as [-> | ->].
  - apply filter_sorted, seq_sorted.
  - constructor.
Qed.

Lemma highs_apart (data : list Candle.t) (a b : nat) (h h' : Swing.t) :
  (a < b)%nat ->
  nth_error (highs (detectSwingPoints data)) a = Some h ->
  nth_error (highs (detectSwingPoints data)) b = Some h' ->
  (Swing.index h + 3 <= Swing.index h')%nat.
Proof.
  intros Hab Ha Hb.
  assert (Hlt : (Swing.index h < Swing.index h')%nat).
  { apply (sorted_nth _ a b _ _ (highs_sorted data) Hab);
      rewrite nth_error_map; [now rewrite Ha|now rewrite Hb]. }
  apply nth_error_In in Ha. apply nth_error_In in Hb.
  apply In_highs in Ha. apply In_highs in Hb.
  destruct Ha as (i & _ & Hi & ->). destruct Hb as (j & _ & Hj & ->).
  simpl in *. now apply (no_swing_high_right_after data).
Qed.

Lemma lows_apart (data : list Candle.t) (a b : nat) (l l' : Swing.t) :
  (a < b)%nat ->
  nth_error (lows (detectSwingPoints data)) a = Some l ->
  nth_error (lows (detectSwingPoints data)) b = Some l' ->
  (Swing.index l + 3 <= Swing.index l')%nat.
Proof.
  intros Hab Ha Hb.
  assert (Hlt : (Swing.index l < Swing.index l')%nat).
  { apply (sorted_nth _ a b _ _ (lows_sorted data) Hab);
      rewrite nth_error_map; [now rewrite Ha|now rewrite Hb]. }
  apply nth_error_In in Ha. apply nth_error_In in Hb.
  apply In_lows in Ha. apply In_lows in Hb.
  destruct Ha as (i & _ & Hi & ->). destruct Hb as (j & _ & Hj & ->).
  simpl in *. now apply (no_swing_low_right_after data).
Qed.

(** X7: the swing highs are listed in the order of their bars, and so are
    the swing lows; two swing highs, and two swing lows, are at least three
    bars apart; and no bar is both a swing high and a swing low. *)
Theorem swings_are_ordered_and_three_bars_apart (data : list Candle.t) :
  (forall a b h h', (a < b)%nat ->
     nth_error (highs (detectSwingPoints data)) a = Some h ->
     nth_error (highs (detectSwingPoints data)) b = Some h' ->
     (Swing.index h + 3 <= Swing.index h')%nat) /\
  (forall a b l l', (a < b)%nat ->
     nth_error (lows (detectSwingPoints data)) a = Some l ->
     nth_error (lows (detectSwingPoints data)) b = Some l' ->
     (Swing.index l + 3 <= Swing.index l')%nat) /\
  (forall h l, In h (highs (detectSwingPoints data)) ->
     In l (lows (detectSwingPoints data)) -> Swing.index h <> Swing.index l).
Proof.
  split; [exact (highs_apart data)|]. split; [exact (lows_apart data)|].
  intros h l Hh Hl E. apply In_highs in Hh. apply In_lows in Hl.
  destruct Hh as (i & _ & Hi & ->). destruct Hl as (j & _ & Hj & ->).
  simpl in E. subst j.
  apply isSwingHigh_spec in Hi. apply isSwingLow_spec in Hj. lra.
Qed.

Lemma swings_are_ordered_and_three_bars_apart_witness :
  exists h h',
    nth_error (highs (detectSwingPoints risingBars)) 0 = Some h /\
    nth_error (highs (detectSwingPoints risingBars)) 1 = Some h' /\
    (Swing.index h + 3 <= Swing.index h')%nat.
Proof.
  eexists. eexists. split; [reflexivity|]. split; [reflexivity|].
  apply (proj1 (swings_are_ordered_and_three_bars_apart risingBars) 0%nat 1%nat);
    [lia|reflexivity|reflexivity].
Defined.

(** *** The trend *)

Lemma classify_neutral (hs ls : list Swing.t) :
  classify hs ls = ("neutral", 0) <-> (length hs < 2 \/ length ls < 2)%nat.
Proof.
  unfold classify.
  rewrite <- (length_rev hs), <- (length_rev ls).
  destruct (rev hs) as [|h1 [|h2 hs']]; simpl; try (split; [intros _; left; lia|reflexivity]).
  destruct (rev ls) as [|l1 [|l2 ls']]; simpl; try (split; [intros _; right; lia|reflexivity]).
  split; [|lia].
  destruct (Qgtb (Swing.price h1) (Swing.price h2) && Qgtb (Swing.price l1) (Swing.price l2));
    [discriminate|].
  destruct (Qltb (Swing.price h1) (Swing.price h2) && Qltb (Swing.price l1) (Swing.price l2));
    discriminate.
Qed.

Lemma current_classify (data : list Candle.t) :
  current (detectSwingPoints data)
  = classify (highs (detectSwingPoints data)) (lows (detectSwingPoints data)).
Proof.
  destruct (Nat.lt_ge_cases (length data) 5) as [H|H].
  - now rewrite detectSwingPoints_short.
  - now rewrite (detectSwingPoints_long data H).
Qed.

Lemma two_highs_need_eight_bars (data : list Candle.t) :
  (2 <= length (highs (detectSwingPoints data)))%nat -> (8 <= length data)%nat.
Proof.
  intro H.
  destruct (nth_error (highs (detectSwingPoints data)) 0) as [h|] eqn:E0;
    [|apply nth_error_None in E0; lia].
  destruct (nth_error (highs (detectSwingPoints data)) 1) as [h'|] eqn:E1;
    [|apply nth_error_None in E1; lia].
  pose proof (highs_apart data 0 1 h h' (Nat.lt_0_succ 0) E0 E1) as Hap.
  apply nth_error_In in E0. apply nth_error_In in E1.
  apply In_highs in E0. apply In_highs in E1.
  destruct E0 as (i & Hi & _ & ->). destruct E1 as (j & Hj & _ & ->).
  simpl in Hap. lia.
Qed.

(** *** Breaks of structure *)

Lemma fold_breaks (data : list Candle.t) (swings : Swings) (idx : list nat)
  (acc : list BreakEvent.t) :
  fold_left
    (fun bos i => bos ++ bullishBreak data swings i ++ bearishBreak data swings i)
    idx acc
  = acc ++ flat_map (breaksAt data swings) idx.
Proof.
  revert acc. induction idx as [|i idx IH]; intro acc; simpl.
  - now rewrite app_nil_r.
  - rewrite IH. unfold breaksAt. now rewrite <- !app_assoc.
Qed.

Lemma bos_events (data : list Candle.t) (swings : Swings) :
  (2 <= length (highs swings))%nat -> (2 <= length (lows swings))%nat ->
  bos (detectBreakOfStructure data swings)
  = flat_map (breaksAt data swings) (seq 1 (length data - 1)).
Proof.
  intros Hh Hl. unfold detectBreakOfStructure.
  destruct (Nat.ltb_spec (length (highs swings)) 2); [lia|].
  destruct (Nat.ltb_spec (length (lows swings)) 2); [lia|].
  simpl. now rewrite fold_breaks.
Qed.

Lemma bos_none (data : list Candle.t) (swings : Swings) :
  (length (highs swings) < 2 \/ length (lows swings) < 2)%nat ->
  bos (detectBreakOfStructure data swings) = [].
Proof.
  intro H. unfold detectBreakOfStructure.
  destruct (Nat.ltb_spec (length (highs swings)) 2);
    destruct (Nat.ltb_spec (length (lows swings)) 2); simpl; try reflexivity; lia.
Qed.

(** X8: the trend is neutral exactly when there are fewer than two swing
    highs or fewer than two swing lows; on fewer than 8 bars that is always
    so, and no break of structure is found on the swings of such a series. *)
Theorem short_series_have_a_neutral_trend_and_no_breaks (data : list Candle.t) :
  (current (detectSwingPoints data) = ("neutral", 0) <->
   (length (highs (detectSwingPoints data)) < 2 \/
    length (lows (detectSwingPoints data)) < 2)%nat) /\
  ((length data < 8)%nat ->
   current (detectSwingPoints data) = ("neutral", 0) /\
   bos (detectBreakOfStructure data (detectSwingPoints data)) = []).
Proof.
  split.
  - rewrite current_classify. apply classify_neutral.
  - intro H.
    assert (Hh : (length (highs (detectSwingPoints data)) < 2)%nat).
    { destruct (Nat.lt_ge_cases (length (highs (detectSwingPoints data))) 2) as [L|L];
        [exact L|]. apply two_highs_need_eight_bars in L. lia. }
    split.
    + rewrite current_classify. apply classify_neutral. now left.
    + apply bos_none. now left.
Qed.

Lemma short_series_have_a_neutral_trend_and_no_breaks_witness :
  current (detectSwingPoints (firstn 7 risingBars)) = ("neutral", 0) /\
  bos (detectBreakOfStructure (firstn 7 risingBars)
         (detectSwingPoints (firstn 7 risingBars))) = [].
Proof.
  apply (proj2 (short_series_have_a_neutral_trend_and_no_breaks (firstn 7 risingBars))).
  simpl. lia.
Defined.

Lemma bullishBreak_spec (data : list Candle.t) (swings : Swings) (i : nat)
  (e : BreakEvent.t) :
  In e (bullishBreak data swings i) ->
  exists h, recent (highs swings) i = Some h /\
    closeAt data (i - 1) <= Swing.price h < closeAt data i /\
    bullishBreak data swings i = [e] /\
    BreakEvent.index e = i /\ BreakEvent.type e = "bullish" /\
    BreakEvent.price e = closeAt data i /\ BreakEvent.level e = Swing.price h.
Proof.
  unfold bullishBreak.
  destruct (recent (highs swings) i) as [h|]; [|intros []].
  destruct (Qle_bool (closeAt data (i - 1)) (Swing.price h)
            && Qgtb (closeAt data i) (Swing.price h)) eqn:E; [|intros []].
  intros [<-|[]]. apply andb_true_iff in E. destruct E as [E1 E2].
  apply Qle_bool_iff in E1. apply Qgtb_gt in E2.
  exists h. repeat split; assumption.
Qed.

Lemma bearishBreak_spec (data : list Candle.t) (swings : Swings) (i : nat)
  (e : BreakEvent.t) :
  In e (bearishBreak data swings i) ->
  exists l, recent (lows swings) i = Some l /\
    closeAt data i < Swing.price l <= closeAt data (i - 1) /\
    bearishBreak data swings i = [e] /\
    BreakEvent.index e = i /\ BreakEvent.type e = "bearish" /\
    BreakEvent.price e = closeAt data i /\ BreakEvent.level e = Swing.price l.
Proof.
  unfold bearishBreak.
  destruct (recent (lows swings) i) as [l|]; [|intros []].
  destruct (Qgeb (closeAt data (i - 1)) (Swing.price l)
            && Qltb (closeAt data i) (Swing.price l)) eqn:E; [|intros []].
  intros [<-|[]]. apply andb_true_iff in E. destruct E as [E1 E2].
  apply Qgeb_ge in E1. apply Qltb_lt in E2.
  exists l. repeat split; assumption.
Qed.

(** A bar gives at most one event, which carries its index. *)
Lemma breaksAt_one (data : list Candle.t) (swings : Swings) (i : nat) :
  breaksAt data swings i = [] \/
  exists e, breaksAt data swings i = [e] /\ BreakEvent.index e = i.
Proof.
  unfold breaksAt.
  destruct (bullishBreak data swings i) as [|e es] eqn:Eb.
  - destruct (bearishBreak data swings i) as [|e es] eqn:Er; [now left|].
    right. destruct (bearishBreak_spec data swings i e) as (l & _ & _ & H & Hi & _).
    { rewrite Er. now left. }
    rewrite Er in H. exists e. simpl. split; [exact H|exact Hi].
  - destruct (bullishBreak_spec data swings i e) as (h & _ & Hh & H & Hi & _).
    { rewrite Eb. now left. }
    rewrite Eb in H. injection H as ->.
    destruct (bearishBreak data swings i) as [|e' es'] eqn:Er.
    + right. exists e. simpl. now split.
    + exfalso.
      destruct (bearishBreak_spec data swings i e') as (l & _ & Hl & _).
      { rewrite Er. now left. }
      lra.
Qed.

Lemma breaks_indices (data : list Candle.t) (swings : Swings) (idx : list nat) :
  StronglySorted lt idx ->
  StronglySorted lt (map BreakEvent.index (flat_map (breaksAt data swings) idx)) /\
  (length (flat_map (breaksAt data swings) idx) <= length idx)%nat /\
  forall e, In e (flat_map (breaksAt data swings) idx) -> In (BreakEvent.index e) idx.
Proof.
  induction 1 as [|i idx Hs IH Hi]; simpl.
  - split; [constructor|]. split; [lia|]. intros e [].
  - destruct IH as (IH1 & IH2 & IH3).
    destruct (breaksAt_one data swings i) as [->|(e & -> & He)]; simpl.
    + split; [exact IH1|]. split; [lia|]. intros e He. right. now apply IH3.
    + split; [|split; [lia|]].
      * constructor; [exact IH1|]. apply Forall_forall. intros j Hj.
        apply in_map_iff in Hj. destruct Hj as (e' & <- & He').
        rewrite Forall_forall in Hi. rewrite He. apply Hi. now apply IH3.
      * intros e' [<-|He']; [now left|right; now apply IH3].
Qed.

(** X9: the change-of-character list is always empty, and there is no break
    at all without two swing highs and two swing lows.  Otherwise every
    event belongs to a bar from 1 on and carries its close; a bar gives at
    most one event, the events come in the order of the bars and are fewer
    than the bars; a bullish event has the previous close at or below its
    level and its own close above it, a bearish one the previous close at or
    above its level and its own close below it, the level being the price of
    one of the swings handed in. *)
Theorem breaks_of_structure_are_crossings_one_per_bar
  (data : list Candle.t) (swings : Swings) :
  let r := detectBreakOfStructure data swings in
  choch r = [] /\
  ((length (highs swings) < 2 \/ length (lows swings) < 2)%nat -> bos r = []) /\
  (length (bos r) <= length data - 1)%nat /\
  (forall a b e e', (a < b)%nat ->
     nth_error (bos r) a = Some e -> nth_error (bos r) b = Some e' ->
     (BreakEvent.index e < BreakEvent.index e')%nat) /\
  (forall e, In e (bos r) ->
     (1 <= BreakEvent.index e < length data)%nat /\
     BreakEvent.price e = closeAt data (BreakEvent.index e) /\
     ((BreakEvent.type e = "bullish" /\
       closeAt data (BreakEvent.index e - 1) <= BreakEvent.level e < BreakEvent.price e /\
       exists h, In h (highs swings) /\ BreakEvent.level e = Swing.price h) \/
      (BreakEvent.type e = "bearish" /\
       BreakEvent.price e < BreakEvent.level e <= closeAt data (BreakEvent.index e - 1) /\
       exists l, In l (lows swings) /\ BreakEvent.level e = Swing.price l))).
Proof.
  intro r. split.
  - unfold r, detectBreakOfStructure.
    now destruct ((length (highs swings) <? 2)%nat || (length (lows swings) <? 2)%nat).
  - split; [apply bos_none|].
    destruct (Nat.lt_ge_cases (length (highs swings)) 2) as [Hh|Hh];
      [unfold r; rewrite bos_none by (now left); simpl;
       repeat split; try lia; try (intros [|?] ? ? ? ?; discriminate);
       try contradiction; destruct a; discriminate|].
    destruct (Nat.lt_ge_cases (length (lows swings)) 2) as [Hl|Hl];
      [unfold r; rewrite bos_none by (now right); simpl;
       repeat split; try lia; try contradiction; destruct a; discriminate|].
    unfold r. rewrite (bos_events data swings Hh Hl).
    destruct (breaks_indices data swings (seq 1 (length data - 1))
                (seq_sorted 1 (length data - 1))) as (H1 & H2 & H3).
    rewrite length_seq in H2. split; [exact H2|]. split.
    + intros a b e e' Hab Ha Hb.
      apply (sorted_nth _ a b _ _ H1 Hab); rewrite nth_error_map;
        [now rewrite Ha|now rewrite Hb].
    + intros e He. pose proof (H3 e He) as Hi. apply in_seq in Hi.
      split; [lia|].
      apply in_flat_map in He. destruct He as (i & _ & He).
      unfold breaksAt in He. apply in_app_or in He. destruct He as [He|He].
      * destruct (bullishBreak_spec data swings i e He)
          as (h & Hr & Hc & _ & Ei & Et & Ep & El).
        rewrite Ei, Ep, El. split; [reflexivity|]. left. split; [exact Et|].
        split; [exact Hc|]. exists h. split; [|reflexivity].
        unfold recent in Hr. apply find_some in Hr. destruct Hr as [Hr _].
        now apply (lastN_In 3).
      * destruct (bearishBreak_spec data swings i e He)
          as (l & Hr & Hc & _ & Ei & Et & Ep & El).
        rewrite Ei, Ep, El. split; [reflexivity|]. right. split; [exact Et|].
        split; [exact Hc|]. exists l. split; [|reflexivity].
        unfold recent in Hr. apply find_some in Hr. destruct Hr as [Hr _].
        now apply (lastN_In 3).
Qed.

Lemma breaks_of_structure_are_crossings_one_per_bar_witness :
  exists e,
    nth_error (bos (detectBreakOfStructure risingBars (detectSwingPoints risingBars))) 0
    = Some e /\
    (1 <= BreakEvent.index e < length risingBars)%nat.
Proof.
  eexists. split; [reflexivity|].
  destruct (breaks_of_structure_are_crossings_one_per_bar
              risingBars (detectSwingPoints risingBars)) as (_ & _ & _ & _ & H).
  apply H. now left.
Defined.

(** *** The level a break is measured against *)

Lemma skipn_sorted (k : nat) (l : list nat) :
  StronglySorted lt l -> StronglySorted lt (skipn k l).
Proof.
  intro H. revert k. induction H as [|x l Hl IH Hx]; intro k.
  - destruct k; constructor.
  - destruct k as [|k]; [now constructor|]. simpl. apply IH.
Qed.

Lemma lastN_sorted (k : nat) (swings : list Swing.t) :
  StronglySorted lt (map Swing.index swings) ->
  StronglySorted lt (map Swing.index (lastN k swings)).
Proof.
  intro H. unfold lastN. destruct (k =? 0)%nat; [exact H|].
  rewrite <- skipn_map. now apply skipn_sorted.
Qed.

(** In a list in the order of the bars, the first swing before the bar [i]
    is the head of the list. *)
Lemma find_before_is_head (swings : list Swing.t) (i : nat) (s : Swing.t) :
  StronglySorted lt (map Swing.index swings) ->
  find (fun s => (Swing.index s <? i)%nat) swings = Some s ->
  hd_error swings = Some s.
Proof.
  destruct swings as [|s0 rest]; [discriminate|]. simpl.
  intros H. apply StronglySorted_inv in H. destruct H as [_ H].
  destruct (Nat.ltb_spec (Swing.index s0) i) as [L|L]; [congruence|].
  intro F. exfalso. apply find_some in F. destruct F as [Hin Hlt].
  apply Nat.ltb_lt in Hlt. rewrite Forall_forall in H.
  specialize (H (Swing.index s) (in_map Swing.index rest s Hin)). lia.
Qed.

(** X10: on the swings of the same data, every bullish break is measured
    against one and the same level, the price of the first of the last three
    swing highs (the third most recent one when there are three), never that
    of a later swing high; and every bearish break against the price of the
    first of the last three swing lows. *)
Theorem breaks_are_measured_against_the_oldest_of_the_last_three_swings
  (data : list Candle.t) (e : BreakEvent.t) :
  let swings := detectSwingPoints data in
  In e (bos (detectBreakOfStructure data swings)) ->
  (BreakEvent.type e = "bullish" /\
   exists h, hd_error (lastN 3 (highs swings)) = Some h /\
             BreakEvent.level e = Swing.price h /\
             (Swing.index h < BreakEvent.index e)%nat) \/
  (BreakEvent.type e = "bearish" /\
   exists l, hd_error (lastN 3 (lows swings)) = Some l /\
             BreakEvent.level e = Swing.price l /\
             (Swing.index l < BreakEvent.index e)%nat).
Proof.
  intros swings He.
  destruct (Nat.lt_ge_cases (length (highs swings)) 2) as [Hh|Hh];
    [rewrite bos_none in He by (now left); destruct He|].
  destruct (Nat.lt_ge_cases (length (lows swings)) 2) as [Hl|Hl];
    [rewrite bos_none in He by (now right); destruct He|].
  rewrite (bos_events data swings Hh Hl) in He.
  apply in_flat_map in He. destruct He as (i & _ & He).
  unfold breaksAt in He. apply in_app_or in He. destruct He as [He|He].
  - left.
    destruct (bullishBreak_spec data swings i e He)
      as (h & Hr & _ & _ & Ei & Et & _ & El).
    split; [exact Et|]. exists h. unfold recent in Hr.
    split; [|split; [exact El|]].
    + apply (find_before_is_head _ i); [|exact Hr].
      apply lastN_sorted, highs_sorted.
    + apply find_some in Hr. destruct Hr as [_ Hr]. apply Nat.ltb_lt in Hr. lia.
  - right.
    destruct (bearishBreak_spec data swings i e He)
      as (l & Hr & _ & _ & Ei & Et & _ & El).
    split; [exact Et|]. exists l. unfold recent in Hr.
    split; [|split; [exact El|]].
    + apply (find_before_is_head _ i); [|exact Hr].
      apply lastN_sorted, lows_sorted.
    + apply find_some in Hr. destruct Hr as [_ Hr]. apply Nat.ltb_lt in Hr. lia.
Qed.

Lemma breaks_are_measured_against_the_oldest_of_the_last_three_swings_witness :
  let e := BreakEvent.mk 8 "bullish" 9 7 ((9 - 7) / 7 * 100) in
  let swings := detectSwingPoints risingBars in
  In e (bos (detectBreakOfStructure risingBars swings)) /\
  ((BreakEvent.type e = "bullish" /\
    exists h, hd_error (lastN 3 (highs swings)) = Some h /\
              BreakEvent.level e = Swing.price h /\
              (Swing.index h < BreakEvent.index e)%nat) \/
   (BreakEvent.type e = "bearish" /\
    exists l, hd_error (lastN 3 (lows swings)) = Some l /\
              BreakEvent.level e = Swing.price l /\
              (Swing.index l < BreakEvent.index e)%nat)).
Proof.
  intros e swings.
  assert (H : In e (bos (detectBreakOfStructure risingBars swings))) by (now left).
  split; [exact H|].
  exact (breaks_are_measured_against_the_oldest_of_the_last_three_swings
           risingBars e H).
Defined.

End StructureFacts.

(** ** The value area of the volume profile *)

Module ValueAreaFacts.

Import Num NumFacts ObjectFacts VolumeProfile VolumeProfileFacts ValueArea.
Local Open Scope Q_scope.

Lemma Qsum_perm (l l' : list Q) : Permutation l l' -> Qsum l == Qsum l'.
Proof.
  induction 1 as [|x l l' _ IH|x y l|l l' l'' _ IH1 _ IH2].
  - reflexivity.
  - rewrite !Qsum_cons, IH. reflexivity.
  - rewrite !Qsum_cons. ring.
  - now rewrite IH1.
Qed.

Lemma totalVolume_sum (profile : list Node) :
  totalVolume profile == Qsum (map volume profile).
Proof.
  unfold totalVolume.
  assert (H : forall a, fold_left (fun sum p => sum + volume p) profile a
                        == a + Qsum (map volume profile)).
  { induction profile as [|n profile IH]; intro a; simpl.
    - change (Qsum []) with 0. ring.
    - rewrite IH, Qsum_cons. ring. }
  rewrite H. ring.
Qed.

Lemma vah_val_area (d : PriceBar.t) (ds : list PriceBar.t) :
  let r := calculateVolumeProfile (d :: ds) in
  vah r = MovingAverages.maxOf (map priceLevel (valueArea r)) /\
  val r = MovingAverages.minOf (map priceLevel (valueArea r)).
Proof. split; reflexivity. Qed.

(** *** The loop that fills the value area *)

Lemma accumulate_prefix (l : list Node) (acc v : Q) :
  exists rest, l = accumulateValueArea l acc v ++ rest.
Proof.
  revert acc. induction l as [|n l IH]; intro acc; simpl.
  - now exists [].
  - destruct (Qltb acc v); [|now exists (n :: l)].
    destruct (IH (acc + volume n)) as (rest & E). exists rest. simpl. now rewrite <- E.
Qed.

Lemma accumulate_reaches (l : list Node) (acc v : Q) :
  v <= acc + Qsum (map volume (accumulateValueArea l acc v)) \/
  accumulateValueArea l acc v = l.
Proof.
  revert acc. induction l as [|n l IH]; intro acc; simpl.
  - now right.
  - destruct (Qltb acc v) eqn:E.
    + destruct (IH (acc + volume n)) as [H|H].
      * left. simpl. rewrite Qsum_cons. lra.
      * right. now rewrite H.
    + left. apply Qltb_ge in E. change (Qsum (map volume [])) with 0. lra.
Qed.

Lemma accumulate_head (n : Node) (l : list Node) (v : Q) :
  0 < v -> exists rest, accumulateValueArea (n :: l) 0 v = n :: rest.
Proof.
  intro H. simpl. apply Qltb_lt in H. rewrite H. now eexists.
Qed.

(** *** The first node of a sort by volume is the point of control *)

Lemma sort_head (x : Node) (l : list Node) :
  exists rest, sortedByVolume (x :: l) = firstMax x l :: rest.
Proof.
  revert x. induction l as [|y l IH]; intro x.
  - now exists [].
  - destruct (IH y) as (rest & E).
    assert (Hs : sortedByVolume (x :: y :: l)
                 = insertBy (fun a b => Qle_bool (volume b) (volume a)) x
                     (sortedByVolume (y :: l))) by reflexivity.
    rewrite Hs, E. cbn [insertBy firstMax]. unfold Qgtb, Qltb.
    destruct (Qle_bool (volume (firstMax y l)) (volume x)); simpl; now eexists.
Qed.

Lemma fold_pick (l : list Node) (init : Node) :
  fold_left pick l init
  = match l with
    | [] => init
    | y :: l' =>
        if Qgtb (volume (firstMax y l')) (volume init) then firstMax y l' else init
    end.
Proof.
  revert init. induction l as [|y l IH]; intro init; [reflexivity|].
  cbn [fold_left]. rewrite IH. destruct l as [|z l].
  - reflexivity.
  - cbn [firstMax]. unfold pick.
    set (m := firstMax z l).
    destruct (Qgtb (volume y) (volume init)) eqn:E1;
      destruct (Qgtb (volume m) (volume y)) eqn:E2;
      destruct (Qgtb (volume m) (volume init)) eqn:E3;
      try reflexivity;
      rewrite ?E1; try reflexivity;
      exfalso;
      repeat match goal with
             | H : Qgtb _ _ = true |- _ => apply Qgtb_gt in H
             | H : Qgtb _ _ = false |- _ => apply Qgtb_le in H
             end; lra.
Qed.

Lemma pointOfControl_firstMax (x : Node) (l : list Node) :
  pointOfControl (x :: l) = Some (firstMax x l).
Proof.
  unfold pointOfControl. fold pick. rewrite fold_pick. f_equal.
  destruct (Qgtb (volume (firstMax x l)) (volume x)) eqn:E; [reflexivity|].
  destruct l as [|y l]; [reflexivity|]. cbn [firstMax] in *.
  destruct (Qgtb (volume (firstMax y l)) (volume x)) eqn:E'; [|reflexivity].
  congruence.
Qed.

Lemma Qmaxl_In (x : Q) (l : list Q) : In (Qmaxl x l) (x :: l).
Proof.
  unfold Qmaxl. revert x. induction l as [|y l IH]; intro x; simpl.
  - now left.
  - destruct (IH (Qmax x y)) as [H|H].
    + rewrite <- H. unfold Qmax, GenericMinMax.gmax.
      destruct (x ?= y); [left|right; left|left]; reflexivity.
    + right. now right.
Qed.

Lemma Qminl_In (x : Q) (l : list Q) : In (Qminl x l) (x :: l).
Proof.
  unfold Qminl. revert x. induction l as [|y l IH]; intro x; simpl.
  - now left.
  - destruct (IH (Qmin x y)) as [H|H].
    + rewrite <- H. unfold Qmin, GenericMinMax.gmin.
      destruct (x ?= y); [left|left|right; left]; reflexivity.
    + right. now right.
Qed.

(** X11: when the bins hold some volume the value area is not empty: VAH
    and VAL are the greatest and the least price level of its bins, which
    are bins of the profile, so that VAL <= VAH; the point of control is one
    of them, its price level lying between VAL and VAH; and together they
    hold at least 70% of the binned volume.  When the bins hold no volume,
    as on a series of one single close, the value area is empty and VAH and
    VAL are no finite numbers. *)
Theorem value_area_holds_the_point_of_control_and_seventy_percent
  (d : PriceBar.t) (ds : list PriceBar.t) :
  let r := calculateVolumeProfile (d :: ds) in
  (0 < totalBinVolume r ->
   exists vh vl p,
     vah r = Some vh /\ val r = Some vl /\ poc r = Some p /\
     In p (valueArea r) /\ vl <= priceLevel p <= vh /\
     (forall n, In n (valueArea r) -> In n (profile r) /\ vl <= priceLevel n <= vh) /\
     (exists n, In n (valueArea r) /\ priceLevel n = vh) /\
     (exists n, In n (valueArea r) /\ priceLevel n = vl) /\
     totalBinVolume r * 0.7 <= Qsum (map volume (valueArea r))) /\
  (totalBinVolume r <= 0 -> valueArea r = [] /\ vah r = None /\ val r = None).
Proof.
  intro r.
  destruct (vah_val_area d ds) as [Hvah Hval]. fold r in Hvah, Hval.
  assert (Htot : totalVolume (profile r) == totalBinVolume r)
    by apply totalVolume_sum.
  assert (Hbins : exists x l, profile r = x :: l).
  { unfold r. rewrite profile_bins. simpl. eauto. }
  destruct Hbins as (x & l & Hxl).
  assert (Hpoc : poc r = pointOfControl (profile r)) by apply poc_bins.
  clearbody r.
  split.
  - intro Hpos.
    assert (Hv : 0 < totalVolume (profile r) * 0.7) by lra.
    assert (Hs : exists rest, sortedByVolume (profile r) = firstMax x l :: rest).
    { rewrite Hxl. apply sort_head. }
    destruct Hs as (srest & Hs).
    destruct (accumulate_head (firstMax x l) srest _ Hv) as (arest & Ha).
    assert (Harea : valueArea r = firstMax x l :: arest).
    { unfold valueArea. now rewrite Hs. }
    assert (Hsub : forall n, In n (valueArea r) -> In n (profile r)).
    { intros n Hn. unfold valueArea in Hn.
      destruct (accumulate_prefix (sortedByVolume (profile r)) 0
                  (totalVolume (profile r) * 0.7)) as (rest & E).
      assert (Hp : Permutation (sortedByVolume (profile r)) (profile r))
        by apply sortBy_perm.
      apply (Permutation_in n Hp). rewrite E. apply in_or_app. left. exact Hn. }
    assert (H70 : totalBinVolume r * 0.7 <= Qsum (map volume (valueArea r))).
    { unfold valueArea.
      destruct (accumulate_reaches (sortedByVolume (profile r)) 0
                  (totalVolume (profile r) * 0.7)) as [H|H].
      - lra.
      - rewrite H.
        assert (Hp : Permutation (sortedByVolume (profile r)) (profile r))
          by apply sortBy_perm.
        rewrite (Qsum_perm _ _ (Permutation_map volume Hp)).
        fold (totalBinVolume r). lra. }
    rewrite Hvah, Hval. rewrite Harea in *.
    cbn [map MovingAverages.maxOf MovingAverages.minOf].
    set (lv := priceLevel (firstMax x l)). set (lvs := map priceLevel arest).
    assert (Hbetween : forall n, In n (firstMax x l :: arest) ->
                                 Qminl lv lvs <= priceLevel n <= Qmaxl lv lvs).
    { intros n [<-|Hn].
      - split; [apply Qminl_le_head|apply Qmaxl_ge_head].
      - split; [apply Qminl_le|apply Qmaxl_ge]; now apply in_map. }
    exists (Qmaxl lv lvs), (Qminl lv lvs), (firstMax x l).
    split; [reflexivity|]. split; [reflexivity|]. split.
    { rewrite Hpoc, Hxl. apply pointOfControl_firstMax. }
    split; [now left|]. split; [apply Hbetween; now left|]. split.
    { intros n Hn. split; [apply Hsub; exact Hn|apply Hbetween; exact Hn]. }
    split.
    { pose proof (Qmaxl_In lv lvs) as H. change (lv :: lvs)
        with (map priceLevel (firstMax x l :: arest)) in H.
      apply in_map_iff in H. destruct H as (n & E & Hn). now exists n. }
    split.
    { pose proof (Qminl_In lv lvs) as H. change (lv :: lvs)
        with (map priceLevel (firstMax x l :: arest)) in H.
      apply in_map_iff in H. destruct H as (n & E & Hn). now exists n. }
    exact H70.
  - intro Hle.
    assert (E : valueArea r = []).
    { unfold valueArea.
      destruct (sortedByVolume (profile r)) as [|n rest]; [reflexivity|].
      simpl. assert (Hf : Qltb 0 (totalVolume (profile r) * 0.7) = false)
        by (apply Qltb_ge; lra).
      now rewrite Hf. }
    split; [exact E|]. rewrite Hvah, Hval, E. now split.
Qed.

Lemma value_area_holds_the_point_of_control_and_seventy_percent_witness :
  exists vh vl p,
    vah (calculateVolumeProfile twoBars) = Some vh /\
    val (calculateVolumeProfile twoBars) = Some vl /\
    poc (calculateVolumeProfile twoBars) = Some p /\
    In p (valueArea (calculateVolumeProfile twoBars)) /\
    vl <= priceLevel p <= vh.
Proof.
  destruct (proj1 (value_area_holds_the_point_of_control_and_seventy_percent
                     (PriceBar.mk 1 (Some 10)) [PriceBar.mk 2 (Some 20)]))
    as (vh & vl & p & H1 & H2 & H3 & H4 & H5 & _).
  - reflexivity.
  - exists vh, vl, p.
    split; [exact H1|]. split; [exact H2|]. split; [exact H3|].
    split; [exact H4|exact H5].
Defined.

End ValueAreaFacts.

(** ** The walls of a chain *)

Module ChainFacts.

Import Num NumFacts ObjectFacts OptionsWalls OptionsWallsFacts ChainTotals.
Import ValueAreaFacts.
Local Open Scope Q_scope.
Local Open Scope string_scope.

(** *** Objects: presence of a key and sums over the values *)

Lemma lookup_snoc {A : Type} (k : Q) (v : A) (o : JsObject A) :
  lookup k (o ++ [(k, v)]) <> None.
Proof.
  induction o as [|[k0 v0] o IH]; simpl.
  - assert (E : Qeq_bool k k = true) by (apply Qeq_bool_iff; reflexivity).
    rewrite E. discriminate.
  - destruct (Qeq_bool k k0); [discriminate|exact IH].
Qed.

Lemma lookup_key {A : Type} (k : Q) (o : JsObject A) :
  lookup k o <> None -> exists k', In k' (map fst o) /\ k == k'.
Proof.
  induction o as [|[k0 v0] o IH]; simpl; [congruence|].
  destruct (Qeq_bool k k0) eqn:E.
  - intros _. exists k0. split; [now left|now apply Qeq_bool_iff].
  - intro H. destruct (IH H) as (k' & Hk' & E'). exists k'. split; [now right|exact E'].
Qed.

Lemma update_sum {A : Type} (m : A -> Q) (delta : Q) (k : Q) (f : A -> A)
  (o : JsObject A) :
  (forall v, m (f v) == m v + delta) -> lookup k o <> None ->
  Qsum (map (fun e => m (snd e)) (update k f o))
  == Qsum (map (fun e => m (snd e)) o) + delta.
Proof.
  intros Hf. induction o as [|[k0 v0] o IH]; simpl; [congruence|].
  destruct (Qeq_bool k k0); intro H; simpl; rewrite !Qsum_cons; simpl.
  - rewrite Hf. ring.
  - rewrite IH by exact H. ring.
Qed.

Lemma update_sum_same {A : Type} (m : A -> Q) (k : Q) (f : A -> A) (o : JsObject A) :
  (forall v, m (f v) == m v) ->
  Qsum (map (fun e => m (snd e)) (update k f o))
  == Qsum (map (fun e => m (snd e)) o).
Proof.
  intros Hf. induction o as [|[k0 v0] o IH]; simpl; [reflexivity|].
  destruct (Qeq_bool k k0); simpl; rewrite !Qsum_cons; simpl.
  - now rewrite Hf.
  - now rewrite IH.
Qed.

(** *** The loop over the contracts *)

Lemma addContract_cases (strikeData : JsObject StrikeData.t) (opt : Contract.t) :
  addContract strikeData opt
  = if isCall opt
    then update (Contract.strike opt)
           (addCall (openInterestOf opt) (volumeOf opt) (orElse (Contract.gamma opt) 0))
           (withStrike strikeData (Contract.strike opt))
    else if isPut opt
    then update (Contract.strike opt)
           (addPut (openInterestOf opt) (volumeOf opt) (orElse (Contract.gamma opt) 0))
           (withStrike strikeData (Contract.strike opt))
    else withStrike strikeData (Contract.strike opt).
Proof. reflexivity. Qed.

Lemma withStrike_present (strikeData : JsObject StrikeData.t) (strike : Q) :
  lookup strike (withStrike strikeData strike) <> None.
Proof.
  unfold withStrike. destruct (lookup strike strikeData) eqn:E.
  - congruence.
  - apply lookup_snoc.
Qed.

Lemma withStrike_keys (strikeData : JsObject StrikeData.t) (strike : Q) :
  map fst (withStrike strikeData strike) = map fst strikeData \/
  map fst (withStrike strikeData strike) = map fst strikeData ++ [strike].
Proof.
  unfold withStrike. destruct (lookup strike strikeData); [now left|].
  right. now rewrite map_app.
Qed.

Lemma withStrike_keyed (strikeData : JsObject StrikeData.t) (strike : Q) :
  keyed strikeData -> keyed (withStrike strikeData strike).
Proof.
  intros [Hd Hs]. unfold withStrike.
  destruct (lookup strike strikeData) eqn:E; [now split|]. split.
  - rewrite map_app. simpl. apply distinctKeys_snoc; [exact Hd|].
    now apply lookup_None.
  - apply Forall_app. split; [exact Hs|]. now repeat constructor.
Qed.

Lemma addContract_keys (strikeData : JsObject StrikeData.t) (opt : Contract.t) :
  map fst (addContract strikeData opt)
  = map fst (withStrike strikeData (Contract.strike opt)).
Proof.
  rewrite addContract_cases.
  destruct (isCall opt); [apply update_keys|].
  destruct (isPut opt); [apply update_keys|reflexivity].
Qed.

Lemma addContract_keyed (strikeData : JsObject StrikeData.t) (opt : Contract.t) :
  keyed strikeData -> keyed (addContract strikeData opt).
Proof.
  intro H. apply (withStrike_keyed _ (Contract.strike opt)) in H.
  destruct H as [Hd Hs]. split.
  - now rewrite addContract_keys.
  - rewrite addContract_cases.
    destruct (isCall opt); [apply update_Forall; [intros k v Hv; exact Hv|exact Hs]|].
    destruct (isPut opt); [apply update_Forall; [intros k v Hv; exact Hv|exact Hs]|].
    exact Hs.
Qed.

Lemma fold_addContract_keyed (opts : list Contract.t)
  (strikeData : JsObject StrikeData.t) :
  keyed strikeData -> keyed (fold_left addContract opts strikeData).
Proof.
  revert strikeData. induction opts as [|opt opts IH]; intros o H; simpl.
  - exact H.
  - apply IH. now apply addContract_keyed.
Qed.

(** The keys are the strikes of the contracts. *)
Lemma fold_addContract_keys (opts : list Contract.t)
  (strikeData : JsObject StrikeData.t) :
  let keys := map fst (fold_left addContract opts strikeData) in
  (forall k, In k (map fst strikeData) -> In k keys) /\
  (forall c, In c opts -> exists k, In k keys /\ Contract.strike c == k) /\
  (forall k, In k keys ->
     In k (map fst strikeData) \/ exists c, In c opts /\ Contract.strike c = k).
Proof.
  revert strikeData. induction opts as [|opt opts IH]; intro o; simpl.
  - split; [trivial|]. split; [intros c []|]. intros k Hk. now left.
  - destruct (IH (addContract o opt)) as (H1 & H2 & H3).
    pose proof (addContract_keys o opt) as Hk.
    split; [|split].
    + intros k Hin. apply H1. rewrite Hk.
      destruct (withStrike_keys o (Contract.strike opt)) as [-> | ->];
        [exact Hin|apply in_or_app; now left].
    + intros c [<-|Hc]; [|now apply H2].
      destruct (lookup_key (Contract.strike opt) _
                  (withStrike_present o (Contract.strike opt))) as (k & Hin & E).
      exists k. split; [|exact E]. apply H1. now rewrite Hk.
    + intros k Hin. destruct (H3 k Hin) as [H|(c & Hc & E)].
      * rewrite Hk in H.
        destruct (withStrike_keys o (Contract.strike opt)) as [E|E]; rewrite E in H.
        -- now left.
        -- apply in_app_or in H. destruct H as [H|[<-|[]]]; [now left|].
           right. exists opt. split; [now left|reflexivity].
      * right. exists c. split; [now right|exact E].
Qed.

(** *** The walls *)

(** The walls before they are sorted: [Object.values(strikeData).map(...)]. *)
Lemma walls_of_chain (Math_exp : Q -> Q) (rnd : nat -> Q)
  (opt : Contract.t) (opts : list Contract.t) (price : option Q) :
  let unsorted := map withMetrics (objectValues (fold_left addContract (opt :: opts) [])) in
  let r := calculateOptionsWalls Math_exp rnd (opt :: opts) price in
  walls r = sortBy (fun a b => Qle_bool (Wall.strike a) (Wall.strike b)) unsorted /\
  maxPain r = calculateMaxPain unsorted /\
  significantWalls r
  = filter (fun w => Qgeb (Wall.totalOI w) (oiThreshold 0.2 unsorted)) unsorted /\
  supportWalls r = filter (isSupport (toNumber price)) (significantWalls r) /\
  resistanceWalls r = filter (isResistance (toNumber price)) (significantWalls r).
Proof. repeat split. Qed.

Lemma unsorted_perm (opts : list Contract.t) :
  Permutation (map withMetrics (objectValues (fold_left addContract opts [])))
    (map withMetrics (map snd (fold_left addContract opts []))).
Proof. apply Permutation_map, objectValues_perm. Qed.

Lemma keyed_nil : keyed [].
Proof. split; [exact I|constructor]. Qed.

Lemma unsorted_strikes (opts : list Contract.t) :
  Permutation
    (map Wall.strike (map withMetrics (objectValues (fold_left addContract opts []))))
    (map fst (fold_left addContract opts [])).
Proof.
  rewrite (Permutation_map Wall.strike (unsorted_perm opts)), !map_map. simpl.
  destruct (fold_addContract_keyed opts [] keyed_nil) as [_ Hs].
  apply Permutation_refl'. apply map_ext_Forall. exact Hs.
Qed.

Lemma sorted_walls_perm (l : list Wall.t) :
  Permutation (sortBy (fun a b => Qle_bool (Wall.strike a) (Wall.strike b)) l) l.
Proof. apply sortBy_perm. Qed.

(** X12: on a chain that is not empty the walls ascend strictly by strike,
    one wall for each strike of the chain: every contract's strike is that of
    a wall and every wall's strike that of a contract; and the significant,
    the support and the resistance walls are walls. *)
Theorem walls_ascend_one_per_strike (Math_exp : Q -> Q) (rnd : nat -> Q)
  (opt : Contract.t) (opts : list Contract.t) (price : option Q) :
  let r := calculateOptionsWalls Math_exp rnd (opt :: opts) price in
  ascending (walls r) /\
  (forall c, In c (opt :: opts) ->
     exists w, In w (walls r) /\ Contract.strike c == Wall.strike w) /\
  (forall w, In w (walls r) ->
     exists c, In c (opt :: opts) /\ Contract.strike c = Wall.strike w) /\
  (forall w, In w (significantWalls r) -> In w (walls r)) /\
  (forall w, In w (supportWalls r) -> In w (significantWalls r)) /\
  (forall w, In w (resistanceWalls r) -> In w (significantWalls r)).
Proof.
  intro r.
  destruct (walls_of_chain Math_exp rnd opt opts price) as (Hw & _ & Hsig & Hsup & Hres).
  fold r in Hw, Hsig, Hsup, Hres. clearbody r.
  set (unsorted := map withMetrics (objectValues (fold_left addContract (opt :: opts) [])))
    in *.
  assert (Hperm : Permutation (walls r) unsorted) by (rewrite Hw; apply sorted_walls_perm).
  assert (Hstr : Permutation (map Wall.strike (walls r))
                   (map fst (fold_left addContract (opt :: opts) []))).
  { rewrite (Permutation_map Wall.strike Hperm). apply unsorted_strikes. }
  destruct (fold_addContract_keys (opt :: opts) []) as (_ & Hk1 & Hk2).
  split; [|split; [|split; [|split; [|split]]]].
  - intros i a b Ha Hb.
    apply (sorted_distinct_ascending Wall.strike (walls r) i a b); try assumption.
    + rewrite Hw. apply sortBy_sorted.
    + apply (distinctKeys_perm _ _ (Permutation_sym Hstr)).
      apply (fold_addContract_keyed (opt :: opts) [] keyed_nil).
  - intros c Hc. destruct (Hk1 c Hc) as (k & Hk & E).
    apply (Permutation_in k (Permutation_sym Hstr)) in Hk.
    apply in_map_iff in Hk. destruct Hk as (w & <- & Hw'). now exists w.
  - intros w Hin. apply (in_map Wall.strike) in Hin.
    apply (Permutation_in _ Hstr) in Hin.
    destruct (Hk2 _ Hin) as [[]|H]. exact H.
  - intros w Hin. rewrite Hsig in Hin. apply filter_In in Hin.
    apply (Permutation_in w (Permutation_sym Hperm)). tauto.
  - intros w Hin. rewrite Hsup in Hin. apply filter_In in Hin. tauto.
  - intros w Hin. rewrite Hres in Hin. apply filter_In in Hin. tauto.
Qed.

Lemma walls_ascend_one_per_strike_witness :
  exists w,
    In w (walls (calculateOptionsWalls unitExp (constantDraws 0) smallChain (Some 595))) /\
    600 == Wall.strike w.
Proof.
  destruct (walls_ascend_one_per_strike unitExp (constantDraws 0)
              (Contract.mk 600 (Some "CALL") (Some 100) None (Some 10) (Some 0.02))
              [Contract.mk 590 (Some "put") None (Some 300) (Some 20) (Some 0.01);
               Contract.mk 600 (Some "straddle") (Some 50) None None None]
              (Some 595)) as (_ & H & _).
  apply (H (Contract.mk 600 (Some "CALL") (Some 100) None (Some 10) (Some 0.02))).
  left. reflexivity.
Defined.

(** *** Open interest is conserved *)

Lemma withStrike_sum (m : StrikeData.t -> Q) (strikeData : JsObject StrikeData.t)
  (strike : Q) :
  m (emptyStrike strike) == 0 ->
  Qsum (map (fun e => m (snd e)) (withStrike strikeData strike))
  == Qsum (map (fun e => m (snd e)) strikeData).
Proof.
  intro H. unfold withStrike. destruct (lookup strike strikeData); [reflexivity|].
  rewrite map_app, Qsum_app. simpl. rewrite Qsum_cons, H.
  change (Qsum []) with 0. ring.
Qed.

Lemma call_is_no_put (opt : Contract.t) : isCall opt = true -> isPut opt = false.
Proof.
  unfold isCall, isPut. intro H. apply String.eqb_eq in H. now rewrite H.
Qed.

Lemma addContract_callOI (strikeData : JsObject StrikeData.t) (opt : Contract.t) :
  Qsum (map (fun e => StrikeData.callOI (snd e)) (addContract strikeData opt))
  == Qsum (map (fun e => StrikeData.callOI (snd e)) strikeData)
     + (if isCall opt then openInterestOf opt else 0).
Proof.
  rewrite addContract_cases.
  pose proof (withStrike_sum StrikeData.callOI strikeData (Contract.strike opt)
                (Qeq_refl 0)) as Hw.
  destruct (isCall opt).
  - rewrite (update_sum StrikeData.callOI (openInterestOf opt));
      [now rewrite Hw|intro v; reflexivity|apply withStrike_present].
  - destruct (isPut opt).
    + rewrite (update_sum_same StrikeData.callOI); [rewrite Hw; ring|intro v; reflexivity].
    + rewrite Hw. ring.
Qed.

Lemma addContract_putOI (strikeData : JsObject StrikeData.t) (opt : Contract.t) :
  Qsum (map (fun e => StrikeData.putOI (snd e)) (addContract strikeData opt))
  == Qsum (map (fun e => StrikeData.putOI (snd e)) strikeData)
     + (if isPut opt then openInterestOf opt else 0).
Proof.
  rewrite addContract_cases.
  pose proof (withStrike_sum StrikeData.putOI strikeData (Contract.strike opt)
                (Qeq_refl 0)) as Hw.
  destruct (isCall opt) eqn:Ec.
  - rewrite (call_is_no_put opt Ec).
    rewrite (update_sum_same StrikeData.putOI); [rewrite Hw; ring|intro v; reflexivity].
  - destruct (isPut opt).
    + rewrite (update_sum StrikeData.putOI (openInterestOf opt));
        [now rewrite Hw|intro v; reflexivity|apply withStrike_present].
    + rewrite Hw. ring.
Qed.

Lemma fold_addContract_callOI (opts : list Contract.t)
  (strikeData : JsObject StrikeData.t) :
  Qsum (map (fun e => StrikeData.callOI (snd e)) (fold_left addContract opts strikeData))
  == Qsum (map (fun e => StrikeData.callOI (snd e)) strikeData) + callOpenInterest opts.
Proof.
  revert strikeData. induction opts as [|opt opts IH]; intro o; simpl.
  - unfold callOpenInterest. simpl. change (Qsum []) with 0. ring.
  - rewrite IH, addContract_callOI. unfold callOpenInterest. simpl.
    destruct (isCall opt); simpl; rewrite ?Qsum_cons; ring.
Qed.

Lemma fold_addContract_putOI (opts : list Contract.t)
  (strikeData : JsObject StrikeData.t) :
  Qsum (map (fun e => StrikeData.putOI (snd e)) (fold_left addContract opts strikeData))
  == Qsum (map (fun e => StrikeData.putOI (snd e)) strikeData) + putOpenInterest opts.
Proof.
  revert strikeData. induction opts as [|opt opts IH]; intro o; simpl.
  - unfold putOpenInterest. simpl. change (Qsum []) with 0. ring.
  - rewrite IH, addContract_putOI. unfold putOpenInterest. simpl.
    destruct (isPut opt); simpl; rewrite ?Qsum_cons; ring.
Qed.

Lemma Qsum_map_plus {A : Type} (f g : A -> Q) (l : list A) :
  Qsum (map (fun x => f x + g x) l) == Qsum (map f l) + Qsum (map g l).
Proof.
  induction l as [|x l IH]; simpl.
  - change (Qsum []) with 0. ring.
  - rewrite !Qsum_cons, IH. ring.
Qed.

(** X13: the open interest of the chain is conserved by the walls: their
    call open interests add up to the open interest of the contracts whose
    type is "call" in any letter case, their put open interests to that of
    the contracts whose type is "put", a contract of any other type adding
    to neither; and the total open interests of the walls add up to the sum
    of the two. *)
Theorem walls_conserve_open_interest (Math_exp : Q -> Q) (rnd : nat -> Q)
  (opt : Contract.t) (opts : list Contract.t) (price : option Q) :
  let r := calculateOptionsWalls Math_exp rnd (opt :: opts) price in
  Qsum (map Wall.callOI (walls r)) == callOpenInterest (opt :: opts) /\
  Qsum (map Wall.putOI (walls r)) == putOpenInterest (opt :: opts) /\
  Qsum (map Wall.totalOI (walls r))
  == callOpenInterest (opt :: opts) + putOpenInterest (opt :: opts).
Proof.
  intro r.
  destruct (walls_of_chain Math_exp rnd opt opts price) as (Hw & _). fold r in Hw.
  clearbody r.
  assert (Hperm : Permutation (walls r)
                    (map withMetrics (map snd (fold_left addContract (opt :: opts) [])))).
  { rewrite Hw, sorted_walls_perm. apply unsorted_perm. }
  assert (Hc : Qsum (map Wall.callOI (walls r)) == callOpenInterest (opt :: opts)).
  { rewrite (Qsum_perm _ _ (Permutation_map Wall.callOI Hperm)), !map_map. simpl Wall.callOI.
    rewrite fold_addContract_callOI. simpl. change (Qsum []) with 0. ring. }
  assert (Hp : Qsum (map Wall.putOI (walls r)) == putOpenInterest (opt :: opts)).
  { rewrite (Qsum_perm _ _ (Permutation_map Wall.putOI Hperm)), !map_map. simpl Wall.putOI.
    rewrite fold_addContract_putOI. simpl. change (Qsum []) with 0. ring. }
  split; [exact Hc|]. split; [exact Hp|].
  rewrite <- Hc, <- Hp.
  rewrite (Qsum_perm _ _ (Permutation_map Wall.totalOI Hperm)).
  rewrite (Qsum_perm _ _ (Permutation_map Wall.callOI Hperm)).
  rewrite (Qsum_perm _ _ (Permutation_map Wall.putOI Hperm)).
  rewrite !map_map. simpl Wall.totalOI. simpl Wall.callOI. simpl Wall.putOI.
  apply (Qsum_map_plus (fun e => StrikeData.callOI (snd e))
           (fun e => StrikeData.putOI (snd e))).
Qed.

(** *** Max pain of a chain *)

Lemma filter_perm {A : Type} (p : A -> bool) (l l' : list A) :
  Permutation l l' -> Permutation (filter p l) (filter p l').
Proof.
  induction 1 as [|x l l' _ IH|x y l|l l' l'' _ IH1 _ IH2]; simpl.
  - constructor.
  - destruct (p x); [now constructor|exact IH].
  - destruct (p x); destruct (p y); try reflexivity. apply perm_swap.
  - now rewrite IH1.
Qed.

Lemma spec_totalPain_perm (l l' : list Wall.t) (c : Q) :
  Permutation l l' -> spec_totalPain l c == spec_totalPain l' c.
Proof.
  intro H. unfold spec_totalPain.
  rewrite (Qsum_perm _ _ (Permutation_map _ (filter_perm (fun w => Qltb (Wall.strike w) c) _ _ H))).
  rewrite (Qsum_perm _ _ (Permutation_map _ (filter_perm (fun w => Qltb c (Wall.strike w)) _ _ H))).
  reflexivity.
Qed.

Lemma minimizes_pain_perm (l l' : list Wall.t) (c : Q) :
  Permutation l l' -> minimizes_pain l c -> minimizes_pain l' c.
Proof.
  intros H [Hin Hmin]. split.
  - apply (Permutation_in c (Permutation_map Wall.strike H)). exact Hin.
  - intros c' Hc'. rewrite <- !(spec_totalPain_perm l l') by exact H.
    apply Hmin. apply (Permutation_in c' (Permutation_map Wall.strike (Permutation_sym H))).
    exact Hc'.
Qed.

Lemma calculateMaxPain_minimizes (l : list Wall.t) :
  l <> [] -> exists c, calculateMaxPain l = Some c /\ minimizes_pain l c.
Proof.
  intro Hl. unfold calculateMaxPain.
  pose proof (calculateMaxPain_best l) as H.
  destruct (fold_left (maxPainStep l) l (None, None)) as [[c|] [m|]];
    simpl in *; try contradiction.
  exists c. split; [reflexivity|]. destruct H as (Hm & Hin & Hmin).
  split; [exact Hin|]. intros c' Hc'. apply in_map_iff in Hc'.
  destruct Hc' as (w & <- & Hw).
  rewrite <- !totalPainAt_spec, <- Hm. now apply Hmin.
Qed.

(** X14: on a chain that is not empty the walls builder always reports a
    max pain; it is the strike of one of the contracts, and among the strikes
    of the walls it is one of least total pain. *)
Theorem walls_max_pain_is_a_strike_of_least_pain (Math_exp : Q -> Q)
  (rnd : nat -> Q) (opt : Contract.t) (opts : list Contract.t) (price : option Q) :
  let r := calculateOptionsWalls Math_exp rnd (opt :: opts) price in
  exists c,
    maxPain r = Some c /\
    (exists k, In k (opt :: opts) /\ Contract.strike k = c) /\
    minimizes_pain (walls r) c.
Proof.
  intro r.
  destruct (walls_of_chain Math_exp rnd opt opts price) as (Hw & Hm & _).
  fold r in Hw, Hm. clearbody r.
  set (unsorted := map withMetrics (objectValues (fold_left addContract (opt :: opts) [])))
    in *.
  assert (Hperm : Permutation unsorted (walls r))
    by (rewrite Hw; apply Permutation_sym, sorted_walls_perm).
  destruct (fold_addContract_keys (opt :: opts) []) as (_ & Hk1 & Hk2).
  assert (Hne : unsorted <> []).
  { destruct (Hk1 opt (or_introl eq_refl)) as (k & Hk & _).
    apply (Permutation_in k (Permutation_sym (unsorted_strikes (opt :: opts)))) in Hk.
    fold unsorted in Hk. intro E. rewrite E in Hk. destruct Hk. }
  destruct (calculateMaxPain_minimizes unsorted Hne) as (c & Hc & Hmin).
  exists c. split; [now rewrite Hm|]. split.
  - destruct Hmin as [Hin _].
    apply (Permutation_in c (unsorted_strikes (opt :: opts))) in Hin.
    destruct (Hk2 c Hin) as [[]|H]. exact H.
  - now apply (minimizes_pain_perm unsorted).
Qed.

(** *** Significant walls *)

Lemma rank_in_range (n : nat) :
  (0 < n)%nat -> (Z.to_nat (Qfloor (inject_Z (Z.of_nat n) * 0.2)) < n)%nat.
Proof.
  intro H.
  assert (Hn : 0 < inject_Z (Z.of_nat n)).
  { change 0 with (inject_Z 0). rewrite <- Zlt_Qlt. lia. }
  pose proof (Qfloor_le (inject_Z (Z.of_nat n) * 0.2)) as Hf.
  assert (Hlt : inject_Z (Qfloor (inject_Z (Z.of_nat n) * 0.2)) < inject_Z (Z.of_nat n))
    by lra.
  rewrite <- Zlt_Qlt in Hlt.
  assert (H0 : (0 <= Qfloor (inject_Z (Z.of_nat n) * 0.2))%Z).
  { change 0%Z with (Qfloor 0). apply Qfloor_resp_le. lra. }
  lia.
Qed.

Lemma threshold_is_met (l : list Wall.t) :
  l <> [] ->
  exists w, In w l /\ Qgeb (Wall.totalOI w) (oiThreshold 0.2 l) = true.
Proof.
  intro Hl. unfold oiThreshold.
  set (sorted := sortBy (fun a b => Qle_bool (Wall.totalOI b) (Wall.totalOI a)) l).
  assert (Hp : Permutation sorted l) by apply sortBy_perm.
  assert (Hlen : (0 < length sorted)%nat).
  { rewrite (Permutation_length Hp). destruct l; [contradiction|simpl; lia]. }
  destruct (nth_error sorted (Z.to_nat (Qfloor (inject_Z (Z.of_nat (length sorted)) * 0.2))))
    as [w|] eqn:E.
  - exists w. split; [apply (Permutation_in w Hp); now apply nth_error_In in E|].
    simpl. apply Qgeb_ge. unfold orElse.
    destruct (Qeq_bool (Wall.totalOI w) 0) eqn:E0.
    + apply Qeq_bool_iff in E0. lra.
    + apply Qle_refl.
  - apply nth_error_None in E. pose proof (rank_in_range _ Hlen). lia.
Qed.

(** X15: on a chain that is not empty at least one wall is significant; a
    support wall lies below the current price with more put than call open
    interest and a resistance wall above it with more call than put open
    interest, so that no wall is both. *)
Theorem some_wall_is_significant_and_none_is_both_support_and_resistance
  (Math_exp : Q -> Q) (rnd : nat -> Q) (opt : Contract.t) (opts : list Contract.t)
  (price : option Q) :
  let r := calculateOptionsWalls Math_exp rnd (opt :: opts) price in
  significantWalls r <> [] /\
  (forall w, In w (supportWalls r) ->
     Wall.strike w < toNumber price /\ Wall.callOI w < Wall.putOI w) /\
  (forall w, In w (resistanceWalls r) ->
     toNumber price < Wall.strike w /\ Wall.putOI w < Wall.callOI w) /\
  (forall w, In w (supportWalls r) -> ~ In w (resistanceWalls r)).
Proof.
  intro r.
  destruct (walls_of_chain Math_exp rnd opt opts price) as (_ & _ & Hsig & Hsup & Hres).
  fold r in Hsig, Hsup, Hres. clearbody r.
  set (unsorted := map withMetrics (objectValues (fold_left addContract (opt :: opts) [])))
    in *.
  destruct (fold_addContract_keys (opt :: opts) []) as (_ & Hk1 & _).
  assert (Hne : unsorted <> []).
  { destruct (Hk1 opt (or_introl eq_refl)) as (k & Hk & _).
    apply (Permutation_in k (Permutation_sym (unsorted_strikes (opt :: opts)))) in Hk.
    fold unsorted in Hk. intro E. rewrite E in Hk. destruct Hk. }
  assert (Hs : forall w, In w (supportWalls r) ->
                         Wall.strike w < toNumber price /\ Wall.callOI w < Wall.putOI w).
  { intros w Hw. rewrite Hsup in Hw. apply filter_In in Hw. destruct Hw as [_ Hw].
    unfold isSupport in Hw. apply andb_true_iff in Hw. destruct Hw as [H1 H2].
    apply Qltb_lt in H1. apply Qgtb_gt in H2. now split. }
  assert (Hr : forall w, In w (resistanceWalls r) ->
                         toNumber price < Wall.strike w /\ Wall.putOI w < Wall.callOI w).
  { intros w Hw. rewrite Hres in Hw. apply filter_In in Hw. destruct Hw as [_ Hw].
    unfold isResistance in Hw. apply andb_true_iff in Hw. destruct Hw as [H1 H2].
    apply Qgtb_gt in H1. apply Qgtb_gt in H2. now split. }
  split; [|split; [exact Hs|split; [exact Hr|]]].
  - destruct (threshold_is_met unsorted Hne) as (w & Hin & Hw).
    intro E. assert (Hf : In w (significantWalls r)).
    { rewrite Hsig. apply filter_In. now split. }
    rewrite E in Hf. destruct Hf.
  - intros w H1 H2. destruct (Hs w H1). destruct (Hr w H2). lra.
Qed.

End ChainFacts.

(** ** Dealer exposure of a chain *)

Module DealerTotalsFacts.

Import Num NumFacts ObjectFacts Dealer DealerFacts DealerTotals.
Import ValueAreaFacts ChainFacts.
Local Open Scope Q_scope.
Local Open Scope string_scope.

Lemma addOption_cases (strikeMap : JsObject StrikeGamma.t) (opt : DealerOption.t) :
  addOption strikeMap opt
  = if String.eqb (DealerOption.type opt) "CALL"
    then update (DealerOption.strike opt)
           (addCall (DealerOption.gamma opt) (DealerOption.delta opt) (notional opt))
           (withStrike strikeMap (DealerOption.strike opt))
    else update (DealerOption.strike opt)
           (addPut (DealerOption.gamma opt) (DealerOption.delta opt) (notional opt))
           (withStrike strikeMap (DealerOption.strike opt)).
Proof. reflexivity. Qed.

Lemma gammaStrike_present (strikeMap : JsObject StrikeGamma.t) (strike : Q) :
  lookup strike (withStrike strikeMap strike) <> None.
Proof.
  unfold withStrike. destruct (lookup strike strikeMap) eqn:E.
  - congruence.
  - apply lookup_snoc.
Qed.

Lemma gammaStrike_sum (m : StrikeGamma.t -> Q) (strikeMap : JsObject StrikeGamma.t)
  (strike : Q) :
  m (emptyStrike strike) == 0 ->
  Qsum (map (fun e => m (snd e)) (withStrike strikeMap strike))
  == Qsum (map (fun e => m (snd e)) strikeMap).
Proof.
  intro H. unfold withStrike. destruct (lookup strike strikeMap); [reflexivity|].
  rewrite map_app, Qsum_app. simpl. rewrite Qsum_cons, H.
  change (Qsum []) with 0. ring.
Qed.

Lemma addOption_gamma (strikeMap : JsObject StrikeGamma.t) (opt : DealerOption.t) :
  Qsum (map (fun e => strikeGamma (snd e)) (addOption strikeMap opt))
  == Qsum (map (fun e => strikeGamma (snd e)) strikeMap) + gammaExposure opt.
Proof.
  rewrite addOption_cases.
  assert (Hw := gammaStrike_sum strikeGamma strikeMap (DealerOption.strike opt)).
  destruct (String.eqb (DealerOption.type opt) "CALL");
    (rewrite (update_sum strikeGamma (gammaExposure opt));
     [rewrite Hw; [reflexivity|unfold strikeGamma; simpl; ring]
     |intro v; unfold strikeGamma, gammaExposure; simpl; ring
     |apply gammaStrike_present]).
Qed.


Lemma fold_addOption_gamma (options : list DealerOption.t)
  (strikeMap : JsObject StrikeGamma.t) :
  Qsum (map (fun e => strikeGamma (snd e)) (fold_left addOption options strikeMap))
  == Qsum (map (fun e => strikeGamma (snd e)) strikeMap)
     + Qsum (map gammaExposure options).
Proof.
  revert strikeMap. induction options as [|opt options IH]; intro o; simpl.
  - change (Qsum []) with 0. ring.
  - rewrite IH, addOption_gamma, Qsum_cons. ring.
Qed.


Lemma aggregate_perm (options : list DealerOption.t) :
  Permutation (aggregate options)
    (map setNet (map snd (fold_left addOption options []))).
Proof.
  unfold aggregate. rewrite sortBy_perm. apply Permutation_map, objectValues_perm.
Qed.

Lemma fold_net_sum (f : StrikeGamma.t -> Q) (l : list StrikeGamma.t) :
  fold_left (fun sum s => sum + f s) l 0 == Qsum (map f l).
Proof.
  assert (H : forall a, fold_left (fun sum s => sum + f s) l a == a + Qsum (map f l)).
  { induction l as [|s l IH]; intro a; simpl.
    - change (Qsum []) with 0. ring.
    - rewrite IH, Qsum_cons. ring. }
  rewrite H. ring.
Qed.



End DealerTotalsFacts.

(** ** Dealer exposure: signs, the flip and the greatest strike *)

Module DealerSignFacts.

Import Num NumFacts ObjectFacts Dealer DealerFacts DealerTotals DealerTotalsFacts.
Import ValueAreaFacts ChainFacts.
Local Open Scope Q_scope.
Local Open Scope string_scope.

Lemma exposure_nonpos (opt : DealerOption.t) :
  0 <= DealerOption.gamma opt -> 0 <= DealerOption.oi opt ->
  DealerOption.gamma opt * notional opt <= 0.
Proof.
  intros Hg Ho. unfold notional.
  assert (H := Qmult_le_0_compat _ _ Hg Ho).
  assert (E : DealerOption.gamma opt * (DealerOption.oi opt * 100 * -1)
              == - (100 * (DealerOption.gamma opt * DealerOption.oi opt))) by ring.
  rewrite E. lra.
Qed.

Lemma addOption_noPositive (strikeMap : JsObject StrikeGamma.t) (opt : DealerOption.t) :
  0 <= DealerOption.gamma opt -> 0 <= DealerOption.oi opt ->
  Forall noPositiveGamma strikeMap -> Forall noPositiveGamma (addOption strikeMap opt).
Proof.
  intros Hg Ho H. rewrite addOption_cases.
  assert (Hn := exposure_nonpos opt Hg Ho).
  assert (Hw : Forall noPositiveGamma (withStrike strikeMap (DealerOption.strike opt))).
  { unfold withStrike. destruct (lookup _ _); [exact H|].
    apply Forall_app. split; [exact H|].
    constructor; [|constructor]. split; simpl; lra. }
  destruct (String.eqb _ _); apply update_Forall; try exact Hw;
    intros k' v [H1 H2]; split; simpl in *; lra.
Qed.

Lemma fold_addOption_noPositive (options : list DealerOption.t)
  (strikeMap : JsObject StrikeGamma.t) :
  (forall opt, In opt options ->
     0 <= DealerOption.gamma opt /\ 0 <= DealerOption.oi opt) ->
  Forall noPositiveGamma strikeMap ->
  Forall noPositiveGamma (fold_left addOption options strikeMap).
Proof.
  revert strikeMap. induction options as [|opt options IH]; intros o Hall H; simpl.
  - exact H.
  - apply IH; [intros x Hx; apply Hall; now right|].
    destruct (Hall opt (or_introl eq_refl)) as [Hg Ho].
    now apply addOption_noPositive.
Qed.

Lemma aggregate_noPositive (options : list DealerOption.t) (s : StrikeGamma.t) :
  (forall opt, In opt options ->
     0 <= DealerOption.gamma opt /\ 0 <= DealerOption.oi opt) ->
  In s (aggregate options) -> StrikeGamma.netGamma s <= 0.
Proof.
  intros Hall Hs. apply (Permutation_in s (aggregate_perm options)) in Hs.
  apply in_map_iff in Hs. destruct Hs as (s0 & <- & Hs0).
  apply in_map_iff in Hs0. destruct Hs0 as (e & <- & He).
  assert (H := fold_addOption_noPositive options [] Hall (Forall_nil _)).
  rewrite Forall_forall in H. destruct (H e He) as [H1 H2]. simpl. lra.
Qed.

Lemma Qsum_nonpos (l : list Q) : (forall x, In x l -> x <= 0) -> Qsum l <= 0.
Proof.
  induction l as [|x l IH]; intro H.
  - change (Qsum []) with 0. lra.
  - rewrite Qsum_cons.
    assert (x <= 0) by (apply H; now left).
    assert (Qsum l <= 0) by (apply IH; intros y Hy; apply H; now right). lra.
Qed.

Lemma no_flip_without_a_positive (l : list StrikeGamma.t) :
  (forall s, In s l -> StrikeGamma.netGamma s <= 0) -> findGammaFlip l = None.
Proof.
  intro H. pose proof (findGammaFlip_spec l) as Hs.
  destruct (findGammaFlip l) as [flip|]; [|reflexivity].
  destruct Hs as (i & (a & b & Ha & Hb & Hopp) & _).
  apply nth_error_In in Ha, Hb. apply H in Ha, Hb.
  destruct Hopp as [[_ Hp]|[Hp _]]; lra.
Qed.

(** X17: for a chain whose gammas and open interests are not negative, no
    strike has a positive net gamma and the total gamma is not positive, so
    the gamma flip point is null whatever the chain; and the dealer counts
    as short gamma unless the total gamma is exactly zero. *)
Theorem chain_of_long_customers_has_no_gamma_flip
  (options : list DealerOption.t) (spy : Q) :
  (forall opt, In opt options ->
     0 <= DealerOption.gamma opt /\ 0 <= DealerOption.oi opt) ->
  options <> [] -> ~ spy == 0 ->
  exists r,
    calculateDealerMetrics options spy = Some r /\
    (forall s, In s (strikes r) -> StrikeGamma.netGamma s <= 0) /\
    totalGamma r <= 0 /\
    gammaFlipPoint r = None /\
    (isShortGamma r = false <-> totalGamma r == 0).
Proof.
  intros Hall Hne Hspy. eexists. split; [now apply calculateDealerMetrics_some|].
  simpl.
  assert (Hs : forall s, In s (aggregate options) -> StrikeGamma.netGamma s <= 0)
    by (intros s; now apply aggregate_noPositive).
  assert (Ht : fold_left (fun sum s => sum + StrikeGamma.netGamma s)
                 (aggregate options) 0 <= 0).
  { rewrite fold_net_sum. apply Qsum_nonpos. intros x Hx.
    apply in_map_iff in Hx. destruct Hx as (s & <- & Hin). now apply Hs. }
  split; [exact Hs|]. split; [exact Ht|]. split.
  - now apply no_flip_without_a_positive.
  - rewrite Qltb_ge. split; intro H; lra.
Qed.

Lemma chain_of_long_customers_has_no_gamma_flip_witness :
  exists r,
    calculateDealerMetrics ordinaryChain 595 = Some r /\
    gammaFlipPoint r = None.
Proof.
  destruct (chain_of_long_customers_has_no_gamma_flip ordinaryChain 595)
    as (r & Hr & _ & _ & Hf & _).
  - intros opt [<-|[<-|[<-|[]]]]; split; simpl; lra.
  - discriminate.
  - unfold Qeq. simpl. lia.
  - exists r. now split.
Defined.

(** *** The strike of the greatest net gamma *)

Lemma fold_pick_first (l : list StrikeGamma.t) (init : StrikeGamma.t) :
  let m := fold_left pick l init in
  let size s := Qabs (StrikeGamma.netGamma s) in
  (forall s, In s l -> size s <= size m) /\
  ((m = init /\ forall s, In s l -> size s <= size init) \/
   (exists i, nth_error l i = Some m /\ size init < size m /\
              forall j s, (j < i)%nat -> nth_error l j = Some s -> size s < size m)).
Proof.
  revert init. induction l as [|a l IH]; intro init; cbn zeta.
  - split; [intros s []|]. left. split; [reflexivity|intros s []].
  - cbn [fold_left]. fold (pick init a).
    destruct (IH (pick init a)) as [Hall Hcase]. cbn zeta in Hall, Hcase.
    set (m := fold_left pick l (pick init a)) in *.
    assert (Hp : (pick init a = a /\
                  Qabs (StrikeGamma.netGamma init) < Qabs (StrikeGamma.netGamma a)) \/
                 (pick init a = init /\
                  Qabs (StrikeGamma.netGamma a) <= Qabs (StrikeGamma.netGamma init))).
    { unfold pick. destruct (Qgtb _ _) eqn:E.
      - left. apply Qgtb_gt in E. now split.
      - right. apply Qgtb_le in E. now split. }
    destruct Hp as [[Ep Hlt]|[Ep Hle]]; rewrite Ep in Hcase.
    + destruct Hcase as [[Em Hm]|(i & Hi & Hlt' & Hbefore)].
      * split.
        -- intros s [<-|Hs]; [rewrite Em; apply Qle_refl|now apply Hall].
        -- right. exists 0%nat. split; [simpl; now rewrite Em|].
           split; [now rewrite Em|]. intros j s Hj. lia.
      * split.
        -- intros s [<-|Hs]; [lra|now apply Hall].
        -- right. exists (S i). split; [exact Hi|]. split; [lra|].
           intros [|j] s Hj Hs; simpl in Hs.
           ++ injection Hs as <-. exact Hlt'.
           ++ apply (Hbefore j); [lia|exact Hs].
    + destruct Hcase as [[Em Hm]|(i & Hi & Hlt' & Hbefore)].
      * split.
        -- intros s [<-|Hs]; [rewrite Em; exact Hle|now apply Hall].
        -- left. split; [exact Em|].
           intros s [<-|Hs]; [exact Hle|now apply Hm].
      * split.
        -- intros s [<-|Hs]; [lra|now apply Hall].
        -- right. exists (S i). split; [exact Hi|]. split; [exact Hlt'|].
           intros [|j] s Hj Hs; simpl in Hs.
           ++ injection Hs as <-. lra.
           ++ apply (Hbefore j); [lia|exact Hs].
Qed.

Lemma findMaxGammaStrike_first (l : list StrikeGamma.t) :
  l <> [] ->
  exists m i,
    findMaxGammaStrike l = Some m /\ nth_error l i = Some m /\
    (forall s, In s l ->
       Qabs (StrikeGamma.netGamma s) <= Qabs (StrikeGamma.netGamma m)) /\
    (forall j s, (j < i)%nat -> nth_error l j = Some s ->
       Qabs (StrikeGamma.netGamma s) < Qabs (StrikeGamma.netGamma m)).
Proof.
  destruct l as [|first l]; [contradiction|]. intros _.
  unfold findMaxGammaStrike. fold pick.
  destruct (fold_pick_first (first :: l) first) as [Hall Hcase].
  cbn zeta in Hall, Hcase.
  set (m := fold_left pick (first :: l) first) in *.
  destruct Hcase as [[Em _]|(i & Hi & _ & Hbefore)].
  - exists m, 0%nat. split; [reflexivity|]. split; [simpl; now rewrite Em|].
    split; [exact Hall|]. intros j s Hj. lia.
  - exists m, i. split; [reflexivity|]. split; [exact Hi|]. split; assumption.
Qed.

Lemma addOption_nonempty (strikeMap : JsObject StrikeGamma.t) (opt : DealerOption.t) :
  addOption strikeMap opt <> [].
Proof.
  intro H. apply (f_equal (map fst)) in H.
  rewrite addOption_cases in H.
  assert (Hw : map fst (withStrike strikeMap (DealerOption.strike opt)) = []).
  { destruct (String.eqb _ _); rewrite update_keys in H; exact H. }
  apply map_eq_nil in Hw.
  apply (DealerTotalsFacts.gammaStrike_present strikeMap (DealerOption.strike opt)).
  now rewrite Hw.
Qed.

Lemma fold_addOption_nonempty (options : list DealerOption.t)
  (strikeMap : JsObject StrikeGamma.t) :
  options <> [] \/ strikeMap <> [] -> fold_left addOption options strikeMap <> [].
Proof.
  revert strikeMap. induction options as [|opt options IH]; intros o H; simpl.
  - destruct H as [H|H]; [contradiction|exact H].
  - apply IH. right. apply addOption_nonempty.
Qed.

Lemma aggregate_nonempty (options : list DealerOption.t) :
  options <> [] -> aggregate options <> [].
Proof.
  intros H E. pose proof (aggregate_perm options) as Hp. rewrite E in Hp.
  apply Permutation_nil in Hp. apply map_eq_nil in Hp. apply map_eq_nil in Hp.
  apply (fold_addOption_nonempty options []); [now left|exact Hp].
Qed.

Lemma ascending_far (l : list StrikeGamma.t) :
  ascending l ->
  forall k j a b,
    nth_error l j = Some a -> nth_error l (j + S k) = Some b ->
    StrikeGamma.strike a < StrikeGamma.strike b.
Proof.
  intro Hasc. induction k as [|k IHk]; intros j a b Ha Hb.
  - apply (Hasc j); [exact Ha|]. now replace (S j) with (j + 1)%nat by lia.
  - destruct (nth_error l (S j)) as [c|] eqn:Ec.
    + apply Qlt_trans with (StrikeGamma.strike c).
      * now apply (Hasc j).
      * apply (IHk (S j)); [exact Ec|].
        now replace (S j + S k)%nat with (j + S (S k))%nat by lia.
    + apply nth_error_None in Ec.
      assert (j + S (S k) < length l)%nat by (apply nth_error_Some; congruence).
      lia.
Qed.

(** X18: the strike reported as [maxGammaStrike] is one of the aggregated
    strikes, no strike has a net gamma of greater magnitude, and of the
    strikes of that magnitude it is the lowest: every strike before it has a
    strictly smaller one. *)
Theorem max_gamma_strike_is_the_lowest_of_greatest_magnitude
  (options : list DealerOption.t) (spy : Q) (r : Metrics) :
  calculateDealerMetrics options spy = Some r ->
  exists m i,
    maxGammaStrike r = Some m /\ nth_error (strikes r) i = Some m /\
    (forall s, In s (strikes r) ->
       Qabs (StrikeGamma.netGamma s) <= Qabs (StrikeGamma.netGamma m)) /\
    (forall j s, (j < i)%nat -> nth_error (strikes r) j = Some s ->
       StrikeGamma.strike s < StrikeGamma.strike m /\
       Qabs (StrikeGamma.netGamma s) < Qabs (StrikeGamma.netGamma m)).
Proof.
  unfold calculateDealerMetrics.
  destruct (length options =? 0)%nat eqn:El; [discriminate|]. simpl.
  destruct (Qeq_bool spy 0); [discriminate|].
  intro H. injection H as <-. simpl.
  assert (Hne : options <> []) by (intros ->; discriminate).
  destruct (findMaxGammaStrike_first (aggregate options) (aggregate_nonempty _ Hne))
    as (m & i & Hm & Hi & Hall & Hbefore).
  exists m, i. repeat split; try assumption.
  - replace i with (j + S (i - S j))%nat in Hi by lia.
    exact (ascending_far _ (aggregate_ascending options) _ _ _ _ H0 Hi).
  - now apply (Hbefore j).
Qed.

Lemma max_gamma_strike_is_the_lowest_of_greatest_magnitude_witness :
  exists m,
    option_map maxGammaStrike (calculateDealerMetrics ordinaryChain 595) = Some (Some m) /\
    StrikeGamma.strike m == 590.
Proof.
  destruct (max_gamma_strike_is_the_lowest_of_greatest_magnitude ordinaryChain 595
              _ eq_refl) as (m & i & Hm & _).
  exists m. split; [simpl; now rewrite <- Hm|].
  simpl in Hm. injection Hm as <-. reflexivity.
Defined.

End DealerSignFacts.

(** ** Prediction: bounds of the scores and of the confidence *)

Module SentimentBoundsFacts.

Import Num NumFacts Sentiment SentimentFacts SentimentBounds.
Local Open Scope Q_scope.
Local Open Scope string_scope.

Lemma within_same (cb cr cs : Q) (s : Score) :
  0 <= cb -> 0 <= cr -> 0 <= cs -> within cb cr cs s s.
Proof. intros. unfold within. repeat split; try lra; lia. Qed.

Lemma within_bullish (w cb cr cs : Q) (f : String.string) (s : Score) :
  0 <= w -> w <= cb -> 0 <= cr -> w <= cs -> within cb cr cs s (bullish w f s).
Proof.
  intros. unfold within, bullish. simpl. rewrite length_app. simpl.
  repeat split; try lra; lia.
Qed.

Lemma within_bearish (w cb cr cs : Q) (f : String.string) (s : Score) :
  0 <= w -> 0 <= cb -> w <= cr -> w <= cs -> within cb cr cs s (bearish w f s).
Proof.
  intros. unfold within, bearish. simpl. rewrite length_app. simpl.
  repeat split; try lra; lia.
Qed.

Local Ltac rule_within :=
  repeat match goal with
         | |- context [if ?b then _ else _] => destruct b
         end;
  first [apply within_same | apply within_bullish | apply within_bearish]; lra.

Lemma dealerRule_within (d : Dealer.Metrics) (spy : Q) (s : Score) :
  within 2 2 2 s (dealerRule d spy s).
Proof. unfold dealerRule. rule_within. Qed.

Lemma pcrRule_within (v : VolMetrics) (s : Score) : within 1 1 1 s (pcrRule v s).
Proof. unfold pcrRule. rule_within. Qed.

Lemma ivRule_within (v : VolMetrics) (s : Score) : within 1 1 1 s (ivRule v s).
Proof. unfold ivRule. rule_within. Qed.

Lemma vixRule_within (v : VolMetrics) (s : Score) : within 2 1 2 s (vixRule v s).
Proof. unfold vixRule. rule_within. Qed.

Lemma ivSkewRule_within (v : VolMetrics) (s : Score) : within 0 1 1 s (ivSkewRule v s).
Proof. unfold ivSkewRule. rule_within. Qed.

Lemma skewRule_within (skew : Q) (s : Score) : within 1 2 2 s (skewRule skew s).
Proof. unfold skewRule. rule_within. Qed.

Lemma score_bounds (v : VolMetrics) (d : Dealer.Metrics) (spy skew : Q) :
  let s := score v d spy skew in
  bull s <= 7 /\ bear s <= 8 /\ bull s + bear s <= 9 /\
  (length (pushed s) <= 6)%nat.
Proof.
  unfold score.
  set (s0 := mkScore 0 0 []).
  set (s1 := dealerRule d spy s0). set (s2 := pcrRule v s1).
  set (s3 := ivRule v s2). set (s4 := vixRule v s3). set (s5 := ivSkewRule v s4).
  destruct (dealerRule_within d spy s0) as ((? & ?) & (? & ?) & ? & ? & ?).
  destruct (pcrRule_within v s1) as ((? & ?) & (? & ?) & ? & ? & ?).
  destruct (ivRule_within v s2) as ((? & ?) & (? & ?) & ? & ? & ?).
  destruct (vixRule_within v s3) as ((? & ?) & (? & ?) & ? & ? & ?).
  destruct (ivSkewRule_within v s4) as ((? & ?) & (? & ?) & ? & ? & ?).
  destruct (skewRule_within skew s5) as ((? & ?) & (? & ?) & ? & ? & ?).
  subst s1 s2 s3 s4 s5 s0.
  change (bull (mkScore 0 0 [])) with 0 in *.
  change (bear (mkScore 0 0 [])) with 0 in *.
  change (length (pushed (mkScore 0 0 []))) with 0%nat in *. cbn zeta.
  repeat split; try lra; lia.
Qed.

Lemma confidence_range (b r : Q) :
  0 <= b -> 0 <= r -> 1 <= b + r ->
  let c := Qabs (b - r) / (b + r) in
  0 <= c /\ c <= 1 /\ (c == 0 <-> b == r) /\ (c == 1 <-> b == 0 \/ r == 0).
Proof.
  intros Hb Hr Hs c.
  assert (Hpos : 0 < b + r) by lra.
  assert (Habs : 0 <= Qabs (b - r)) by apply Qabs_nonneg.
  assert (Hle : Qabs (b - r) <= b + r) by (apply Qabs_case; intro; lra).
  assert (Ec : c * (b + r) == Qabs (b - r)) by (unfold c; field; lra).
  split; [|split; [|split]].
  - unfold c. apply Qle_shift_div_l; [exact Hpos|]. lra.
  - unfold c. apply Qle_shift_div_r; [exact Hpos|]. lra.
  - split; intro H.
    + rewrite H in Ec. revert Ec. apply Qabs_case; intros; lra.
    + assert (E0 : Qabs (b - r) == 0) by (apply Qabs_case; intro; lra).
      rewrite E0 in Ec.
      destruct (Qmult_integral _ _ Ec) as [E|E]; [exact E|lra].
  - split; intro H.
    + rewrite H in Ec. revert Ec. apply Qabs_case; intros; [right|left]; lra.
    + assert (E1 : Qabs (b - r) == b + r)
        by (apply Qabs_case; intro; destruct H; lra).
      rewrite E1 in Ec.
      assert (E : (c - 1) * (b + r) == 0) by (ring_simplify; lra).
      destruct (Qmult_integral _ _ E) as [E'|E']; lra.
Qed.

(** X19: whatever the inputs, the bullish score is at most 7, the bearish
    score at most 8 and their sum at most 9; between one and six signals are
    returned; the confidence lies in [0, 1], is 0 exactly when the two scores
    are equal, a tie that is reported as BEARISH, and is 1 exactly when one
    of the scores is 0. *)
Theorem prediction_scores_and_confidence_are_bounded
  (now : String.string) (v : VolMetrics) (d : Dealer.Metrics) (spy skew : Q)
  (p : Prediction) :
  generatePrediction now (Some v) (Some d) spy skew = Some p ->
  (0 <= bullishScore p /\ bullishScore p <= 7) /\
  (0 <= bearishScore p /\ bearishScore p <= 8) /\
  bullishScore p + bearishScore p <= 9 /\
  (1 <= length (signals p) <= 6)%nat /\
  (0 <= confidence p /\ confidence p <= 1) /\
  (confidence p == 0 <-> bullishScore p == bearishScore p) /\
  (bullishScore p == bearishScore p -> prediction p = "BEARISH") /\
  (confidence p == 1 <-> bullishScore p == 0 \/ bearishScore p == 0).
Proof.
  unfold generatePrediction. intro H. injection H as <-. simpl.
  destruct (score_positive v d spy skew) as (Hs & Hb & Hr).
  destruct (score_bounds v d spy skew) as (Hb7 & Hr8 & H9 & Hlen).
  cbn zeta in *.
  destruct (confidence_range _ _ Hb Hr Hs) as (Hc0 & Hc1 & Hz & Ho).
  cbn zeta in *.
  assert (Hone : (1 <= length (pushed (score v d spy skew)))%nat).
  { unfold score.
    destruct (dealerRule_contributes d spy) as (_ & _ & _ & sg & Hsg & _).
    cbn zeta in Hsg.
    destruct (pcrRule_within v (dealerRule d spy (mkScore 0 0 [])))
      as (_ & _ & _ & ? & _).
    destruct (ivRule_within v (pcrRule v (dealerRule d spy (mkScore 0 0 []))))
      as (_ & _ & _ & ? & _).
    destruct (vixRule_within v
                (ivRule v (pcrRule v (dealerRule d spy (mkScore 0 0 [])))))
      as (_ & _ & _ & ? & _).
    destruct (ivSkewRule_within v
                (vixRule v (ivRule v (pcrRule v (dealerRule d spy (mkScore 0 0 []))))))
      as (_ & _ & _ & ? & _).
    destruct (skewRule_within skew
                (ivSkewRule v
                   (vixRule v (ivRule v (pcrRule v (dealerRule d spy (mkScore 0 0 [])))))))
      as (_ & _ & _ & ? & _).
    rewrite Hsg in *. simpl length in *. lia. }
  repeat split; try assumption; try (apply Hz); try (apply Ho).
  intro E. destruct (Qgtb _ _) eqn:Eg; [|reflexivity].
  apply Qgtb_gt in Eg. lra.
Qed.

Lemma prediction_scores_and_confidence_are_bounded_witness :
  exists p,
    generatePrediction "2024-01-01T00:00:00.000Z" (Some fearfulVol) (Some sampleDealer)
      (-1) 150 = Some p /\
    bearishScore p <= 8 /\ bearishScore p == 8 /\
    (length (signals p) <= 6)%nat /\ length (signals p) = 6%nat.
Proof.
  eexists. split; [reflexivity|].
  pose proof (prediction_scores_and_confidence_are_bounded
                "2024-01-01T00:00:00.000Z" fearfulVol sampleDealer (-1) 150 _ eq_refl)
    as (_ & (_ & H8) & _ & (_ & H6) & _).
  split; [exact H8|]. split; [reflexivity|]. split; [exact H6|reflexivity].
Defined.

End SentimentBoundsFacts.

(** ** Prediction from the dealer metrics of a chain *)

Module ChainPredictionFacts.

Import Num NumFacts ObjectFacts Dealer DealerFacts DealerTotals DealerTotalsFacts.
Import DealerSignFacts Sentiment SentimentFacts SentimentBounds.
Import ValueAreaFacts.
Local Open Scope Q_scope.
Local Open Scope string_scope.

Lemma pushesOthers_refl (s : Score) : pushesOthers s s.
Proof. exists []. split; [symmetry; apply app_nil_r|constructor]. Qed.

Lemma pushesOthers_trans (s s' s'' : Score) :
  pushesOthers s s' -> pushesOthers s' s'' -> pushesOthers s s''.
Proof.
  intros (e & E & F) (e' & E' & F'). exists (e ++ e').
  split; [now rewrite E', E, app_assoc|]. apply Forall_app. now split.
Qed.

Lemma pushesOthers_bullish (w : Q) (f : String.string) (s : Score) :
  f <> belowFlip -> pushesOthers s (bullish w f s).
Proof.
  intro H. eexists. split; [reflexivity|]. constructor; [exact H|constructor].
Qed.

Lemma pushesOthers_bearish (w : Q) (f : String.string) (s : Score) :
  f <> belowFlip -> pushesOthers s (bearish w f s).
Proof.
  intro H. eexists. split; [reflexivity|]. constructor; [exact H|constructor].
Qed.

Local Ltac rule_pushes :=
  repeat match goal with
         | |- context [if ?b then _ else _] => destruct b
         end;
  first [apply pushesOthers_refl
        | apply pushesOthers_bullish; discriminate
        | apply pushesOthers_bearish; discriminate].

Lemma later_rules_push_others (v : VolMetrics) (skew : Q) (s : Score) :
  pushesOthers s
    (skewRule skew (ivSkewRule v (vixRule v (ivRule v (pcrRule v s))))).
Proof.
  apply pushesOthers_trans with (pcrRule v s); [unfold pcrRule; rule_pushes|].
  apply pushesOthers_trans with (ivRule v (pcrRule v s));
    [unfold ivRule; rule_pushes|].
  apply pushesOthers_trans with (vixRule v (ivRule v (pcrRule v s)));
    [unfold vixRule; rule_pushes|].
  apply pushesOthers_trans with (ivSkewRule v (vixRule v (ivRule v (pcrRule v s))));
    [unfold ivSkewRule; rule_pushes|].
  unfold skewRule; rule_pushes.
Qed.

Lemma aggregate_totalGamma (options : list DealerOption.t) :
  fold_left (fun sum s => sum + StrikeGamma.netGamma s) (aggregate options) 0
  == Qsum (map gammaExposure options).
Proof.
  rewrite fold_net_sum.
  rewrite (Qsum_perm _ _ (Permutation_map StrikeGamma.netGamma (aggregate_perm options))).
  rewrite !map_map. simpl StrikeGamma.netGamma.
  rewrite (fold_addOption_gamma options []). simpl. change (Qsum []) with 0. ring.
Qed.

Lemma Qltb_eq (a b c : Q) : a == b -> Qltb a c = Qltb b c.
Proof.
  intro E. destruct (Qltb b c) eqn:Eb.
  - apply Qltb_lt in Eb. apply Qltb_lt. lra.
  - apply Qltb_ge in Eb. apply Qltb_ge. lra.
Qed.

(** X20: for a chain whose gammas and open interests are not negative and a
    positive spot, the prediction computed from the dealer metrics of that
    chain opens with the signal Dealer Short Gamma Above Flip when some
    option has gamma exposure and with Dealer Long Gamma (Dampening) when
    none has, and never holds the signal Dealer Short Gamma Below Flip. *)
Theorem positive_spot_over_long_customers_is_never_below_the_flip
  (now : String.string) (v : VolMetrics) (options : list DealerOption.t)
  (spy skew : Q) :
  (forall opt, In opt options ->
     0 <= DealerOption.gamma opt /\ 0 <= DealerOption.oi opt) ->
  options <> [] -> 0 < spy ->
  exists p,
    generatePrediction now (Some v) (calculateDealerMetrics options spy) spy skew
    = Some p /\
    hd_error (signals p)
    = Some (if Qltb (Qsum (map gammaExposure options)) 0
            then aboveFlipSignal else longGammaSignal) /\
    forall sg, In sg (signals p) -> factor sg <> belowFlip.
Proof.
  intros Hall Hne Hspy.
  assert (Hs0 : ~ spy == 0) by lra.
  rewrite (calculateDealerMetrics_some options spy Hne Hs0).
  set (d := {| strikes := aggregate options |}).
  eexists. split; [reflexivity|]. simpl signals.
  destruct (later_rules_push_others v skew (dealerRule d spy (mkScore 0 0 [])))
    as (ext & E & F).
  unfold score. rewrite E.
  assert (Hflip : gammaFlipPoint d = None).
  { apply no_flip_without_a_positive. intros s. now apply aggregate_noPositive. }
  assert (Hd : pushed (dealerRule d spy (mkScore 0 0 []))
               = [if Qltb (Qsum (map gammaExposure options)) 0
                  then aboveFlipSignal else longGammaSignal]).
  { unfold dealerRule. rewrite Hflip.
    assert (Hgt : Qgtb spy (toNumber None) = true) by (apply Qgtb_gt; exact Hspy).
    rewrite Hgt.
    assert (Hshort : isShortGamma d = Qltb (Qsum (map gammaExposure options)) 0).
    { exact (Qltb_eq _ _ 0 (aggregate_totalGamma options)). }
    rewrite Hshort.
    destruct (Qltb (Qsum (map gammaExposure options)) 0); reflexivity. }
  rewrite Hd. split; [reflexivity|].
  intros sg [<-|Hsg].
  - destruct (Qltb (Qsum (map gammaExposure options)) 0); discriminate.
  - rewrite Forall_forall in F. now apply F.
Qed.

Lemma positive_spot_over_long_customers_is_never_below_the_flip_witness :
  exists p,
    generatePrediction "2024-01-01T00:00:00.000Z" (Some sampleVol)
      (calculateDealerMetrics ordinaryChain 595) 595 130 = Some p /\
    signals p = [aboveFlipSignal].
Proof.
  destruct (positive_spot_over_long_customers_is_never_below_the_flip
              "2024-01-01T00:00:00.000Z" sampleVol ordinaryChain 595 130)
    as (p & Hp & _).
  - intros opt [<-|[<-|[<-|[]]]]; split; simpl; lra.
  - discriminate.
  - lra.
  - exists p. split; [exact Hp|].
    simpl in Hp. injection Hp as <-. reflexivity.
Defined.

End ChainPredictionFacts.

(** ** Correlation: range, symmetry and change of units *)

Module CorrelationBoundFacts.

Import Correlation CorrelationFacts.
Local Open Scope R_scope.

Lemma sumProducts_comm (m1 m2 : R) (arr1 arr2 : list R) :
  sumProducts m1 m2 arr1 arr2 = sumProducts m2 m1 arr2 arr1.
Proof.
  revert arr2. induction arr1 as [|x xs IH]; intros [|y ys]; simpl; try reflexivity.
  rewrite IH. ring.
Qed.

Lemma covariance_comm (arr1 arr2 : list R) :
  covariance arr1 arr2 = covariance arr2 arr1.
Proof. apply sumProducts_comm. Qed.

Lemma calculateCorrelation_comm (arr1 arr2 : list R) :
  calculateCorrelation arr1 arr2 = calculateCorrelation arr2 arr1.
Proof.
  destruct (Nat.eq_dec (length arr1) (length arr2)) as [Hlen|Hlen].
  - destruct (Req_dec_T (sumSquares arr1) 0) as [H1|H1].
    { rewrite !calculateCorrelation_zero; auto. }
    destruct (Req_dec_T (sumSquares arr2) 0) as [H2|H2].
    { rewrite !calculateCorrelation_zero; auto. }
    rewrite !calculateCorrelation_pearson by auto.
    unfold pearson. now rewrite covariance_comm, Rmult_comm.
  - rewrite !calculateCorrelation_zero; auto.
Qed.

(** A series of at most one element has no deviation from its mean. *)
Lemma calculateCorrelation_short (arr1 arr2 : list R) :
  (length arr1 <= 1)%nat -> calculateCorrelation arr1 arr2 = 0.
Proof.
  intro H. apply calculateCorrelation_zero.
  destruct arr1 as [|x [|y rest]]; [right; now left| |simpl in H; lia].
  right. right. left. apply sumSquares_one.
Qed.

(** X21: the correlation does not depend on the order of its two series,
    and it is 0 whenever a series has at most one element. *)
Theorem correlation_is_symmetric_and_zero_on_one_element (arr1 arr2 : list R) :
  calculateCorrelation arr1 arr2 = calculateCorrelation arr2 arr1 /\
  ((length arr1 <= 1)%nat \/ (length arr2 <= 1)%nat ->
   calculateCorrelation arr1 arr2 = 0).
Proof.
  split; [apply calculateCorrelation_comm|].
  intros [H|H]; [now apply calculateCorrelation_short|].
  rewrite calculateCorrelation_comm. now apply calculateCorrelation_short.
Qed.

(** *** The negation of a series *)

Lemma covariance_opp_r (arr1 arr2 : list R) :
  covariance arr1 (map Ropp arr2) = - covariance arr1 arr2.
Proof.
  unfold covariance. rewrite mean_opp. apply sumProducts_opp_r.
Qed.

Lemma calculateCorrelation_opp_r (arr1 arr2 : list R) :
  calculateCorrelation arr1 (map Ropp arr2) = - calculateCorrelation arr1 arr2.
Proof.
  destruct (Nat.eq_dec (length arr1) (length arr2)) as [Hlen|Hlen];
    [|rewrite !calculateCorrelation_zero by (rewrite ?length_map; now left); ring].
  destruct (Req_dec_T (sumSquares arr1) 0) as [H1|H1].
  { rewrite !calculateCorrelation_zero by (right; right; now left). ring. }
  destruct (Req_dec_T (sumSquares arr2) 0) as [H2|H2].
  { rewrite !calculateCorrelation_zero
      by (right; right; right; rewrite ?sumSquares_opp; exact H2). ring. }
  rewrite !calculateCorrelation_pearson
    by (rewrite ?length_map, ?sumSquares_opp; assumption).
  unfold pearson. rewrite covariance_opp_r, sumSquares_opp. unfold Rdiv. ring.
Qed.

(** X22: negating one of the two series changes the sign of the
    correlation and nothing else, and negating both leaves it as it is. *)
Theorem correlation_changes_sign_with_either_series (arr1 arr2 : list R) :
  calculateCorrelation arr1 (map Ropp arr2) = - calculateCorrelation arr1 arr2 /\
  calculateCorrelation (map Ropp arr1) arr2 = - calculateCorrelation arr1 arr2 /\
  calculateCorrelation (map Ropp arr1) (map Ropp arr2)
  = calculateCorrelation arr1 arr2.
Proof.
  assert (H : forall a b,
            calculateCorrelation (map Ropp a) b = - calculateCorrelation a b).
  { intros a b. rewrite calculateCorrelation_comm, calculateCorrelation_opp_r.
    now rewrite calculateCorrelation_comm. }
  split; [apply calculateCorrelation_opp_r|]. split; [apply H|].
  rewrite H, calculateCorrelation_opp_r. ring.
Qed.

(** *** Rolling correlation *)

Lemma rolling_field {B : Type} (f : CorrPoint.t -> B) (g : Row.t -> B)
  (data : list Row.t) (window : nat) :
  (forall i, f (rollingPoint data window i) = g (row data i)) ->
  map f (calculateRollingCorrelation data window) = skipn window (map g data).
Proof.
  intro Hf. unfold calculateRollingCorrelation. rewrite map_map.
  destruct (Nat.le_gt_cases (length data) window) as [H|H].
  - replace (length data - window)%nat with 0%nat by lia.
    rewrite skipn_all2 by (rewrite length_map; exact H). reflexivity.
  - rewrite <- (firstn_all (skipn window (map g data))).
    rewrite length_skipn, length_map.
    rewrite (slice_nth (g (Row.mk 0 0 0)) (map g data) window
               (length data - window))
      by (rewrite length_map; lia).
    apply map_ext. intro i. rewrite Hf. unfold row.
    symmetry. apply map_nth.
Qed.

(** X23: the rolling correlation has one point for each row from the index
    window on, with the timestamp, the spy and the vix of that row, and none
    when the rows are no more than the window; with a window of 0 or 1 every
    correlation in it is 0, the windows holding at most one row. *)
Theorem rolling_correlation_points_and_short_windows
  (data : list Row.t) (window : nat) :
  (map CorrPoint.timestamp (calculateRollingCorrelation data window)
   = skipn window (map Row.timestamp data) /\
   map CorrPoint.spy (calculateRollingCorrelation data window)
   = skipn window (map Row.spy data) /\
   map CorrPoint.vix (calculateRollingCorrelation data window)
   = skipn window (map Row.vix data)) /\
  ((length data <= window)%nat -> calculateRollingCorrelation data window = []) /\
  ((window <= 1)%nat ->
   forall p, In p (calculateRollingCorrelation data window) ->
     CorrPoint.spyVixCorr p = 0).
Proof.
  split; [|split].
  - split; [|split]; now apply rolling_field.
  - intro H. unfold calculateRollingCorrelation.
    now replace (length data - window)%nat with 0%nat by lia.
  - intros Hw p Hp. unfold calculateRollingCorrelation in Hp.
    apply in_map_iff in Hp. destruct Hp as (i & <- & _). simpl.
    apply calculateCorrelation_short.
    unfold slice. rewrite length_map, length_firstn. lia.
Qed.

Lemma rolling_correlation_points_and_short_windows_witness :
  exists p,
    nth_error (calculateRollingCorrelation threeRows 1) 0 = Some p /\
    CorrPoint.spyVixCorr p = 0.
Proof.
  destruct (nth_error (calculateRollingCorrelation threeRows 1) 0) as [p|] eqn:E;
    [|discriminate].
  exists p. split; [reflexivity|].
  apply (rolling_correlation_points_and_short_windows threeRows 1); [lia|].
  eapply nth_error_In. exact E.
Defined.

End CorrelationBoundFacts.

(** ** Support and resistance: the levels returned *)

Module LevelsOrderFacts.

Import Num NumFacts ObjectFacts Levels LevelsFacts LevelsOrder.
Import ValueAreaFacts.
Local Open Scope Q_scope.

Lemma insertBy_ext {A : Type} (before before' : A -> A -> bool) (x : A) (l : list A) :
  (forall a b, before a b = before' a b) ->
  insertBy before x l = insertBy before' x l.
Proof.
  intro H. induction l as [|y l IH]; simpl; [reflexivity|].
  rewrite H, IH. reflexivity.
Qed.

Lemma sortBy_ext {A : Type} (before before' : A -> A -> bool) (l : list A) :
  (forall a b, before a b = before' a b) -> sortBy before l = sortBy before' l.
Proof.
  intro H. induction l as [|x l IH]; simpl; [reflexivity|].
  rewrite IH. now apply insertBy_ext.
Qed.

Lemma Qle_bool_opp (a b : Q) : Qle_bool b a = Qle_bool (- a) (- b).
Proof.
  destruct (Qle_bool (- a) (- b)) eqn:E.
  - apply Qle_bool_iff in E. apply Qle_bool_iff. lra.
  - destruct (Qle_bool b a) eqn:E'; [|reflexivity].
    apply Qle_bool_iff in E'.
    assert (H : Qle_bool (- a) (- b) = true) by (apply Qle_bool_iff; lra).
    congruence.
Qed.

Lemma sorted_levels (levels : list Level.t) :
  sortedBy weakness
    (sortBy (fun a b => Qle_bool (Level.strength b) (Level.strength a)) levels).
Proof.
  rewrite (sortBy_ext _ (fun a b => Qle_bool (weakness a) (weakness b))).
  - apply sortBy_sorted.
  - intros a b. apply Qle_bool_opp.
Qed.

Lemma sortedBy_app {A : Type} (key : A -> Q) (l l' : list A) :
  sortedBy key (l ++ l') ->
  sortedBy key l /\ forall x y, In x l -> In y l' -> key x <= key y.
Proof.
  induction l as [|z l IH]; simpl.
  - intros _. split; [trivial|]. intros x y [].
  - intros [Hz Hs]. destruct (IH Hs) as [Hl Hc]. split.
    + split; [|exact Hl]. intros y Hy. apply Hz. apply in_or_app. now left.
    + intros x y [<-|Hx] Hy; [|now apply Hc].
      apply Hz. apply in_or_app. now right.
Qed.

Lemma sortedBy_nth {A : Type} (key : A -> Q) (l : list A) (i j : nat) (a b : A) :
  sortedBy key l -> (i < j)%nat ->
  nth_error l i = Some a -> nth_error l j = Some b -> key a <= key b.
Proof.
  revert i j. induction l as [|x l IH]; intros i j Hs Hij Ha Hb.
  - destruct i; discriminate.
  - destruct Hs as [Hx Hs]. destruct j as [|j]; [lia|]. simpl in Hb.
    destruct i as [|i].
    + simpl in Ha. injection Ha as <-. apply Hx. eapply nth_error_In. exact Hb.
    + simpl in Ha. apply (IH i j); [exact Hs|lia|exact Ha|exact Hb].
Qed.

Lemma distance_nonneg (currentPrice : option Q) (count : nat) (c : Cluster.t) :
  0 <= Level.distance (toLevel currentPrice count c).
Proof.
  unfold toLevel. cbn [Level.distance]. destruct currentPrice as [cp|]; [|lra].
  destruct (Qeq_bool cp 0); [lra|apply Qabs_nonneg].
Qed.

(** X24: the levels returned are the clusters with their final strength, at
    most eight of them, none stronger than a level listed before it, and
    every cluster left out is no stronger than any level returned; the
    distance of a level is never negative, and is 0 when there is no current
    price or the current price is 0. *)
Theorem levels_are_the_strongest_clusters_in_descending_order
  (currentPrice : option Q) (data : list PriceBar.t) (swings : Swings) :
  let clusters := clusterPoints (allPoints swings) in
  let levels := calculateSupportResistance currentPrice data swings in
  length levels = Nat.min 8 (length clusters) /\
  descending levels /\
  (forall l, In l levels ->
     exists c, In c clusters /\ l = toLevel currentPrice (length clusters) c) /\
  (forall c, In c clusters ->
     In (toLevel currentPrice (length clusters) c) levels \/
     (length levels = 8%nat /\
      forall l, In l levels ->
        Level.strength (toLevel currentPrice (length clusters) c)
        <= Level.strength l)) /\
  (forall l, In l levels -> 0 <= Level.distance l) /\
  (currentPrice = None \/ (exists cp, currentPrice = Some cp /\ cp == 0) ->
   forall l, In l levels -> Level.distance l == 0).
Proof.
  intros clusters levels. unfold levels, calculateSupportResistance.
  fold clusters.
  set (all := map (toLevel currentPrice (length clusters)) clusters).
  set (sorted := sortBy (fun a b => Qle_bool (Level.strength b) (Level.strength a)) all).
  assert (Hperm : Permutation sorted all) by apply sortBy_perm.
  assert (Hsorted : sortedBy weakness sorted) by apply sorted_levels.
  assert (Hlen : length sorted = length clusters).
  { unfold sorted, all. now rewrite sortBy_length, length_map. }
  assert (Hfrom : forall l, In l (firstn 8 sorted) ->
            exists c, In c clusters /\ l = toLevel currentPrice (length clusters) c).
  { intros l Hl.
    assert (Hl' : In l sorted)
      by (rewrite <- (firstn_skipn 8 sorted); apply in_or_app; now left).
    apply (Permutation_in l Hperm) in Hl'. rename Hl' into Hl0. clear Hl.
    rename Hl0 into Hl. unfold all in Hl.
    apply in_map_iff in Hl. destruct Hl as (c & <- & Hc). now exists c. }
  split; [rewrite length_firstn, Hlen; reflexivity|].
  split; [|split; [exact Hfrom|split; [|split]]].
  - intros i j a b Hij Ha Hb.
    assert (Hs : sortedBy weakness (firstn 8 sorted)).
    { rewrite <- (firstn_skipn 8 sorted) in Hsorted.
      now apply sortedBy_app in Hsorted. }
    pose proof (sortedBy_nth weakness _ i j a b Hs Hij Ha Hb) as H.
    unfold weakness in H. lra.
  - intros c Hc.
    assert (Hin : In (toLevel currentPrice (length clusters) c) sorted).
    { apply (Permutation_in _ (Permutation_sym Hperm)). unfold all.
      now apply in_map. }
    rewrite <- (firstn_skipn 8 sorted) in Hin. apply in_app_or in Hin.
    destruct Hin as [Hin|Hin]; [now left|]. right.
    assert (H8 : (8 < length sorted)%nat).
    { destruct (Nat.le_gt_cases (length sorted) 8) as [H|H]; [|exact H].
      rewrite skipn_all2 in Hin by exact H. destruct Hin. }
    split; [rewrite length_firstn; lia|].
    intros l Hl.
    rewrite <- (firstn_skipn 8 sorted) in Hsorted.
    apply sortedBy_app in Hsorted. destruct Hsorted as [_ Hcross].
    specialize (Hcross l _ Hl Hin). unfold weakness in Hcross. lra.
  - intros l Hl. destruct (Hfrom l Hl) as (c & _ & ->). apply distance_nonneg.
  - intros Hcp l Hl. destruct (Hfrom l Hl) as (c & _ & ->).
    unfold toLevel. cbn [Level.distance].
    destruct Hcp as [->|(cp & -> & Hz)]; [reflexivity|].
    apply Qeq_bool_iff in Hz. rewrite Hz. reflexivity.
Qed.

Lemma levels_are_the_strongest_clusters_in_descending_order_witness :
  map Level.price (calculateSupportResistance None [] tenHighs)
  = [1000; 900; 800; 700; 600; 500; 400; 300] /\
  forall l, In l (calculateSupportResistance None [] tenHighs) ->
    Level.distance l == 0.
Proof.
  split; [reflexivity|].
  apply (levels_are_the_strongest_clusters_in_descending_order None [] tenHighs).
  now left.
Defined.

(** *** What the clustering conserves *)








End LevelsOrderFacts.

(** ** The component's pipeline *)

Module MarketStructureFacts.

Import Num NumFacts Levels MarketStructure.
Local Open Scope Q_scope.
Local Open Scope string_scope.

Lemma orElse_nonzero (x : option Q) (d : Q) : ~ d == 0 -> ~ orElse x d == 0.
Proof.
  intro Hd. unfold orElse. destruct x as [q|]; [|exact Hd].
  destruct (Qeq_bool q 0) eqn:E; [exact Hd|]. now apply Qeq_bool_false.
Qed.

Lemma orElse_some (q d : Q) : ~ q == 0 -> orElse (Some q) d = q.
Proof.
  intro H. unfold orElse. apply Qeq_bool_false in H. now rewrite H.
Qed.

Lemma orElseZ_nonzero (x : option Z) (d : Z) : d <> 0%Z -> orElseZ x d <> 0%Z.
Proof.
  intro Hd. unfold orElseZ. destruct x as [z|]; [|exact Hd].
  destruct (Z.eqb_spec z 0); assumption.
Qed.

Lemma orElseZ_some (z d : Z) : z <> 0%Z -> orElseZ (Some z) d = z.
Proof.
  intro H. unfold orElseZ. destruct (Z.eqb_spec z 0); [contradiction|reflexivity].
Qed.

Lemma combine_seq_nth {A : Type} (l : list A) (a i : nat) :
  nth_error (combine (seq a (length l)) l) i
  = option_map (fun p => ((a + i)%nat, p)) (nth_error l i).
Proof.
  revert a i. induction l as [|x l IH]; intros a [|i]; simpl; try reflexivity.
  - now rewrite Nat.add_0_r.
  - rewrite IH. rewrite Nat.add_succ_r. reflexivity.
Qed.

Lemma combine_seq_map {A B : Type} (f : A -> B) (l : list A) (a : nat) :
  map (fun e => f (snd e)) (combine (seq a (length l)) l) = map f l.
Proof.
  revert a. induction l as [|x l IH]; intro a; simpl; [reflexivity|].
  now rewrite IH.
Qed.

Lemma slice_map {A B : Type} (f : A -> B) (start end_ : nat) (l : list A) :
  Correlation.slice start end_ (map f l) = map f (Correlation.slice start end_ l).
Proof.
  unfold Correlation.slice. now rewrite skipn_map, firstn_map.
Qed.

Section Component.

Variable currentPrice : option Q.
Variable vixPrice : option Q.
Variable Date_now : nat -> Z.
Variable today : nat -> String.string.

Local Notation "'processed'" :=
  (processedData currentPrice vixPrice Date_now today).
Local Notation "'process'" := (processPoint currentPrice vixPrice Date_now today).

Lemma closeOf_nonzero (p : PricePoint.t) : ~ closeOf currentPrice p == 0.
Proof.
  unfold closeOf. repeat apply orElse_nonzero. unfold Qeq. simpl. lia.
Qed.

Lemma window_length (priceData : list PricePoint.t) (index : nat) :
  (index < length priceData)%nat ->
  length (window priceData index) = Nat.min (index + 1) 51.
Proof.
  intro H. unfold window, Correlation.slice.
  rewrite length_firstn, length_skipn. lia.
Qed.

(** Without price data the read of the generator ends the render. *)
Lemma processedData_throws : processed [] = Throws "ReferenceError".
Proof. reflexivity. Qed.

(** With price data the bars are returned, one for each point. *)
Lemma processedData_returns (priceData : list PricePoint.t) :
  priceData <> [] ->
  exists data,
    processed priceData = Returns data /\
    length data = length priceData /\
    map ProcessedPoint.close data = map (closeOf currentPrice) priceData /\
    forall i d, nth_error data i = Some d ->
      exists p, nth_error priceData i = Some p /\ d = process priceData i p.
Proof.
  destruct priceData as [|p0 rest]; [contradiction|]. intros _.
  eexists. split; [reflexivity|]. split; [|split].
  - rewrite length_map, length_combine, length_seq. lia.
  - rewrite map_map. exact (combine_seq_map (closeOf currentPrice) (p0 :: rest) 0).
  - intros i d. rewrite nth_error_map, combine_seq_nth.
    destruct (nth_error (p0 :: rest) i) as [p|]; [|discriminate].
    simpl. intro H. injection H as <-. now exists p.
Qed.

(** X26: on price data that is not empty there is one processed bar for each
    point.  Its close, high, low, volume, spy and vix are never 0, absent
    and zero fields falling back to the defaults; its indicators are those
    of the closes of the processed bars from 50 bars back to itself; its RSI
    lies in [0, 100] and is 50 on the first 14 bars, and its stochastic
    readings are 50 on the first 13. *)
Theorem processed_bars_have_defaults_and_indicators_of_fifty_one_bars
  (priceData : list PricePoint.t) :
  priceData <> [] ->
  exists data,
    processed priceData = Returns data /\
    length data = length priceData /\
    forall i d, nth_error data i = Some d ->
      (~ ProcessedPoint.close d == 0 /\ ~ ProcessedPoint.high d == 0 /\
       ~ ProcessedPoint.low d == 0 /\ ~ ProcessedPoint.volume d == 0 /\
       ~ ProcessedPoint.spy d == 0 /\ ~ ProcessedPoint.vix d == 0) /\
      exists ind,
        ProcessedPoint.indicators d = Some ind /\
        IndicatorValues.rsi ind
        = Indicators.calculateRSI
            (map ProcessedPoint.close (Correlation.slice (i - 50) (i + 1) data)) 14 /\
        0 <= IndicatorValues.rsi ind <= 100 /\
        ((i < 14)%nat -> IndicatorValues.rsi ind = 50) /\
        ((i < 13)%nat ->
         IndicatorValues.stochK ind = MovingAverages.Finite 50 /\
         IndicatorValues.stochD ind = MovingAverages.Finite 50).
Proof.
  intro Hne.
  destruct (processedData_returns priceData Hne) as (data & Hdata & Hlen & Hcl & Hnth).
  exists data. split; [exact Hdata|]. split; [exact Hlen|].
  intros i d Hd.
  destruct (Hnth i d Hd) as (p & Hp & ->).
  assert (Hi : (i < length priceData)%nat) by (apply nth_error_Some; congruence).
  pose proof (closeOf_nonzero p) as Hc.
  split.
  - unfold processPoint. simpl. repeat split.
    + exact Hc.
    + now apply orElse_nonzero.
    + now apply orElse_nonzero.
    + apply orElse_nonzero. unfold Qeq. simpl. lia.
    + now apply orElse_nonzero.
    + repeat apply orElse_nonzero. unfold Qeq. simpl. lia.
  - assert (Hwin : map ProcessedPoint.close (Correlation.slice (i - 50) (i + 1) data)
                   = map (closeOf currentPrice) (window priceData i)).
    { rewrite <- slice_map, Hcl, slice_map. reflexivity. }
    rewrite Hwin.
    eexists. split; [reflexivity|]. cbn [IndicatorValues.rsi
      IndicatorValues.stochK IndicatorValues.stochD].
    pose proof (window_length priceData i Hi) as Hw.
    split; [|split; [|split]].
    + reflexivity.
    + apply (IndicatorsFacts.calculateRSI_spec _ 14). lia.
    + intro H14. apply IndicatorsFacts.calculateRSI_short.
      rewrite length_map, Hw. lia.
    + intro H13. unfold MovingAverages.calculateStochastic.
      rewrite length_map, Hw.
      destruct (Nat.ltb_spec (Nat.min (i + 1) 51) 14); [now split|lia].
Qed.

(** Two clocks that agree wherever a point makes the code read them give
    the same bars. *)
Lemma processPoint_clock (Date_now' : nat -> Z) (today' : nat -> String.string)
  (priceData : list PricePoint.t) (i : nat) (p : PricePoint.t) :
  (readsClock p = true -> Date_now i = Date_now' i) ->
  (readsDate p = true -> today i = today' i) ->
  process priceData i p
  = processPoint currentPrice vixPrice Date_now' today' priceData i p.
Proof.
  intros Hc Hd. unfold processPoint. f_equal.
  - unfold readsClock in Hc. unfold orElseZ in *.
    destruct (PricePoint.timestamp p) as [t|];
      [destruct (Z.eqb_spec t 0) as [Et|Et]; [|reflexivity]|];
      (destruct (PricePoint.fullDate p) as [f|];
       [destruct (Z.eqb_spec f 0) as [Ef|Ef]; [|reflexivity]|]);
      now rewrite Hc.
  - unfold readsDate in Hd. unfold orElseString in *.
    destruct (PricePoint.date p) as [s|];
      [destruct (String.eqb s String.EmptyString) eqn:Es; [|reflexivity]|];
      now rewrite Hd.
Qed.

Lemma processedData_clock (Date_now' : nat -> Z) (today' : nat -> String.string)
  (priceData : list PricePoint.t) :
  (forall i p, nth_error priceData i = Some p ->
     (readsClock p = true -> Date_now i = Date_now' i) /\
     (readsDate p = true -> today i = today' i)) ->
  processed priceData = processedData currentPrice vixPrice Date_now' today' priceData.
Proof.
  intro H. destruct priceData as [|p0 rest]; [reflexivity|].
  unfold processedData. f_equal.
  apply nth_error_ext. intro i. rewrite !nth_error_map, !combine_seq_nth.
  destruct (nth_error (p0 :: rest) i) as [p|] eqn:E; [|reflexivity].
  simpl. f_equal. destruct (H i p E). now apply processPoint_clock.
Qed.

End Component.

Lemma processed_bars_have_defaults_and_indicators_of_fifty_one_bars_witness :
  exists data,
    processedData None None tickingClock noDate (closesOnly [100; 0]) = Returns data /\
    length data = 2%nat.
Proof.
  destruct (processed_bars_have_defaults_and_indicators_of_fifty_one_bars
              None None tickingClock noDate (closesOnly [100; 0]))
    as (data & Hdata & Hlen & _).
  - discriminate.
  - exists data. now split.
Defined.

(** *** The mock generator *)

Section Mock.

Variable currentPrice : option Q.
Variable Date_now : nat -> Z.
Variable toLocaleDateString : Z -> String.string.
Variable Math_random : nat -> Q.

Lemma fold_mockBars (basePrice : Q) (now : Z) (k a : nat) (price : Q)
  (data : list ProcessedPoint.t) (n : nat) :
  (a + k <= 100)%nat ->
  exists ext,
    snd (fst (fold_left (mockStep toLocaleDateString Math_random basePrice now)
                (seq a k) (price, data, n)))
    = data ++ ext /\
    length ext = k /\
    map ProcessedPoint.timestamp ext
    = map (fun i => (now - (100 - Z.of_nat i) * 86400000)%Z) (seq a k) /\
    map ProcessedPoint.date ext
    = map (fun i => toLocaleDateString (now - (100 - Z.of_nat i) * 86400000)%Z)
        (seq a k) /\
    randomWalk Math_random price n (map ProcessedPoint.close ext) /\
    (unitDraws Math_random -> Forall (mockBar now) ext).
Proof.
  revert a price data n. induction k as [|k IH]; intros a price data n Ha.
  - exists []. simpl. rewrite app_nil_r. repeat split; constructor.
  - cbn [seq fold_left]. unfold mockStep at 2.
    set (price' := price + (Math_random n - 0.48) * 3).
    set (bar := ProcessedPoint.mk price' _ _ _ _ _ _ _ _ _).
    destruct (IH (S a) price' (data ++ [bar]) (n + 5)%nat) as
      (ext & E & Hlen & Hts & Hdates & Hwalk & Hdraws); [lia|].
    exists (bar :: ext). rewrite E, <- app_assoc. split; [reflexivity|].
    split; [simpl; now rewrite Hlen|].
    split; [simpl; now rewrite Hts|].
    split; [simpl; now rewrite Hdates|].
    split.
    + cbn [map ProcessedPoint.close randomWalk bar].
      split; [reflexivity|exact Hwalk].
    + intro Hu. constructor; [|now apply Hdraws].
      pose proof (Hu n) as [? ?]. pose proof (Hu (n + 1)%nat) as [? ?].
      pose proof (Hu (n + 2)%nat) as [? ?]. pose proof (Hu (n + 3)%nat) as [? ?].
      pose proof (Hu (n + 4)%nat) as [? ?].
      unfold mockBar, bar.
      cbn [ProcessedPoint.low ProcessedPoint.close ProcessedPoint.high
           ProcessedPoint.volume ProcessedPoint.vix ProcessedPoint.spy
           ProcessedPoint.timestamp ProcessedPoint.indicators
           ProcessedPoint.fullDate].
      repeat split; try lra; try lia;
        destruct (Qltb price' basePrice); lra.
Qed.

(** The generator reads the clock once, the date of its 100 timestamps and
    the first 500 draws. *)
Lemma fold_mockStep_draws (toLocaleDateString' : Z -> String.string)
  (Math_random' : nat -> Q) (basePrice : Q) (now : Z) (k a : nat)
  (acc : Q * list ProcessedPoint.t * nat) :
  (forall t, toLocaleDateString t = toLocaleDateString' t) ->
  (forall j, (snd acc <= j < snd acc + 5 * k)%nat -> Math_random j = Math_random' j) ->
  fold_left (mockStep toLocaleDateString Math_random basePrice now) (seq a k) acc
  = fold_left (mockStep toLocaleDateString' Math_random' basePrice now) (seq a k) acc.
Proof.
  intro Hdate. revert a acc. induction k as [|k IH]; intros a [[price data] n] H.
  - reflexivity.
  - cbn [seq fold_left]. cbn [snd] in H.
    assert (E : mockStep toLocaleDateString Math_random basePrice now (price, data, n) a
                = mockStep toLocaleDateString' Math_random' basePrice now
                    (price, data, n) a).
    { unfold mockStep.
      rewrite <- (H n), <- (H (n + 1)%nat), <- (H (n + 2)%nat),
        <- (H (n + 3)%nat), <- (H (n + 4)%nat), <- Hdate by lia.
      reflexivity. }
    rewrite <- E. apply IH.
    intros j Hj. apply H. unfold mockStep in Hj. cbn [snd] in Hj. lia.
Qed.

Lemma generateMockPriceData_draws (Date_now' : nat -> Z)
  (toLocaleDateString' : Z -> String.string) (Math_random' : nat -> Q) :
  Date_now 0%nat = Date_now' 0%nat ->
  (forall t, toLocaleDateString t = toLocaleDateString' t) ->
  (forall j, (j < 500)%nat -> Math_random j = Math_random' j) ->
  generateMockPriceData currentPrice Date_now toLocaleDateString Math_random
  = generateMockPriceData currentPrice Date_now' toLocaleDateString' Math_random'.
Proof.
  intros Hnow Hdate Hdraws. unfold generateMockPriceData. rewrite <- Hnow.
  rewrite (fold_mockStep_draws toLocaleDateString' Math_random'); [reflexivity| |].
  - exact Hdate.
  - intros j Hj. apply Hdraws. cbn [snd] in Hj. lia.
Qed.

(** X27: the mock generator makes 100 bars a day apart, the last one a day
    before the time it read, each dated by its timestamp and with no
    indicator field; every close is the close before it, the first one 95%
    of the base price, plus (draw - 0.48) * 3; and when the draws lie in
    [0, 1) each bar has its low at or under and its high at or over its
    close, a volume from 50 to 80 million and a vix from 13 to 24.  The
    render never gets these bars: without price data, the read of the
    generator, which is declared further down the component's body, throws
    a ReferenceError. *)
Theorem mock_price_data_is_a_random_walk_that_the_render_never_gets
  (vixPrice : option Q) (today : nat -> String.string) :
  let data := generateMockPriceData currentPrice Date_now toLocaleDateString
                Math_random in
  let now := Date_now 0%nat in
  processedData currentPrice vixPrice Date_now today [] = Throws "ReferenceError" /\
  length data = 100%nat /\
  map ProcessedPoint.timestamp data
  = map (fun i => (now - (100 - Z.of_nat i) * 86400000)%Z) (seq 0 100) /\
  map ProcessedPoint.date data
  = map (fun i => toLocaleDateString (now - (100 - Z.of_nat i) * 86400000)%Z)
      (seq 0 100) /\
  randomWalk Math_random (orElse currentPrice 595 * 0.95) 0
    (map ProcessedPoint.close data) /\
  (unitDraws Math_random -> Forall (mockBar now) data).
Proof.
  intros data now. split; [reflexivity|]. unfold data, generateMockPriceData.
  destruct (fold_mockBars (orElse currentPrice 595) (Date_now 0%nat) 100 0
              (orElse currentPrice 595 * 0.95) [] 0) as (ext & E & H); [lia|].
  rewrite E. exact H.
Qed.

End Mock.

Lemma mock_price_data_is_a_random_walk_that_the_render_never_gets_witness :
  Forall (mockBar (tickingClock 0))
    (generateMockPriceData (Some 600) tickingClock anyDate
       (OptionsWalls.constantDraws 0.5)).
Proof.
  pose proof (mock_price_data_is_a_random_walk_that_the_render_never_gets
                (Some 600) tickingClock anyDate (OptionsWalls.constantDraws 0.5)
                None noDate) as H.
  cbv zeta in H. destruct H as (_ & _ & _ & _ & _ & H).
  apply H.
  intro n. unfold OptionsWalls.constantDraws. split; lra.
Defined.

(** *** The momentum summary *)

Lemma momentumSignal_cases (rsi macdHist : Q) (trend : String.string) :
  let r := momentumSignal rsi macdHist trend in
  (snd r == 0 \/ snd r == 0.5 \/ snd r == 0.7) /\
  (fst r = "NEUTRAL" <-> snd r == 0) /\
  (fst r = "BULLISH" ->
   (rsi < 30 /\ 0 < macdHist) \/ (trend = "uptrend" /\ 50 < rsi)) /\
  (fst r = "BEARISH" ->
   (70 < rsi /\ macdHist < 0) \/ (trend = "downtrend" /\ rsi < 50)) /\
  (rsi == 50 -> r = ("NEUTRAL", 0)).
Proof.
  unfold momentumSignal.
  destruct (Qgtb rsi 70) eqn:E70; [apply Qgtb_gt in E70|apply Qgtb_le in E70];
  destruct (Qltb macdHist 0) eqn:Em0; [apply Qltb_lt in Em0|apply Qltb_ge in Em0
                                      |apply Qltb_lt in Em0|apply Qltb_ge in Em0];
  destruct (Qltb rsi 30) eqn:E30; [apply Qltb_lt in E30|apply Qltb_ge in E30
                                  |apply Qltb_lt in E30|apply Qltb_ge in E30
                                  |apply Qltb_lt in E30|apply Qltb_ge in E30
                                  |apply Qltb_lt in E30|apply Qltb_ge in E30];
  destruct (Qgtb macdHist 0) eqn:Em1;
  destruct (String.eqb_spec trend "uptrend") as [Eu|Eu];
  destruct (Qgtb rsi 50) eqn:E50;
  destruct (String.eqb_spec trend "downtrend") as [Ed|Ed];
  destruct (Qltb rsi 50) eqn:E51;
  try apply Qgtb_gt in Em1; try apply Qgtb_le in Em1;
  try apply Qgtb_gt in E50; try apply Qgtb_le in E50;
  try apply Qltb_lt in E51; try apply Qltb_ge in E51;
  cbn [andb fst snd];
  (split; [first [now left | right; now left | right; now right]|]);
  (split; [split; intro H; first [reflexivity | discriminate | exfalso; lra]|]);
  (split; [intro H; first [discriminate | left; split; assumption
                          | right; split; assumption]|]);
  (split; [intro H; first [discriminate | left; split; assumption
                          | right; split; assumption]|]);
  intro H; first [reflexivity | exfalso; lra].
Qed.

Section MomentumSummary.

Variable currentPrice : option Q.
Variable vixPrice : option Q.
Variable Date_now : nat -> Z.
Variable today : nat -> String.string.

Local Notation "'processed'" :=
  (processedData currentPrice vixPrice Date_now today).
Local Notation "'rendered'" :=
  (renderedMomentum currentPrice vixPrice Date_now today).

(** X28: without price data the render throws before a momentum summary is
    computed.  On price data that is not empty the summary is never null:
    its RSI lies in [0, 100] and its trend is that of the swing analysis of
    the processed bars; the strength is 0, 0.5 or 0.7, and 0 exactly for
    NEUTRAL; BULLISH needs an RSI under 30, and then has the strength 0.7,
    or an uptrend with an RSI over 50; BEARISH needs an RSI over 70, and
    then has the strength 0.7, or a downtrend with an RSI under 50; and on
    at most 14 bars the summary is NEUTRAL with an RSI of 50. *)
Theorem momentum_is_never_null_on_price_data_and_neutral_on_short_series :
  rendered [] = Throws "ReferenceError" /\
  forall priceData, priceData <> [] ->
    exists data m,
      processed priceData = Returns data /\
      rendered priceData = Returns (Some m) /\
      Momentum.trend m = fst (current (swingAnalysis data)) /\
      0 <= Momentum.rsi m <= 100 /\
      (Momentum.strength m == 0 \/ Momentum.strength m == 0.5 \/
       Momentum.strength m == 0.7) /\
      (Momentum.signal m = "NEUTRAL" <-> Momentum.strength m == 0) /\
      (Momentum.signal m = "BULLISH" ->
       (Momentum.rsi m < 30 /\ Momentum.strength m == 0.7) \/
       (Momentum.trend m = "uptrend" /\ 50 < Momentum.rsi m)) /\
      (Momentum.signal m = "BEARISH" ->
       (70 < Momentum.rsi m /\ Momentum.strength m == 0.7) \/
       (Momentum.trend m = "downtrend" /\ Momentum.rsi m < 50)) /\
      ((length priceData <= 14)%nat ->
       Momentum.signal m = "NEUTRAL" /\ Momentum.rsi m = 50).
Proof.
  split; [reflexivity|].
  intros priceData Hne.
  destruct (processedData_returns currentPrice vixPrice Date_now today priceData Hne)
    as (data & Hdata & Hlen & _ & Hnth).
  assert (Hpos : (0 < length priceData)%nat)
    by (destruct priceData; [contradiction|simpl; lia]).
  destruct (nth_error data (length data - 1)) as [d|] eqn:Ed;
    [|apply nth_error_None in Ed; lia].
  destruct (Hnth _ d Ed) as (p & Hp & Eproc).
  exists data. unfold renderedMomentum. rewrite Hdata. cbn [bind].
  unfold currentMomentum. rewrite Ed, Eproc.
  cbn [processPoint ProcessedPoint.indicators IndicatorValues.rsi
       IndicatorValues.macdHistogram IndicatorValues.macd IndicatorValues.stochK].
  set (rsi := Indicators.calculateRSI _ 14).
  set (hist := MovingAverages.histogram _).
  set (trend := fst (current (swingAnalysis data))).
  pose proof (momentumSignal_cases rsi hist trend) as Hcases.
  destruct (momentumSignal rsi hist trend) as [signal strength] eqn:Esig.
  cbn zeta in Hcases. cbn [fst snd] in Hcases.
  destruct Hcases as (Hstrength & Hneutral & Hbull & Hbear & Hfifty).
  eexists. split; [reflexivity|]. split; [reflexivity|].
  cbn [Momentum.trend Momentum.rsi Momentum.strength Momentum.signal].
  split; [reflexivity|].
  split; [apply (IndicatorsFacts.calculateRSI_spec _ 14); lia|].
  split; [exact Hstrength|]. split; [exact Hneutral|].
  split; [|split].
  - intro H. destruct (Hbull H) as [[H1 H2]|H1]; [left|now right].
    split; [exact H1|].
    destruct Hstrength as [H0|[H5|H7]]; [|clear Hfifty|exact H7].
    + apply Hneutral in H0. rewrite H in H0. discriminate.
    + exfalso. unfold momentumSignal in Esig.
      assert (E30 : Qltb rsi 30 = true) by (apply Qltb_lt; exact H1).
      assert (Em : Qgtb hist 0 = true) by (apply Qgtb_gt; exact H2).
      rewrite E30, Em in Esig. cbn [andb] in Esig.
      destruct (Qgtb rsi 70 && Qltb hist 0); injection Esig as <- <-;
        revert H5; unfold Qeq; simpl; lia.
  - intro H. destruct (Hbear H) as [[H1 H2]|H1]; [left|now right].
    split; [exact H1|].
    unfold momentumSignal in Esig.
    assert (E70 : Qgtb rsi 70 = true) by (apply Qgtb_gt; exact H1).
    assert (Em : Qltb hist 0 = true) by (apply Qltb_lt; exact H2).
    rewrite E70, Em in Esig. cbn [andb] in Esig. injection Esig as <- <-.
    reflexivity.
  - intro H14.
    assert (E50 : rsi = 50).
    { apply IndicatorsFacts.calculateRSI_short.
      rewrite length_map, window_length by lia. lia. }
    rewrite E50 in Hfifty. specialize (Hfifty (Qeq_refl 50)).
    injection Hfifty as -> ->. now split.
Qed.

End MomentumSummary.

Lemma momentum_is_never_null_on_price_data_and_neutral_on_short_series_witness :
  exists m,
    renderedMomentum None None tickingClock noDate (closesOnly [100; 101])
    = Returns (Some m) /\
    Momentum.signal m = "NEUTRAL".
Proof.
  destruct (proj2 (momentum_is_never_null_on_price_data_and_neutral_on_short_series
                     None None tickingClock noDate)
              (closesOnly [100; 101]))
    as (data & m & _ & Hm & _ & _ & _ & _ & _ & _ & Hshort).
  - discriminate.
  - exists m. split; [exact Hm|]. apply Hshort. simpl. lia.
Defined.

(** *** The correlation series *)

Lemma filter_all {A : Type} (f : A -> bool) (l : list A) :
  Forall (fun x => f x = true) l -> filter f l = l.
Proof.
  induction 1 as [|x l Hx _ IH]; simpl; [reflexivity|]. now rewrite Hx, IH.
Qed.

Section CorrelationSeries.

Variable currentPrice : option Q.
Variable vixPrice : option Q.
Variable Date_now : nat -> Z.
Variable today : nat -> String.string.

Local Notation "'processed'" :=
  (processedData currentPrice vixPrice Date_now today).

Lemma toRow_plain (clock : nat -> Z) (i : nat) (d : ProcessedPoint.t) :
  ProcessedPoint.timestamp d <> 0%Z ->
  ~ ProcessedPoint.close d == 0 -> ~ ProcessedPoint.vix d == 0 ->
  toRow currentPrice vixPrice clock i d
  = Row.mk (ProcessedPoint.timestamp d) (Q2R (ProcessedPoint.close d))
      (Q2R (ProcessedPoint.vix d)).
Proof.
  intros Ht Hc Hv. unfold toRow.
  now rewrite (orElseZ_some _ _ Ht), (orElse_some _ _ Hc), (orElse_some _ _ Hv).
Qed.

Lemma rows_plain (clock : nat -> Z) (data : list ProcessedPoint.t) (a : nat) :
  Forall (fun d => ProcessedPoint.timestamp d <> 0%Z /\
                   ~ ProcessedPoint.close d == 0 /\ ~ ProcessedPoint.vix d == 0) data ->
  map (fun e => toRow currentPrice vixPrice clock (fst e) (snd e))
    (combine (seq a (length data)) data)
  = map (fun d => Row.mk (ProcessedPoint.timestamp d) (Q2R (ProcessedPoint.close d))
                    (Q2R (ProcessedPoint.vix d))) data.
Proof.
  intro H. revert a. induction H as [|d data (Ht & Hc & Hv) _ IH]; intro a; simpl.
  - reflexivity.
  - rewrite IH. now rewrite toRow_plain.
Qed.

(** The clock is read for a bar only when its timestamp is 0. *)
Lemma toRow_clock (clock clock' : nat -> Z) (i : nat) (d : ProcessedPoint.t) :
  ProcessedPoint.timestamp d <> 0%Z ->
  toRow currentPrice vixPrice clock i d = toRow currentPrice vixPrice clock' i d.
Proof.
  intro Ht. unfold toRow. now rewrite !(orElseZ_some _ _ Ht).
Qed.

Lemma correlationData_clock (clock clock' : nat -> Z)
  (data : list ProcessedPoint.t) :
  (forall d, In d data -> ProcessedPoint.timestamp d <> 0%Z) ->
  correlationData currentPrice vixPrice clock data
  = correlationData currentPrice vixPrice clock' data.
Proof.
  intro H. unfold correlationData. destruct data as [|d0 rest]; [reflexivity|].
  set (validData := filter (isValid vixPrice) (d0 :: rest)).
  assert (Hv : forall d, In d validData -> ProcessedPoint.timestamp d <> 0%Z).
  { intros d Hd. apply H. unfold validData in Hd. now apply filter_In in Hd. }
  clearbody validData.
  destruct (length validData <? 15)%nat; [reflexivity|]. f_equal.
  apply nth_error_ext. intro i. rewrite !nth_error_map, !combine_seq_nth.
  destruct (nth_error validData i) as [d|] eqn:E; [|reflexivity].
  simpl. f_equal. apply toRow_clock. apply Hv. eapply nth_error_In. exact E.
Qed.

Lemma processed_valid (priceData : list PricePoint.t) (data : list ProcessedPoint.t) :
  processed priceData = Returns data ->
  priceData <> [] -> (forall i, Date_now i <> 0%Z) ->
  Forall (fun d => (ProcessedPoint.timestamp d <> 0%Z /\
                    ~ ProcessedPoint.close d == 0 /\ ~ ProcessedPoint.vix d == 0) /\
                   isValid vixPrice d = true)
    data.
Proof.
  intros Hdata Hne Hclock.
  destruct (processedData_returns currentPrice vixPrice Date_now today priceData Hne)
    as (data' & Hdata' & _ & _ & Hnth).
  rewrite Hdata in Hdata'. injection Hdata' as <-.
  apply Forall_forall. intros d Hd.
  apply In_nth_error in Hd. destruct Hd as (i & Hd).
  destruct (Hnth i d Hd) as (p & _ & ->).
  assert (Ht : ProcessedPoint.timestamp
                 (processPoint currentPrice vixPrice Date_now today priceData i p)
               <> 0%Z).
  { cbn [processPoint ProcessedPoint.timestamp]. repeat apply orElseZ_nonzero.
    apply Hclock. }
  assert (Hv : ~ ProcessedPoint.vix
                   (processPoint currentPrice vixPrice Date_now today priceData i p)
                 == 0).
  { cbn [processPoint ProcessedPoint.vix]. repeat apply orElse_nonzero.
    unfold Qeq. simpl. lia. }
  split; [split; [exact Ht|split; [apply closeOf_nonzero|exact Hv]]|].
  unfold isValid. apply andb_true_iff. split; apply orb_true_iff; left.
  - apply negb_true_iff. now apply Z.eqb_neq.
  - apply negb_true_iff. now apply Qeq_bool_false.
Qed.

(** X29: on price data that is not empty, read by a clock that never gives
    0, every processed bar passes the filter of the correlation series.  The
    series is empty on fewer than 15 bars; on more, it has one point for
    each bar from the fifteenth on, with the timestamp, the close and the
    vix of that bar. *)
Theorem correlation_series_runs_from_the_fifteenth_processed_bar
  (priceData : list PricePoint.t) :
  priceData <> [] -> (forall i, Date_now i <> 0%Z) ->
  exists data,
    processed priceData = Returns data /\
    let series := correlationData currentPrice vixPrice Date_now data in
    renderedCorrelation currentPrice vixPrice Date_now today priceData
    = Returns series /\
    filter (isValid vixPrice) data = data /\
    ((length priceData < 15)%nat -> series = []) /\
    ((15 <= length priceData)%nat ->
     map CorrPoint.timestamp series = skipn 14 (map ProcessedPoint.timestamp data) /\
     map CorrPoint.spy series
     = skipn 14 (map (fun d => Q2R (ProcessedPoint.close d)) data) /\
     map CorrPoint.vix series
     = skipn 14 (map (fun d => Q2R (ProcessedPoint.vix d)) data)) /\
    length series = (length priceData - 14)%nat.
Proof.
  intros Hne Hclock.
  destruct (processedData_returns currentPrice vixPrice Date_now today priceData Hne)
    as (data & Hdata & Hlen & _ & _).
  exists data. split; [exact Hdata|]. intro series.
  split; [unfold renderedCorrelation; now rewrite Hdata|].
  pose proof (processed_valid priceData data Hdata Hne Hclock) as Hall.
  assert (Hvalid : filter (isValid vixPrice) data = data).
  { apply filter_all. revert Hall. apply Forall_impl. now intros d [_ H]. }
  assert (Hplain : Forall (fun d => ProcessedPoint.timestamp d <> 0%Z /\
                     ~ ProcessedPoint.close d == 0 /\ ~ ProcessedPoint.vix d == 0) data).
  { revert Hall. apply Forall_impl. now intros d [H _]. }
  assert (Hseries : series
            = if (length data <? 15)%nat then []
              else Correlation.calculateRollingCorrelation
                     (map (fun d => Row.mk (ProcessedPoint.timestamp d)
                                      (Q2R (ProcessedPoint.close d))
                                      (Q2R (ProcessedPoint.vix d))) data) 14).
  { unfold series, correlationData.
    destruct data as [|d0 rest] eqn:Edata; [simpl in Hlen; destruct priceData;
                                           [contradiction|discriminate]|].
    rewrite Hvalid. destruct (length (d0 :: rest) <? 15)%nat; [reflexivity|].
    now rewrite rows_plain. }
  split; [exact Hvalid|]. rewrite Hseries, Hlen. clear Hseries.
  destruct (Nat.ltb_spec (length priceData) 15) as [Hshort|Hlong].
  - split; [reflexivity|]. split; [lia|]. simpl; lia.
  - split; [lia|]. split; [intros _|].
    + split; [|split].
      * rewrite (CorrelationBoundFacts.rolling_field CorrPoint.timestamp Row.timestamp)
          by reflexivity.
        now rewrite map_map.
      * rewrite (CorrelationBoundFacts.rolling_field CorrPoint.spy Row.spy)
          by reflexivity.
        now rewrite map_map.
      * rewrite (CorrelationBoundFacts.rolling_field CorrPoint.vix Row.vix)
          by reflexivity.
        now rewrite map_map.
    + rewrite CorrelationFacts.rolling_length, length_map. lia.
Qed.

End CorrelationSeries.

Lemma correlation_series_runs_from_the_fifteenth_processed_bar_witness :
  exists series,
    renderedCorrelation None None tickingClock noDate (closesOnly sixteenCloses)
    = Returns series /\
    length series = 2%nat.
Proof.
  destruct (correlation_series_runs_from_the_fifteenth_processed_bar
              None None tickingClock noDate (closesOnly sixteenCloses))
    as (data & _ & H).
  - discriminate.
  - intro i. unfold tickingClock. lia.
  - cbv zeta in H. destruct H as (Hr & _ & _ & _ & Hlen).
    eexists. split; [exact Hr|exact Hlen].
Defined.

End MarketStructureFacts.

(** ** Black-Scholes Greeks *)

Module GreeksFacts.

Import Greeks.
Local Open Scope R_scope.

(** On the two sides of 0 the approximation subtracts one and the same
    tail from 1, or returns it. *)
Lemma normalCDF_reflect (x : R) : 0 < x -> normalCDF x = 1 - normalCDF (- x).
Proof.
  intro Hx. unfold normalCDF. rewrite Rabs_Ropp.
  replace (- - x * - x / 2) with (- x * x / 2) by lra.
  destruct (Rlt_dec 0 x) as [H|H]; [|lra].
  destruct (Rlt_dec 0 (- x)) as [H'|H']; [lra|reflexivity].
Qed.

Lemma normalCDF_zero : normalCDF 0 = 0.3989423 * 1.2533137.
Proof.
  unfold normalCDF, tail. rewrite Rabs_R0.
  replace (- 0 * 0 / 2) with 0 by lra. rewrite exp_0.
  destruct (Rlt_dec 0 0) as [H|H]; [lra|].
  replace (1 / (1 + 0.2316419 * 0)) with 1 by (rewrite Rmult_0_r, Rplus_0_r; lra).
  lra.
Qed.

Lemma normalPDF_pos (x : R) : 0 < normalPDF x.
Proof.
  unfold normalPDF. apply Rdiv_lt_0_compat; [apply exp_pos|].
  apply sqrt_lt_R0. pose proof PI_RGT_0. lra.
Qed.

Lemma calculateGreeks_live (S K T r sigma : R) (isCall : bool) :
  0 < T -> S <> 0 -> sigma <> 0 ->
  calculateGreeks S K T r sigma isCall
  = mk (if isCall then normalCDF (d1 S K T r sigma)
        else normalCDF (d1 S K T r sigma) - 1)
       (normalPDF (d1 S K T r sigma) / (S * sigma * sqrt T))
       (S * normalPDF (d1 S K T r sigma) * sqrt T / 100)
       (if isCall
        then (- S * normalPDF (d1 S K T r sigma) * sigma / (2 * sqrt T)
              - r * K * exp (- r * T) * normalCDF (d2 S K T r sigma)) / 365
        else (- S * normalPDF (d1 S K T r sigma) * sigma / (2 * sqrt T)
              + r * K * exp (- r * T) * normalCDF (- d2 S K T r sigma)) / 365).
Proof.
  intros HT HS Hs. unfold calculateGreeks.
  destruct (Rle_dec T 0); [lra|].
  destruct (Req_dec_T S 0); [contradiction|].
  destruct (Req_dec_T sigma 0); [contradiction|]. reflexivity.
Qed.

(** X30: with no time left, a spot of 0 or a volatility of 0 all four Greeks
    are 0.  The approximate normal CDF of a positive x is 1 less its value at
    -x, and at 0 it is under one half.  For a positive spot, strike and time
    and a volatility that is not 0, the delta of the put is that of the call
    less 1, gamma and vega are the same for the call and the put, vega is not
    negative, and neither is gamma for a positive volatility. *)
Theorem greeks_of_calls_and_puts :
  (forall S K T r sigma isCall,
     T <= 0 \/ S = 0 \/ sigma = 0 ->
     calculateGreeks S K T r sigma isCall = mk 0 0 0 0) /\
  (forall x, 0 < x -> normalCDF x = 1 - normalCDF (- x)) /\
  normalCDF 0 < 1 / 2 /\
  (forall S K T r sigma,
     0 < S -> 0 < K -> 0 < T -> sigma <> 0 ->
     let call := calculateGreeks S K T r sigma true in
     let put := calculateGreeks S K T r sigma false in
     delta put = delta call - 1 /\
     gamma call = gamma put /\
     vega call = vega put /\
     0 <= vega call /\
     (0 < sigma -> 0 <= gamma call)).
Proof.
  split; [|split; [exact normalCDF_reflect|split]].
  - intros S K T r sigma isCall H. unfold calculateGreeks.
    destruct (Rle_dec T 0); [reflexivity|].
    destruct (Req_dec_T S 0); [reflexivity|].
    destruct (Req_dec_T sigma 0); [reflexivity|].
    destruct H as [H|[H|H]]; [lra|contradiction|contradiction].
  - rewrite normalCDF_zero. lra.
  - intros S K T r sigma HS HK HT Hs call put. unfold call, put.
    rewrite !calculateGreeks_live by lra. cbn [delta gamma vega theta].
    pose proof (normalPDF_pos (d1 S K T r sigma)) as Hpdf.
    pose proof (sqrt_lt_R0 T HT) as Hsqrt.
    split; [reflexivity|]. split; [reflexivity|]. split; [reflexivity|].
    split.
    + apply Rlt_le. apply Rdiv_lt_0_compat; [|lra].
      apply Rmult_lt_0_compat; [apply Rmult_lt_0_compat|]; assumption.
    + intro Hpos. apply Rlt_le. apply Rdiv_lt_0_compat; [exact Hpdf|].
      apply Rmult_lt_0_compat; [apply Rmult_lt_0_compat|]; assumption.
Qed.

Lemma greeks_of_calls_and_puts_witness :
  normalCDF 1 = 1 - normalCDF (- 1) /\
  delta (calculateGreeks 100 100 1 0 1 false)
  = delta (calculateGreeks 100 100 1 0 1 true) - 1.
Proof.
  destruct greeks_of_calls_and_puts as (_ & Hn & _ & Hg).
  split; [apply Hn; lra|].
  apply (Hg 100 100 1 0 1); lra.
Defined.

End GreeksFacts.

(** ** What the components read besides their arguments *)

Module EnvironmentFacts.

Import Num NumFacts OptionsWalls OptionsWallsFacts Sentiment.
Import MarketStructure MarketStructureFacts.
Local Open Scope Q_scope.
Local Open Scope string_scope.

(** A point without a timestamp gets the reading of the clock. *)
Lemma processedData_depends_on_the_clock :
  processedData None None tickingClock noDate (closesOnly [100])
  <> processedData None None (fun _ => 7%Z) noDate (closesOnly [100]).
Proof.
  intro H.
  assert (E : forall c : nat -> Z,
            match processedData None None c noDate (closesOnly [100]) with
            | Returns data => map ProcessedPoint.timestamp data
            | Throws _ => []
            end = [c 0%nat]).
  { intro c. cbn. unfold orElseZ. cbn.
    destruct (c 0%nat =? 0)%Z eqn:Ec; [|reflexivity].
    apply Z.eqb_eq in Ec. now rewrite Ec. }
  pose proof (E tickingClock) as E1. pose proof (E (fun _ => 7%Z)) as E2.
  rewrite H, E2 in E1. discriminate.
Qed.

(** C9 (as the code has it): the components are not all pure.  Both copies
    of the sentiment scorer read the wall clock, and the reading is their
    [timestamp] field and nothing else.  The walls builder reads nothing but
    its arguments on a chain that is not empty; on an empty chain its
    result, the mock, is fixed by the current price and the first 84 draws of
    [Math.random()], and changes with them.  The processed bars read
    [Date.now()] for the points without a timestamp and the date of today
    for the points without a date, and nothing else: two clocks that agree
    on those points give the same bars, and a point without a timestamp gets
    the reading.  The correlation series reads [Date.now()] only for a bar
    whose timestamp is 0.  The mock price generator is fixed by the current
    price, one reading of the clock, the dates of its timestamps and the
    first 500 draws. *)
Theorem outputs_fixed_by_inputs_clock_and_draws :
  (forall (now now' : String.string) (v : option VolMetrics)
          (d : option Dealer.Metrics) (spy skew : Q),
     generatePrediction now' v d spy skew
     = option_map (stamped now') (generatePrediction now v d spy skew) /\
     genPrediction now' v d spy skew
     = option_map (stamped now') (genPrediction now v d spy skew)) /\
  (forall (Math_exp Math_exp' : Q -> Q) (rnd rnd' : nat -> Q)
          (opt : Contract.t) (opts : list Contract.t) (price : option Q),
     calculateOptionsWalls Math_exp rnd (opt :: opts) price
     = calculateOptionsWalls Math_exp' rnd' (opt :: opts) price) /\
  (forall (Math_exp : Q -> Q) (rnd rnd' : nat -> Q) (price : option Q),
     (forall j, (j < 84)%nat -> rnd j = rnd' j) ->
     calculateOptionsWalls Math_exp rnd [] price
     = calculateOptionsWalls Math_exp rnd' [] price) /\
  (forall Math_exp : Q -> Q,
     (forall x, x == 0 -> Math_exp x == 1) ->
     calculateOptionsWalls Math_exp (constantDraws 0) [] (Some 595)
     <> calculateOptionsWalls Math_exp (constantDraws 0.5) [] (Some 595)) /\
  (forall (currentPrice vixPrice : option Q) (clock clock' : nat -> Z)
          (today today' : nat -> String.string) (priceData : list PricePoint.t),
     (forall i p, nth_error priceData i = Some p ->
        (readsClock p = true -> clock i = clock' i) /\
        (readsDate p = true -> today i = today' i)) ->
     processedData currentPrice vixPrice clock today priceData
     = processedData currentPrice vixPrice clock' today' priceData) /\
  processedData None None tickingClock noDate (closesOnly [100])
  <> processedData None None (fun _ => 7%Z) noDate (closesOnly [100]) /\
  (forall (currentPrice vixPrice : option Q) (clock clock' : nat -> Z)
          (data : list ProcessedPoint.t),
     (forall d, In d data -> ProcessedPoint.timestamp d <> 0%Z) ->
     correlationData currentPrice vixPrice clock data
     = correlationData currentPrice vixPrice clock' data) /\
  (forall (currentPrice : option Q) (clock clock' : nat -> Z)
          (toLocaleDateString toLocaleDateString' : Z -> String.string)
          (rnd rnd' : nat -> Q),
     clock 0%nat = clock' 0%nat ->
     (forall t, toLocaleDateString t = toLocaleDateString' t) ->
     (forall j, (j < 500)%nat -> rnd j = rnd' j) ->
     generateMockPriceData currentPrice clock toLocaleDateString rnd
     = generateMockPriceData currentPrice clock' toLocaleDateString' rnd').
Proof.
  split; [|split; [|split; [|split; [|split; [|split; [|split]]]]]].
  - intros now now' [v|] [d|] spy skew; split; reflexivity.
  - reflexivity.
  - intros Math_exp rnd rnd' price H. simpl. now apply mock_draws.
  - exact PurityFacts.mock_depends_on_draws.
  - intros currentPrice vixPrice clock clock' today today' priceData H.
    now apply processedData_clock.
  - exact processedData_depends_on_the_clock.
  - intros currentPrice vixPrice clock clock' data H.
    now apply correlationData_clock.
  - intros currentPrice clock clock' tls tls' rnd rnd' Hnow Hdate Hdraws.
    now apply generateMockPriceData_draws.
Qed.

Lemma outputs_fixed_by_inputs_clock_and_draws_witness :
  calculateOptionsWalls unitExp (constantDraws 0.5) [] (Some 595)
  = calculateOptionsWalls unitExp (drawsThen 84 0.5 0) [] (Some 595).
Proof.
  destruct outputs_fixed_by_inputs_clock_and_draws as (_ & _ & H & _).
  apply H.
  intros j Hj. unfold constantDraws, drawsThen.
  destruct (Nat.ltb_spec j 84); [reflexivity|lia].
Defined.

End EnvironmentFacts.
